(** * Remote GDB debug adapter: MI codec, command correlation, reconnection,
      breakpoint reconciliation and path mapping.

    A shallow embedding of [gdbMI.ts], [debugAdapter.ts] (the token-correlating
    session), [sshManager.ts] and [pathMapper.ts].

    Conventions of the embedding.
    - A JavaScript string is a [string] of 8-bit characters (code units below
      256); [str[i]] is [String.get i str], which is [None] where JavaScript
      yields [undefined].
    - A JavaScript integer is a [Z]; the code only counts tokens, lines and
      breakpoint numbers, far below 2^53, where doubles are exact.
    - A [Map] is an insertion-ordered association list where the code
      iterates over it, and a [gmap] where it only reads, writes and deletes.
    - A loop whose termination the code does not make evident takes a [fuel]
      argument and answers [None] when the fuel is used up. *)

From Stdlib Require Import ZArith Ascii String List Bool Lia.
From stdpp Require Import base option list gmap strings pretty.
Import ListNotations.

Local Open Scope string_scope.
Local Open Scope list_scope.
Set Warnings "-register-all".

(** ** JavaScript string primitives *)

Module Js.

Definition dquote : ascii := "034"%char.
Definition backslash : ascii := "092"%char.
Definition newline : ascii := "010"%char.
Definition creturn : ascii := "013"%char.
Definition tab : ascii := "009"%char.
Definition apostrophe : ascii := "039"%char.

Definition code (c : ascii) : nat := nat_of_ascii c.

Definition in_range (lo hi c : ascii) : bool :=
  (code lo <=? code c)%nat && (code c <=? code hi)%nat.

(** [\d], [[a-z]], [[A-Z]] *)
Definition is_digit (c : ascii) : bool := in_range "0" "9" c.
Definition is_lower (c : ascii) : bool := in_range "a" "z" c.
Definition is_upper (c : ascii) : bool := in_range "A" "Z" c.

(** Line terminators, which [.] does not match. *)
Definition is_line_terminator (c : ascii) : bool :=
  Ascii.eqb c newline || Ascii.eqb c creturn.

(** White space and line terminators, which [trim] and [parseInt] strip:
    TAB, LF, VT, FF, CR, SPACE and NBSP. *)
Definition is_space (c : ascii) : bool :=
  (code c =? 9)%nat || (code c =? 10)%nat || (code c =? 11)%nat ||
  (code c =? 12)%nat || (code c =? 13)%nat || (code c =? 32)%nat ||
  (code c =? 160)%nat.

(** [str[i] === c] *)
Definition char_is (str : string) (i : nat) (c : ascii) : bool :=
  match String.get i str with
  | Some d => Ascii.eqb d c
  | None => false
  end.

(** [str.substring(i)] *)
Fixpoint drop (i : nat) (str : string) : string :=
  match i, str with
  | O, _ => str
  | S i', String _ rest => drop i' rest
  | S _, EmptyString => EmptyString
  end.

(** [str.substring(0, n)] *)
Fixpoint take (n : nat) (str : string) : string :=
  match n, str with
  | S n', String c rest => String c (take n' rest)
  | _, _ => EmptyString
  end.

Definition snoc (s : string) (c : ascii) : string := s +:+ String c EmptyString.

Fixpoint rev_acc (s acc : string) : string :=
  match s with
  | EmptyString => acc
  | String c rest => rev_acc rest (String c acc)
  end.
Definition rev (s : string) : string := rev_acc s EmptyString.

Fixpoint trimStart (s : string) : string :=
  match s with
  | String c rest => if is_space c then trimStart rest else s
  | EmptyString => EmptyString
  end.

(** [s.trim()] *)
Definition trim (s : string) : string := rev (trimStart (rev (trimStart s))).

(** [s.startsWith(p)] *)
Fixpoint startsWith (p s : string) : bool :=
  match p, s with
  | EmptyString, _ => true
  | String a p', String b s' => Ascii.eqb a b && startsWith p' s'
  | String _ _, EmptyString => false
  end.

(** [s.endsWith(c)] for a one-character [c] *)
Fixpoint endsWithChar (c : ascii) (s : string) : bool :=
  match s with
  | EmptyString => false
  | String d EmptyString => Ascii.eqb d c
  | String _ rest => endsWithChar c rest
  end.

Fixpoint all_chars (p : ascii -> bool) (s : string) : bool :=
  match s with
  | EmptyString => true
  | String c rest => p c && all_chars p rest
  end.

(** Whether [.] repeated can match all of [s]: no line terminator in it. *)
Definition dot_star (s : string) : bool :=
  all_chars (fun c => negb (is_line_terminator c)) s.

(** The longest prefix of [s] whose characters satisfy [p], and what
    follows it: a greedy character-class repetition. *)
Fixpoint span (p : ascii -> bool) (s : string) : string * string :=
  match s with
  | String c rest =>
      if p c then let '(run, tl) := span p rest in (String c run, tl)
      else (EmptyString, s)
  | EmptyString => (EmptyString, EmptyString)
  end.

(** [s.replace(/ab/g, r)] for a two-character literal pattern [ab]:
    matches are found left to right and do not overlap. *)
Fixpoint replace2 (a b r : ascii) (s : string) : string :=
  match s with
  | String c (String d rest as tl) =>
      if Ascii.eqb c a && Ascii.eqb d b then String r (replace2 a b r rest)
      else String c (replace2 a b r tl)
  | _ => s
  end.

(** [s.replace(/a/g, r)] for a one-character literal pattern. *)
Fixpoint replace1 (a r : ascii) (s : string) : string :=
  match s with
  | String c rest => String (if Ascii.eqb c a then r else c) (replace1 a r rest)
  | EmptyString => EmptyString
  end.

(** A JavaScript number produced by [parseInt]. *)
Inductive number := NaN | Num (z : Z).

Definition digit_value (c : ascii) : Z := Z.of_nat (code c - 48).

Fixpoint digits_value (acc : Z) (s : string) : Z :=
  match s with
  | EmptyString => acc
  | String c rest => digits_value (10 * acc + digit_value c) rest
  end.

(** [parseInt(s, 10)]: leading white space is skipped, one sign is
    accepted, then the longest run of decimal digits is read; with no
    digit the result is [NaN]. *)
Definition parseInt (s : string) : number :=
  let s1 := trimStart s in
  let '(neg, s2) :=
    match s1 with
    | String c rest =>
        if Ascii.eqb c "-" then (true, rest)
        else if Ascii.eqb c "+" then (false, rest)
        else (false, s1)
    | EmptyString => (false, s1)
    end in
  let '(ds, _) := span is_digit s2 in
  match ds with
  | EmptyString => NaN
  | _ => Num (if neg : bool then - digits_value 0 ds else digits_value 0 ds)
  end.

(** Truthiness of a string: the empty string is falsy. *)
Definition truthy (s : string) : bool :=
  match s with EmptyString => false | _ => true end.

(** [o || d] for an optional string [o]: [undefined] and the empty string
    both give [d]. *)
Definition or_default (o : option string) (d : string) : string :=
  match o with
  | Some s => if truthy s then s else d
  | None => d
  end.

(** Reading aid for MI lines in examples: [lit s] is [s] with every
    apostrophe replaced by a double quote. *)
Definition lit (s : string) : string := replace1 apostrophe dquote s.

End Js.

(** ** Insertion-ordered maps *)

(** A JavaScript [Map] as the list of its entries in insertion order. *)
Module JsMap.

Section Defs.
Context {K V : Type} `{EqDecision K}.

Fixpoint get (k : K) (m : list (K * V)) : option V :=
  match m with
  | [] => None
  | (k', v) :: m' => if decide (k = k') then Some v else get k m'
  end.

(** [set]: an existing key keeps its place and takes the new value, a new
    key goes last. *)
Fixpoint set (k : K) (v : V) (m : list (K * V)) : list (K * V) :=
  match m with
  | [] => [(k, v)]
  | (k', v') :: m' =>
      if decide (k = k') then (k, v) :: m' else (k', v') :: set k v m'
  end.

Fixpoint delete (k : K) (m : list (K * V)) : list (K * V) :=
  match m with
  | [] => []
  | (k', v') :: m' =>
      if decide (k = k') then delete k m' else (k', v') :: delete k m'
  end.

Definition keys (m : list (K * V)) : list K := map fst m.
Definition values (m : list (K * V)) : list V := map snd m.

(** No key occurs twice. *)
Definition wf (m : list (K * V)) : Prop := NoDup (keys m).

End Defs.

End JsMap.

(** ** The MI grammar codec ([gdbMI.ts]) *)

Module GDBMI.
Import Js.

Inductive MIRecordType :=
| TResult | TExec | TStatus | TNotify | TConsole | TTarget | TLog.

(** [MIValue = string | MITuple | MIList]; an [MIResult] is the pair of a
    [variable] and its [value]. *)
Inductive MIValue :=
| MIString (s : string)
| MITuple (results : list (string * MIValue))
| MIList (values : list MIValue).

Definition MIResult : Type := string * MIValue.
Definition variable (r : MIResult) : string := fst r.
Definition value (r : MIResult) : MIValue := snd r.

(** An [MIRecord]; every optional property is an [option]. *)
Record MIRecord := mkRecord {
  rtype : MIRecordType;
  token : option Z;
  class : option string;
  results : option (list MIResult);
  output : option string
}.

(** [unescapeString]: five global replacements, one after the other. *)
Definition unescapeString (str : string) : string :=
  replace2 backslash backslash backslash
    (replace2 backslash dquote dquote
      (replace2 backslash "t" tab
        (replace2 backslash "r" creturn
          (replace2 backslash "n" newline str)))).

(** [[a-zA-Z_]] and [[a-zA-Z0-9_-]] *)
Definition is_name_start (c : ascii) : bool :=
  is_lower c || is_upper c || Ascii.eqb c "_".
Definition is_name_char (c : ascii) : bool :=
  is_name_start c || is_digit c || Ascii.eqb c "-".

(** The [varMatch] regular expression, anchored at the start of [s]: one
    name-start character, the longest run of name characters, then [=].
    Returns the captured name and the length of the whole match. *)
Definition varMatch (s : string) : option (string * nat) :=
  match s with
  | String c rest =>
      if is_name_start c then
        let '(run, tl) := span is_name_char rest in
        match tl with
        | String e _ =>
            if Ascii.eqb e "=" then Some (String c run, S (S (String.length run)))
            else None
        | EmptyString => None
        end
      else None
  | EmptyString => None
  end.

(** [while (i < str.length && (str[i] === ' ' || str[i] === ',')) i++],
    run on [rest = str.substring(i)]. *)
Fixpoint skipSepFrom (rest : string) (i : nat) : nat :=
  match rest with
  | String c rest' =>
      if Ascii.eqb c " " || Ascii.eqb c "," then skipSepFrom rest' (S i) else i
  | EmptyString => i
  end.
Definition skipSep (str : string) (i : nat) : nat := skipSepFrom (drop i str) i.

(** The loop of the string branch of [parseValue], run on
    [rest = str.substring(i)]. A closing quote returns the unescaped
    text; the end of the input returns the text as it is. *)
Fixpoint stringLoop (rest : string) (i : nat) (escaped : bool) (val : string)
  : MIValue * nat :=
  match rest with
  | String c rest' =>
      if escaped then stringLoop rest' (S i) false (snoc val c)
      else if Ascii.eqb c backslash then stringLoop rest' (S i) true val
      else if Ascii.eqb c dquote then (MIString (unescapeString val), S i)
      else stringLoop rest' (S i) false (snoc val c)
  | EmptyString => (MIString val, i)
  end.

(** The fallback loop of [parseValue]: read up to [,], [}] or []]. *)
Fixpoint fallbackLoop (rest : string) (i : nat) (val : string) : string * nat :=
  match rest with
  | String c rest' =>
      if Ascii.eqb c "," || Ascii.eqb c "}" || Ascii.eqb c "]" then (val, i)
      else fallbackLoop rest' (S i) (snoc val c)
  | EmptyString => (val, i)
  end.

(** [parseValue], with the [while] loops of its tuple and list branches.
    Every call and every loop iteration uses one unit of fuel. *)
Fixpoint parseValue (fuel : nat) (str : string) (startIndex : nat) {struct fuel}
  : option (MIValue * nat) :=
  match fuel with
  | O => None
  | S fuel' =>
      let i := startIndex in
      if char_is str i dquote then
        Some (stringLoop (drop (S i) str) (S i) false EmptyString)
      else if char_is str i "{" then tupleLoop fuel' str (S i) []
      else if char_is str i "[" then listLoop fuel' str (S i) []
      else
        let '(val, endIndex) := fallbackLoop (drop i str) i EmptyString in
        Some (MIString (trim val), endIndex)
  end

with tupleLoop (fuel : nat) (str : string) (i : nat) (acc : list MIResult)
       {struct fuel} : option (MIValue * nat) :=
  match fuel with
  | O => None
  | S fuel' =>
      if (i <? String.length str)%nat && negb (char_is str i "}") then
        let i1 := skipSep str i in
        if (String.length str <=? i1)%nat || char_is str i1 "}" then
          Some (MITuple acc, S i1)
        else
          match varMatch (drop i1 str) with
          | Some (name, n) =>
              match parseValue fuel' str (i1 + n) with
              | Some (val, endIndex) =>
                  tupleLoop fuel' str endIndex (acc ++ [(name, val)])
              | None => None
              end
          | None => tupleLoop fuel' str i1 acc
          end
      else Some (MITuple acc, S i)
  end

with listLoop (fuel : nat) (str : string) (i : nat) (acc : list MIValue)
       {struct fuel} : option (MIValue * nat) :=
  match fuel with
  | O => None
  | S fuel' =>
      if (i <? String.length str)%nat && negb (char_is str i "]") then
        let i1 := skipSep str i in
        if (String.length str <=? i1)%nat || char_is str i1 "]" then
          Some (MIList acc, S i1)
        else
          let prevIndex := i1 in
          match varMatch (drop i1 str) with
          | Some (name, n) =>
              match parseValue fuel' str (i1 + n) with
              | Some (val, endIndex) =>
                  let acc' := acc ++ [MITuple [(name, val)]] in
                  if (endIndex =? prevIndex)%nat then Some (MIList acc', S endIndex)
                  else listLoop fuel' str endIndex acc'
              | None => None
              end
          | None =>
              match parseValue fuel' str i1 with
              | Some (val, endIndex) =>
                  let acc' := acc ++ [val] in
                  if (endIndex =? prevIndex)%nat then Some (MIList acc', S endIndex)
                  else listLoop fuel' str endIndex acc'
              | None => None
              end
          end
      else Some (MIList acc, S i)
  end.

(** The loop of [parseResults]. *)
Fixpoint resultsLoop (fuel : nat) (str : string) (i : nat) (acc : list MIResult)
  : option (list MIResult) :=
  match fuel with
  | O => None
  | S fuel' =>
      if (i <? String.length str)%nat then
        let i1 := skipSep str i in
        if (String.length str <=? i1)%nat then Some acc
        else
          match varMatch (drop i1 str) with
          | None => Some acc
          | Some (name, n) =>
              match parseValue fuel' str (i1 + n) with
              | Some (val, endIndex) =>
                  resultsLoop fuel' str endIndex (acc ++ [(name, val)])
              | None => None
              end
          end
      else Some acc
  end.

Definition parseResults (fuel : nat) (str : string) : option (list MIResult) :=
  resultsLoop fuel str 0 [].

(** The record regular expression after its sigil: a non-empty run of
    lowercase letters and hyphens (the class), an optional comma, and the
    rest of the line, which [.] must be able to match. Returns the class
    and the text of the fields. *)
Definition classMatch (afterSigil : string) : option (string * string) :=
  let '(cls, tl) := span (fun c => is_lower c || Ascii.eqb c "-") afterSigil in
  match cls with
  | EmptyString => None
  | _ =>
      let resultsStr :=
        match tl with
        | String c rest => if Ascii.eqb c "," then rest else tl
        | EmptyString => tl
        end in
      if dot_star resultsStr then Some (cls, resultsStr) else None
  end.

(** [parseResultRecord] and [parseAsyncRecord] differ in the record type
    only; [line] starts with the sigil. *)
Definition parseClassRecord (fuel : nat) (ty : MIRecordType) (line : string)
                            (tok : option Z) : option MIRecord :=
  match classMatch (drop 1 line) with
  | None => Some (mkRecord ty tok None None None)
  | Some (cls, resultsStr) =>
      if truthy resultsStr then
        match parseResults fuel resultsStr with
        | Some rs => Some (mkRecord ty tok (Some cls) (Some rs) None)
        | None => None
        end
      else Some (mkRecord ty tok (Some cls) (Some []) None)
  end.

Definition parseResultRecord (fuel : nat) (line : string) (tok : option Z) :=
  parseClassRecord fuel TResult line tok.
Definition parseAsyncRecord (fuel : nat) (line : string) (ty : MIRecordType)
                            (tok : option Z) :=
  parseClassRecord fuel ty line tok.

(** The stream regular expression, for a [line] that starts with the
    sigil: a double quote, any text without a line terminator, and a double
    quote that ends the line. Returns the text between the quotes. *)
Definition streamMatch (line : string) : option string :=
  match line with
  | String _ (String q body) =>
      if Ascii.eqb q dquote && endsWithChar dquote body && dot_star body
      then Some (take (String.length body - 1) body)
      else None
  | _ => None
  end.

Definition parseStreamRecord (line : string) (ty : MIRecordType) : MIRecord :=
  match streamMatch line with
  | None => mkRecord ty None None None (Some (drop 1 line))
  | Some body => mkRecord ty None None None (Some (unescapeString body))
  end.

(** The token regular expression: a non-empty run of digits and the rest
    of the line. *)
Definition tokenMatch (trimmed : string) : option (string * string) :=
  let '(ds, tl) := span is_digit trimmed in
  match ds with
  | EmptyString => None
  | _ => if dot_star tl then Some (ds, tl) else None
  end.

(** [parseLine]: the outer [option] is [None] when the fuel runs out, the
    inner one is [None] where the code returns [null]. *)
Definition parseLine (fuel : nat) (line : string) : option (option MIRecord) :=
  if negb (truthy line) || (String.length (trim line) =? 0)%nat then Some None
  else
    let trimmed := trim line in
    let '(tok, rest) :=
      match tokenMatch trimmed with
      | Some (ds, tl) => (Some (digits_value 0 ds), tl)
      | None => (None, trimmed)
      end in
    if startsWith "^" rest then Some <$> parseResultRecord fuel rest tok
    else if startsWith "*" rest then Some <$> parseAsyncRecord fuel rest TExec tok
    else if startsWith "+" rest then Some <$> parseAsyncRecord fuel rest TStatus tok
    else if startsWith "=" rest then Some <$> parseAsyncRecord fuel rest TNotify tok
    else if startsWith "~" rest then Some (Some (parseStreamRecord rest TConsole))
    else if startsWith "@" rest then Some (Some (parseStreamRecord rest TTarget))
    else if startsWith "&" rest then Some (Some (parseStreamRecord rest TLog))
    else Some None.

(** The text of the fields of a line, which [parseLine] hands to
    [parseResults]: what follows the token, the sigil, the class and the
    comma. *)
Definition afterToken (line : string) : string :=
  match tokenMatch (trim line) with
  | Some (_, tl) => tl
  | None => trim line
  end.

Definition classFields (rest : string) : string :=
  match classMatch (drop 1 rest) with
  | Some (_, resultsStr) => resultsStr
  | None => EmptyString
  end.

Definition fieldsOf (line : string) : string := classFields (afterToken line).

(** *** Accessors *)

Fixpoint find_first (rs : list MIResult) (name : string) : option MIValue :=
  match rs with
  | [] => None
  | r :: rs' => if String.eqb (variable r) name then Some (value r)
                else find_first rs' name
  end.

(** [findResult(results, variable)] *)
Definition findResult (rs : option (list MIResult)) (name : string)
  : option MIValue :=
  match rs with
  | None => None
  | Some l => find_first l name
  end.

Definition getStringValue (v : option MIValue) : option string :=
  match v with Some (MIString s) => Some s | _ => None end.

Definition getTuple (v : option MIValue) : option (list MIResult) :=
  match v with Some (MITuple rs) => Some rs | _ => None end.

Definition getList (v : option MIValue) : option (list MIValue) :=
  match v with Some (MIList vs) => Some vs | _ => None end.

(** *** The items of parsed lists *)

(** [every_list P v]: every list inside [v], at any depth, has items that
    satisfy [P]. *)
Fixpoint every_list (P : list MIValue -> Prop) (v : MIValue) : Prop :=
  match v with
  | MIString _ => True
  | MITuple rs =>
      (fix fields (rs : list (string * MIValue)) : Prop :=
         match rs with
         | [] => True
         | (_, x) :: rs' => every_list P x /\ fields rs'
         end) rs
  | MIList vs =>
      P vs /\
      (fix items (vs : list MIValue) : Prop :=
         match vs with
         | [] => True
         | x :: vs' => every_list P x /\ items vs'
         end) vs
  end.

(** What one element of the text of a list contributes: at an index where
    a name and [=] are found, the single-field tuple around the value that
    follows; elsewhere the value found at the index itself. *)
Inductive list_item (str : string) : MIValue -> Prop :=
| item_named (i : nat) (name : string) (n : nat) (val : MIValue) (e fuel : nat) :
    varMatch (drop i str) = Some (name, n) ->
    parseValue fuel str (i + n) = Some (val, e) ->
    list_item str (MITuple [(name, val)])
| item_bare (i : nat) (val : MIValue) (e fuel : nat) :
    varMatch (drop i str) = None ->
    parseValue fuel str i = Some (val, e) ->
    list_item str val.

(** Every list inside [v] has items that the list loop produced from
    [str]. *)
Definition items_from (str : string) (v : MIValue) : Prop :=
  every_list (Forall (list_item str)) v.

(** Whether the list loop, entered at [i], finds an element at [i1]. *)
Definition element_at (str : string) (i i1 : nat) : Prop :=
  (i <? String.length str)%nat && negb (char_is str i "]") = true /\
  i1 = skipSep str i /\
  (String.length str <=? i1)%nat || char_is str i1 "]" = false.

(** *** Stopped events *)

Record GDBStackFrame := mkFrame {
  level : number;
  addr : string;
  func : string;
  file : option string;
  fullname : option string;
  line : option number
}.

Record GDBStoppedEvent := mkStopped {
  reason : string;
  threadId : option number;
  breakpointId : option number;
  signal : option string;
  exitCode : option number;
  frame : option GDBStackFrame
}.

(** [s ? parseInt(s, 10) : undefined] *)
Definition parseIntIfTruthy (o : option string) : option number :=
  match o with
  | Some s => if truthy s then Some (parseInt s) else None
  | None => None
  end.

(** [parseStackFrame]; its argument is the [results] of the tuple. *)
Definition parseStackFrame (tuple : list MIResult) : GDBStackFrame :=
  let field name := getStringValue (findResult (Some tuple) name) in
  {| level := default (Num 0) (parseIntIfTruthy (field "level"));
     addr := or_default (field "addr") "0x0";
     func := or_default (field "func") "??";
     file := field "file";
     fullname := field "fullname";
     line := parseIntIfTruthy (field "line") |}.

(** [parseStoppedEvent] *)
Definition parseStoppedEvent (rs : list MIResult) : GDBStoppedEvent :=
  let field name := getStringValue (findResult (Some rs) name) in
  {| reason := or_default (field "reason") "signal-received";
     threadId := parseIntIfTruthy (field "thread-id");
     breakpointId := parseIntIfTruthy (field "bkptno");
     signal := field "signal-name";
     exitCode := parseIntIfTruthy (field "exit-code");
     frame := parseStackFrame <$> getTuple (findResult (Some rs) "frame") |}.

(** *** Command encoding *)

(** The codec object: its only field is [tokenCounter], initially 1000. *)
Definition initialTokenCounter : Z := 1000.

(** [getNextToken]: the token returned and the new counter. *)
Definition getNextToken (tokenCounter : Z) : Z * Z :=
  (tokenCounter, (tokenCounter + 1)%Z).

(** The text of a command line for a token, a command name and its
    arguments; no arguments when [args] is falsy. *)
Definition formatCommand (tok : Z) (cmd args : string) : string :=
  if truthy args then pretty tok +:+ "-" +:+ cmd +:+ " " +:+ args
  else pretty tok +:+ "-" +:+ cmd.

End GDBMI.

(** ** Path mapping ([pathMapper.ts]) *)

Module PathMapper.
Import Js.

(** The two tables, in the order their entries were first added. *)
Record PathMapper := mkMapper {
  localToRemote : list (string * string);
  remoteToLocal : list (string * string)
}.

(** [normalizePath]: backslashes become slashes, and one trailing slash is
    removed from a path longer than one character. *)
Definition normalizePath (p : string) : string :=
  let normalized := replace1 backslash "/" p in
  if endsWithChar "/" normalized && (1 <? String.length normalized)%nat
  then take (String.length normalized - 1) normalized
  else normalized.

(** The loop of [toRemotePath] over the entries of [localToRemote]. *)
Fixpoint toRemoteLoop (entries : list (string * string))
                      (normalized localPath : string) : string :=
  match entries with
  | [] => localPath
  | (local, remote) :: rest =>
      if String.eqb normalized local then remote
      else if startsWith (local +:+ "/") normalized then
        let relativePath := drop (String.length local + 1) normalized in
        remote +:+ "/" +:+ relativePath
      else toRemoteLoop rest normalized localPath
  end.

Definition toRemotePath (pm : PathMapper) (localPath : string) : string :=
  toRemoteLoop (localToRemote pm) (normalizePath localPath) localPath.

Section Platform.

(** [path.join] of the platform's [path] module, and the expansion of the
    workspace-folder variable by the editor: both come from outside the
    repository. *)
Variable path_join : string -> string -> string.
Variable resolveLocalPath : string -> string.

(** The loop of [toLocalPath] over the entries of [remoteToLocal]. *)
Fixpoint toLocalLoop (entries : list (string * string))
                     (normalized remotePath : string) : string :=
  match entries with
  | [] => remotePath
  | (remote, local) :: rest =>
      if String.eqb normalized remote then local
      else if startsWith (remote +:+ "/") normalized then
        let relativePath := drop (String.length remote + 1) normalized in
        path_join local relativePath
      else toLocalLoop rest normalized remotePath
  end.

Definition toLocalPath (pm : PathMapper) (remotePath : string) : string :=
  toLocalLoop (remoteToLocal pm) (normalizePath remotePath) remotePath.

Definition addMapping (localPath remotePath : string) (pm : PathMapper)
  : PathMapper :=
  let resolvedLocal := resolveLocalPath localPath in
  let normalizedLocal := normalizePath resolvedLocal in
  let normalizedRemote := normalizePath remotePath in
  {| localToRemote := JsMap.set normalizedLocal normalizedRemote (localToRemote pm);
     remoteToLocal := JsMap.set normalizedRemote normalizedLocal (remoteToLocal pm) |}.

(** The constructor: the entries of [sourceMap], added in order. *)
Definition create (sourceMap : option (list (string * string))) : PathMapper :=
  fold_left (fun pm '(l, r) => addMapping l r pm)
            (default [] sourceMap) (mkMapper [] []).

End Platform.

End PathMapper.

(** ** The transport session manager ([sshManager.ts]) *)

Module SSHManager.

Inductive SSHSessionState :=
| Disconnected | Connecting | Connected | Reconnecting | Failed.

Record SSHConnectionDetails := mkDetails {
  host : string;
  hostname : string;
  port : Z;
  username : string;
  privateKeyPath : option string
}.

#[global] Instance SSHSessionState_eq_dec : EqDecision SSHSessionState.
Proof. solve_decision. Defined.
#[global] Instance SSHConnectionDetails_eq_dec : EqDecision SSHConnectionDetails.
Proof. solve_decision. Defined.

(** A session; [client] names the connection object it holds. *)
Record SSHSession := mkSession {
  client : nat;
  state : SSHSessionState;
  session_host : string;
  lastActivity : Z
}.

Record Manager := mkManager {
  sessions : gmap string SSHSession;
  reconnectAttempts : gmap string Z
}.

Definition maxReconnectAttempts : Z := 3.
Definition reconnectDelay : Z := 2000.

(** What the manager does to the outside: the events it emits to its
    listeners, the delay it starts before a reconnection, and the
    connection it opens when that delay has elapsed. *)
Inductive Effect :=
| FxEmit (event hostName : string)
| FxDelay (ms : Z) (details : SSHConnectionDetails)
| FxConnect (details : SSHConnectionDetails).

(** [getSessionKey] *)
Definition getSessionKey (details : SSHConnectionDetails) : string :=
  username details +:+ "@" +:+ hostname details +:+ ":" +:+ pretty (port details).

(** [updateSessionState] *)
Definition updateSessionState (sessionKey : string) (st : SSHSessionState)
                              (m : Manager) : Manager :=
  match sessions m !! sessionKey with
  | Some s =>
      mkManager (<[sessionKey := mkSession (client s) st (session_host s) (lastActivity s)]>
                   (sessions m))
                (reconnectAttempts m)
  | None => m
  end.

(** [attemptReconnect] up to its first [await]: the state and the counter
    are updated and the delay is started. What follows the delay is
    [afterDelay] below. *)
Definition attemptReconnect (sessionKey : string) (details : SSHConnectionDetails)
                            (attempt : Z) (m : Manager) : Manager * list Effect :=
  let m1 := updateSessionState sessionKey Reconnecting m in
  let m2 := mkManager (sessions m1)
                      (<[sessionKey := (attempt + 1)%Z]> (reconnectAttempts m1)) in
  (m2, [FxDelay reconnectDelay details]).

(** [handleDisconnect] *)
Definition handleDisconnect (sessionKey : string) (details : SSHConnectionDetails)
                            (m : Manager) : Manager * list Effect :=
  match sessions m !! sessionKey with
  | None => (m, [])
  | Some _ =>
      let m1 := updateSessionState sessionKey Disconnected m in
      let attempts := default 0%Z (reconnectAttempts m1 !! sessionKey) in
      if (attempts <? maxReconnectAttempts)%Z then
        let '(m2, fx) := attemptReconnect sessionKey details attempts m1 in
        (m2, FxEmit "disconnected" (host details) :: fx)
      else
        (m1, [FxEmit "disconnected" (host details);
              FxEmit "reconnectFailed" (host details)])
  end.

(** How one run of [connect] ends, which the remote side decides: the
    connection becomes ready (with the new client and the current time),
    it fails with an error, the connection timer fires first, or no private
    key is found. *)
Inductive ConnectOutcome :=
| ConnReady (newClient : nat) (now : Z)
| ConnError
| ConnTimedOut
| ConnNoKey.

(** [connect]: the new manager and whether the promise is fulfilled. A
    session already connected is reused. The [close] event of the client is
    a later event of its own. *)
Definition connect (details : SSHConnectionDetails) (o : ConnectOutcome)
                   (m : Manager) : Manager * bool :=
  let sessionKey := getSessionKey details in
  let reuse :=
    match sessions m !! sessionKey with
    | Some s => bool_decide (state s = Connected)
    | None => false
    end in
  if reuse then (m, true)
  else
    match o with
    | ConnReady c now =>
        (mkManager (<[sessionKey := mkSession c Connected (host details) now]> (sessions m))
                   (<[sessionKey := 0%Z]> (reconnectAttempts m)),
         true)
    | ConnError => (updateSessionState sessionKey Failed m, false)
    | ConnTimedOut => (m, false)
    | ConnNoKey => (m, false)
    end.

(** [attemptReconnect] after its delay: [connect] is run again, and
    [reconnected] is emitted when it succeeds. *)
Definition afterDelay (details : SSHConnectionDetails) (o : ConnectOutcome)
                      (m : Manager) : Manager * list Effect :=
  let '(m1, ok) := connect details o m in
  (m1, FxConnect details ::
       if ok : bool then [FxEmit "reconnected" (host details)] else []).

(** [disconnect] *)
Definition disconnect (details : SSHConnectionDetails) (m : Manager) : Manager :=
  let sessionKey := getSessionKey details in
  match sessions m !! sessionKey with
  | Some _ => mkManager (delete sessionKey (sessions m))
                        (delete sessionKey (reconnectAttempts m))
  | None => m
  end.

(** *** The manager as an event-driven machine *)

(** The manager together with the reconnection delays that are running. *)
Record World := mkWorld {
  manager : Manager;
  delays : list SSHConnectionDetails
}.

(** A client of the session reports [close], or a running delay elapses
    and the connection it opens ends as [o]. *)
Inductive Event :=
| EvClose (details : SSHConnectionDetails)
| EvDelayElapsed (details : SSHConnectionDetails) (o : ConnectOutcome).

Fixpoint remove_first (d : SSHConnectionDetails) (l : list SSHConnectionDetails)
  : list SSHConnectionDetails :=
  match l with
  | [] => []
  | x :: l' => if decide (x = d) then l' else x :: remove_first d l'
  end.

Definition started (fx : list Effect) : list SSHConnectionDetails :=
  omap (fun e => match e with FxDelay _ d => Some d | _ => None end) fx.

Definition step (ev : Event) (w : World) : World * list Effect :=
  match ev with
  | EvClose d =>
      let '(m, fx) := handleDisconnect (getSessionKey d) d (manager w) in
      (mkWorld m (delays w ++ started fx), fx)
  | EvDelayElapsed d o =>
      if bool_decide (d ∈ delays w) then
        let '(m, fx) := afterDelay d o (manager w) in
        (mkWorld m (remove_first d (delays w)), fx)
      else (w, [])
  end.

Fixpoint run (evs : list Event) (w : World) : World * list Effect :=
  match evs with
  | [] => (w, [])
  | ev :: evs' =>
      let '(w1, fx1) := step ev w in
      let '(w2, fx2) := run evs' w1 in
      (w2, fx1 ++ fx2)
  end.

End SSHManager.

(** ** The debug session ([debugAdapter.ts], the token-correlating variant) *)

Module Session.
Import Js GDBMI.

Inductive StopKind := SBreakpoint | SStep | SPause | SException | SEntry.

(** The events sent to the editor. *)
Inductive DapEvent :=
| TerminatedEvent
| StoppedEvent (kind : StopKind) (thread : Z)
| OutputEvent (text category : string).

(** A breakpoint as reported to the editor, and as requested by it. *)
Record Breakpoint := mkBreakpoint {
  verified : bool;
  bp_line : Z;
  bp_id : option Z
}.

Record SourceBreakpoint := mkSourceBreakpoint { sb_line : Z }.

(** The [resolve] and [reject] functions stored for a pending command:
    both belong to one promise, which [promiseOf] names. The promise that
    [sendGDBCommand] creates is named by the token of that call. *)
Record Completion := mkCompletion { promiseOf : Z }.

Record Session := mkState {
  tokenCounter : Z;
  pathMapper : option PathMapper.PathMapper;
  gdbChannel : bool;
  breakpoints : list (string * list Breakpoint);
  gdbBreakpoints : list (string * list (Z * Z));
  currentThreadId : Z;
  isRunning : bool;
  pendingBreakpoints : list (string * list SourceBreakpoint);
  pendingCommands : gmap Z Completion
}.

Definition with_tokenCounter (n : Z) (st : Session) : Session :=
  mkState n (pathMapper st) (gdbChannel st) (breakpoints st) (gdbBreakpoints st)
          (currentThreadId st) (isRunning st) (pendingBreakpoints st)
          (pendingCommands st).
Definition with_breakpoints (b : list (string * list Breakpoint)) (st : Session) :=
  mkState (tokenCounter st) (pathMapper st) (gdbChannel st) b (gdbBreakpoints st)
          (currentThreadId st) (isRunning st) (pendingBreakpoints st)
          (pendingCommands st).
Definition with_gdbBreakpoints (g : list (string * list (Z * Z))) (st : Session) :=
  mkState (tokenCounter st) (pathMapper st) (gdbChannel st) (breakpoints st) g
          (currentThreadId st) (isRunning st) (pendingBreakpoints st)
          (pendingCommands st).
Definition with_isRunning (b : bool) (st : Session) :=
  mkState (tokenCounter st) (pathMapper st) (gdbChannel st) (breakpoints st)
          (gdbBreakpoints st) (currentThreadId st) b (pendingBreakpoints st)
          (pendingCommands st).
Definition with_pendingBreakpoints (p : list (string * list SourceBreakpoint))
                                   (st : Session) :=
  mkState (tokenCounter st) (pathMapper st) (gdbChannel st) (breakpoints st)
          (gdbBreakpoints st) (currentThreadId st) (isRunning st) p
          (pendingCommands st).
Definition with_pendingCommands (p : gmap Z Completion) (st : Session) :=
  mkState (tokenCounter st) (pathMapper st) (gdbChannel st) (breakpoints st)
          (gdbBreakpoints st) (currentThreadId st) (isRunning st)
          (pendingBreakpoints st) p.

Definition with_gdbChannel (b : bool) (st : Session) :=
  mkState (tokenCounter st) (pathMapper st) b (breakpoints st) (gdbBreakpoints st)
          (currentThreadId st) (isRunning st) (pendingBreakpoints st)
          (pendingCommands st).

(** The session as its constructor leaves it. *)
Definition initial : Session :=
  mkState initialTokenCounter None false [] [] 1 false [] ∅.

(** What the session does to the outside. Diagnostic logging is left out. *)
Inductive Effect :=
| FxResolve (promise : Z) (record : MIRecord)
| FxReject (promise : Z) (message : string)
| FxSendEvent (e : DapEvent)
| FxSetTimer (ms : Z) (tok : Z) (command : string)
| FxChannelWrite (data : string).

(** [record.class === c] *)
Definition class_is (record : MIRecord) (c : string) : bool :=
  match class record with
  | Some k => String.eqb k c
  | None => false
  end.

(** [handleStopped] *)
Definition handleStopped (event : GDBStoppedEvent) (st : Session) : list Effect :=
  if String.eqb (reason event) "exited-normally" || String.eqb (reason event) "exited"
  then [FxSendEvent TerminatedEvent]
  else
    let kind :=
      if String.eqb (reason event) "breakpoint-hit" then SBreakpoint
      else if String.eqb (reason event) "end-stepping-range" then SStep
      else if String.eqb (reason event) "signal-received" then SException
      else SPause in
    [FxSendEvent (StoppedEvent kind (currentThreadId st))].

(** [handleMIRecord] *)
Definition handleMIRecord (record : MIRecord) (st : Session) : Session * list Effect :=
  match rtype record with
  | TResult =>
      match token record with
      | Some tok =>
          match pendingCommands st !! tok with
          | Some pending =>
              let st' := with_pendingCommands (delete tok (pendingCommands st)) st in
              if class_is record "done" || class_is record "running" then
                (st', [FxResolve (promiseOf pending) record])
              else if class_is record "error" then
                let msg := getStringValue (findResult (results record) "msg") in
                (st', [FxReject (promiseOf pending) (or_default msg "GDB command failed")])
              else (st', [FxResolve (promiseOf pending) record])
          | None => (st, [])
          end
      | None => (st, [])
      end
  | TExec =>
      if class_is record "stopped" then
        let st' := with_isRunning false st in
        let stoppedEvent := parseStoppedEvent (default [] (results record)) in
        (st', handleStopped stoppedEvent st')
      else if class_is record "running" then (with_isRunning true st, [])
      else (st, [])
  | TConsole | TTarget =>
      match output record with
      | Some o => if truthy o then (st, [FxSendEvent (OutputEvent o "stdout")])
                  else (st, [])
      | None => (st, [])
      end
  | TLog => (st, [])
  | TStatus | TNotify => (st, [])
  end.

(** [command.split(' ')]: the first part, and the other parts joined by
    spaces again, which is the text after the first space. *)
Fixpoint splitCommand (command : string) : string * string :=
  match command with
  | EmptyString => (EmptyString, EmptyString)
  | String c rest =>
      if Ascii.eqb c " " then (EmptyString, rest)
      else let '(cmd, args) := splitCommand rest in (String c cmd, args)
  end.

(** The line of a command: its first part after the token and a hyphen,
    then the other parts if there are any. *)
Definition fullCommand (tok : Z) (command : string) : string :=
  let '(cmd, args) := splitCommand command in
  formatCommand tok cmd args.

Definition commandTimeoutMs : Z := 5000.

(** [sendGDBCommand] up to the promise it returns: [None] when it throws
    for want of a channel, otherwise the token, which names the promise,
    the new state and the effects. *)
Definition sendGDBCommand (command : string) (st : Session)
  : option (Z * Session * list Effect) :=
  if negb (gdbChannel st) then None
  else
    let '(tok, counter') := getNextToken (tokenCounter st) in
    let fullCmd := fullCommand tok command in
    let st1 := with_tokenCounter counter' st in
    let st2 := with_pendingCommands
                 (<[tok := mkCompletion tok]> (pendingCommands st1)) st1 in
    Some (tok, st2,
          [FxSetTimer commandTimeoutMs tok command;
           FxChannelWrite (fullCmd +:+ String newline EmptyString)]).

(** The timer callback that [sendGDBCommand] registers for [tok]. It
    rejects the promise of its own call. *)
Definition commandTimeout (tok : Z) (command : string) (st : Session)
  : Session * list Effect :=
  match pendingCommands st !! tok with
  | Some _ =>
      (with_pendingCommands (delete tok (pendingCommands st)) st,
       [FxReject tok ("Command timeout: " +:+ command)])
  | None => (st, [])
  end.

(** *** The correlation engine as an event-driven machine *)

Inductive Event :=
| EvSend (command : string)
| EvRecord (record : MIRecord)
| EvTimerFired (tok : Z) (command : string).

Definition step (ev : Event) (st : Session) : Session * list Effect :=
  match ev with
  | EvSend command =>
      match sendGDBCommand command st with
      | Some (_, st', fx) => (st', fx)
      | None => (st, [])
      end
  | EvRecord record => handleMIRecord record st
  | EvTimerFired tok command => commandTimeout tok command st
  end.

Fixpoint run (evs : list Event) (st : Session) : Session * list Effect :=
  match evs with
  | [] => (st, [])
  | ev :: evs' =>
      let '(st1, fx1) := step ev st in
      let '(st2, fx2) := run evs' st1 in
      (st2, fx1 ++ fx2)
  end.

(** An event that is neither a result record with the token [tok] nor the
    timer of [tok]. *)
Definition leaves_alone (tok : Z) (ev : Event) : Prop :=
  match ev with
  | EvSend _ => True
  | EvRecord record => ~ (rtype record = TResult /\ token record = Some tok)
  | EvTimerFired t _ => t <> tok
  end.

(** The promise an effect settles, if it settles one. *)
Definition settles (e : Effect) : option Z :=
  match e with
  | FxResolve p _ => Some p
  | FxReject p _ => Some p
  | _ => None
  end.

(** How often the promise [p] is settled in a list of effects. *)
Definition settle_count (p : Z) (fx : list Effect) : nat :=
  length (filter (fun e => settles e = Some p) fx).

(** Every pending entry holds the completion of the promise named by its
    token, and that token has been handed out already. *)
Definition pending_ok (st : Session) : Prop :=
  forall tok c, pendingCommands st !! tok = Some c ->
    promiseOf c = tok /\ (tok < tokenCounter st)%Z.

(** *** Breakpoint bookkeeping *)

(** What [rememberGdbBreakpoint] does to the table [gdbBreakpoints] for a
    line that is defined: the table of the file, a new one if the file has
    none, takes the binding. *)
Definition remember (path : string) (l gdbId : Z) (table : list (string * list (Z * Z)))
  : list (string * list (Z * Z)) :=
  let fileBreakpoints := default [] (JsMap.get path table) in
  JsMap.set path (JsMap.set l gdbId fileBreakpoints) table.

(** [rememberGdbBreakpoint] *)
Definition rememberGdbBreakpoint (path : string) (line : option Z) (gdbId : Z)
                                 (st : Session) : Session :=
  match line with
  | None => st
  | Some l => with_gdbBreakpoints (remember path l gdbId (gdbBreakpoints st)) st
  end.

(** [getGdbBreakpointNumberFromTuple]; its argument is the [results] of
    the tuple. *)
Definition getGdbBreakpointNumberFromTuple (tuple : list MIResult) : option Z :=
  match getStringValue (findResult (Some tuple) "number") with
  | Some numberStr =>
      if truthy numberStr then
        match parseInt numberStr with
        | Num parsed => Some parsed
        | NaN => None
        end
      else None
  | None => None
  end.

(** The loop of [getGdbBreakpointId] over the values of a list: the number
    of the first tuple that has one. *)
Fixpoint firstNumberedTuple (vs : list MIValue) : option Z :=
  match vs with
  | [] => None
  | v :: vs' =>
      match getTuple (Some v) with
      | Some listTuple =>
          match getGdbBreakpointNumberFromTuple listTuple with
          | Some number => Some number
          | None => firstNumberedTuple vs'
          end
      | None => firstNumberedTuple vs'
      end
  end.

(** [getGdbBreakpointId]: a string value is either empty, hence falsy, or
    neither a tuple nor a list. *)
Definition getGdbBreakpointId (record : MIRecord) : option Z :=
  match findResult (results record) "bkpt" with
  | None => None
  | Some (MIString _) => None
  | Some (MITuple tuple) => getGdbBreakpointNumberFromTuple tuple
  | Some (MIList vs) => firstNumberedTuple vs
  end.

(** *** Request handlers as asynchronous functions *)

(** What the debugger answers to one command: a result record, which
    echoes the token of the command, or nothing before the timer fires. *)
Inductive Answer :=
| AnsRecord (cls : option string) (rs : option (list MIResult))
| AnsNone.

(** How an asynchronous function ends: it returns, it throws, or it waits
    for a promise that is never settled. *)
Inductive Outcome (A : Type) :=
| Returned (a : A)
| Threw (message : string)
| Hung.
Arguments Returned {A} a.
Arguments Threw {A} message.
Arguments Hung {A}.

(** A run of a handler: the session, the answers the debugger will give to
    the commands still to be sent, and the effects so far. The handler runs
    alone: no other handler touches the session while it waits. *)
Record Run := mkRun {
  session : Session;
  script : list Answer;
  effects : list Effect
}.

Definition Async (A : Type) : Type := Run -> Outcome A * Run.

Definition ret {A} (a : A) : Async A := fun w => (Returned a, w).

Definition bind {A B} (m : Async A) (k : A -> Async B) : Async B :=
  fun w =>
    match m w with
    | (Returned a, w') => k a w'
    | (Threw msg, w') => (Threw msg, w')
    | (Hung, w') => (Hung, w')
    end.

(** [try { m } catch (error) { h error }] *)
Definition try_catch {A} (m : Async A) (h : string -> Async A) : Async A :=
  fun w =>
    match m w with
    | (Threw msg, w') => h msg w'
    | other => other
    end.

Definition getSession : Async Session := fun w => (Returned (session w), w).

Definition modify (f : Session -> Session) : Async unit :=
  fun w => (Returned tt, mkRun (f (session w)) (script w) (effects w)).

Declare Scope async_scope.
Delimit Scope async_scope with async.
Notation "x <- m ;; k" := (bind m (fun x => k))
  (at level 100, m at next level, right associativity) : async_scope.
Notation "m ;;; k" := (bind m (fun _ => k))
  (at level 100, right associativity) : async_scope.

(** The first settlement of the promise [p] among some effects. *)
Fixpoint first_settlement (p : Z) (fx : list Effect) : option (MIRecord + string) :=
  match fx with
  | [] => None
  | FxResolve q r :: fx' => if decide (q = p) then Some (inl r) else first_settlement p fx'
  | FxReject q msg :: fx' => if decide (q = p) then Some (inr msg) else first_settlement p fx'
  | _ :: fx' => first_settlement p fx'
  end.

(** [await this.sendGDBCommand(command)]: the command is sent, then the
    next answer of the script arrives as a result record with the token of
    the command, or the timer of the command fires. A script says how each
    command is settled; a command that is never settled, because the reader
    does not return from a line, has no script. *)
Definition awaitGDBCommand (command : string) : Async MIRecord :=
  fun w =>
    match sendGDBCommand command (session w) with
    | None => (Threw "GDB channel not available", w)
    | Some (tok, st1, fx1) =>
        let '(ans, script') :=
          match script w with
          | [] => (AnsNone, [])
          | a :: rest => (a, rest)
          end in
        let '(st2, fx2) :=
          match ans with
          | AnsRecord cls rs => handleMIRecord (mkRecord TResult (Some tok) cls rs None) st1
          | AnsNone => commandTimeout tok command st1
          end in
        let w' := mkRun st2 script' (effects w ++ fx1 ++ fx2) in
        match first_settlement tok fx2 with
        | Some (inl record) => (Returned record, w')
        | Some (inr msg) => (Threw msg, w')
        | None => (Hung, w')
        end
    end.

(** [this.pathMapper?.toRemotePath(path) || path] *)
Definition remotePathFor (st : Session) (path : string) : string :=
  match pathMapper st with
  | Some pm =>
      let mapped := PathMapper.toRemotePath pm path in
      if truthy mapped then mapped else path
  | None => path
  end.

Definition deleteCommand (gdbId : Z) : string := "break-delete " +:+ pretty gdbId.

Definition insertCommand (remotePath : string) (sourceBp : SourceBreakpoint) : string :=
  "break-insert " +:+ remotePath +:+ ":" +:+ pretty (sb_line sourceBp).

Record SetBreakpointsArguments := mkArgs {
  source_path : option string;
  arg_breakpoints : option (list SourceBreakpoint)
}.

Local Open Scope async_scope.

(** The loop that deletes the recorded breakpoints of a file. *)
Fixpoint deleteLoop (gdbIds : list Z) : Async unit :=
  match gdbIds with
  | [] => ret tt
  | gdbId :: rest =>
      _ <- awaitGDBCommand (deleteCommand gdbId) ;;
      deleteLoop rest
  end.

(** The loop that inserts the requested breakpoints; [acc] is the array
    [breakpoints] of the response. *)
Fixpoint insertLoop (path remotePath : string) (sbs : list SourceBreakpoint)
                    (acc : list Breakpoint) : Async (list Breakpoint) :=
  match sbs with
  | [] => ret acc
  | sourceBp :: rest =>
      acc' <- try_catch
        (record <- awaitGDBCommand (insertCommand remotePath sourceBp) ;;
         match getGdbBreakpointId record with
         | Some gdbId =>
             modify (rememberGdbBreakpoint path (Some (sb_line sourceBp)) gdbId) ;;;
             ret (acc ++ [mkBreakpoint true (sb_line sourceBp) (Some gdbId)])
         | None => ret (acc ++ [mkBreakpoint true (sb_line sourceBp) None])
         end)
        (fun _ => ret (acc ++ [mkBreakpoint false (sb_line sourceBp) None])) ;;
      insertLoop path remotePath rest acc'
  end.

(** [setBreakpointsRequest]; the value returned is the list of breakpoints
    of the response that is sent. *)
Definition setBreakpointsRequest (args : SetBreakpointsArguments)
  : Async (list Breakpoint) :=
  match source_path args with
  | None => ret []
  | Some path =>
      if negb (truthy path) then ret []
      else
        st <- getSession ;;
        let remotePath := remotePathFor st path in
        if negb (gdbChannel st) then
          match arg_breakpoints args with
          | Some sbs =>
              modify (fun s => with_pendingBreakpoints
                                 (JsMap.set path sbs (pendingBreakpoints s)) s) ;;;
              ret (map (fun bp => mkBreakpoint false (sb_line bp) None) sbs)
          | None => ret []
          end
        else
          match JsMap.get path (gdbBreakpoints st) with
          | Some existingGdbBreakpoints =>
              deleteLoop (JsMap.values existingGdbBreakpoints) ;;;
              modify (fun s => with_gdbBreakpoints
                                 (JsMap.delete path (gdbBreakpoints s)) s)
          | None => ret tt
          end ;;;
          breakpoints <- match arg_breakpoints args with
                         | Some sbs => insertLoop path remotePath sbs []
                         | None => ret []
                         end ;;
          modify (fun s => with_breakpoints
                             (JsMap.set path breakpoints (Session.breakpoints s)) s) ;;;
          ret breakpoints
  end.

Local Close Scope async_scope.



(** At most one binding for a file and a line: no file occurs twice in the
    table, and no line occurs twice in the table of a file. *)
Definition table_wf (table : list (string * list (Z * Z))) : Prop :=
  JsMap.wf table /\ Forall (fun entry => JsMap.wf (snd entry)) table.

Definition bindings_wf (st : Session) : Prop := table_wf (gdbBreakpoints st).

(** *** Reading a run *)

(** The lines written to the channel, in order. *)
Definition written (fx : list Effect) : list string :=
  omap (fun e => match e with FxChannelWrite data => Some data | _ => None end) fx.

(** The lines of successive commands, the first with the token [tok]. *)
Fixpoint commandLines (tok : Z) (commands : list string) : list string :=
  match commands with
  | [] => []
  | c :: cs =>
      (fullCommand tok c +:+ String newline EmptyString) :: commandLines (tok + 1) cs
  end.

(** What the promise of a command with the token [tok] yields for an
    answer: the record it is resolved with, or the message it is rejected
    with. *)
Definition answered (ans : Answer) (tok : Z) (command : string) : MIRecord + string :=
  match ans with
  | AnsRecord cls rs =>
      let record := mkRecord TResult (Some tok) cls rs None in
      if class_is record "error"
      then inr (or_default (getStringValue (findResult rs "msg")) "GDB command failed")
      else inl record
  | AnsNone => inr ("Command timeout: " +:+ command)
  end.

(** An answer that makes the command succeed: a result record of a class
    other than [error]. *)
Definition accepted (ans : Answer) : bool :=
  match ans with
  | AnsRecord cls _ => negb (class_is (mkRecord TResult None cls None None) "error")
  | AnsNone => false
  end.

(** The breakpoint number that an answer carries. *)
Definition answerId (ans : Answer) : option Z :=
  match ans with
  | AnsRecord cls rs => getGdbBreakpointId (mkRecord TResult None cls rs None)
  | AnsNone => None
  end.



End Session.

(** ** Statements taken from the specification *)

Module Spec.
Import Js GDBMI Session.

(** Modelled from the spec: the repository has no encoder for strings, so
    [escape] is the function the specification describes, which replaces
    each of newline, carriage return, tab, double quote and backslash by
    its two-character escape sequence. *)
Fixpoint escape (s : string) : string :=
  match s with
  | EmptyString => EmptyString
  | String c rest =>
      if Ascii.eqb c newline then String backslash (String "n" (escape rest))
      else if Ascii.eqb c creturn then String backslash (String "r" (escape rest))
      else if Ascii.eqb c tab then String backslash (String "t" (escape rest))
      else if Ascii.eqb c dquote then String backslash (String dquote (escape rest))
      else if Ascii.eqb c backslash then String backslash (String backslash (escape rest))
      else String c (escape rest)
  end.

(** A mapped prefix matches a normalized path when the path equals it or
    extends it after a slash. *)
Definition prefix_matches (prefix normalized : string) : Prop :=
  normalized = prefix \/ exists rel, normalized = prefix +:+ "/" +:+ rel.

(** [result] is [normalized] with [prefix] replaced by [counterpart]. *)
Definition substituted (prefix counterpart normalized result : string) : Prop :=
  (normalized = prefix /\ result = counterpart) \/
  exists rel, normalized = prefix +:+ "/" +:+ rel /\
              result = counterpart +:+ "/" +:+ rel.

(** Longest-prefix lookup as the specification words it: the result
    substitutes a matching prefix of the table that no other matching
    prefix exceeds in length. *)
Definition longest_prefix_lookup (table : list (string * string))
                                 (normalized result : string) : Prop :=
  exists prefix counterpart,
    In (prefix, counterpart) table /\
    substituted prefix counterpart normalized result /\
    forall p' c', In (p', c') table -> prefix_matches p' normalized ->
                  (String.length p' <= String.length prefix)%nat.

(** The two ways a result record retires a pending command, as the
    specification words them: class [done] or [running] resolves with the
    record, class [error] rejects with the string of the [msg] field, or
    with a generic message when there is no such field. *)
Definition retired_as_stated (record : MIRecord) (pending : Completion)
                             (fx : list Effect) : Prop :=
  ((class record = Some "done" \/ class record = Some "running") /\
   fx = [FxResolve (promiseOf pending) record]) \/
  (class record = Some "error" /\
   fx = [FxReject (promiseOf pending)
           (match findResult (results record) "msg" with
            | Some (MIString m) => m
            | _ => "GDB command failed"
            end)]).


End Spec.

(** ** Sample sessions and records *)

Module Samples.
Import Js GDBMI Session.

(** A session whose debugger channel is open. *)
Definition started : Session := with_gdbChannel true initial.

(** The same session while it waits for the answer to one command, which
    has the token 1000. *)
Definition waiting : Session :=
  with_pendingCommands {[ 1000%Z := mkCompletion 1000 ]}
    (with_tokenCounter 1001 started).

Definition exit_record : MIRecord :=
  mkRecord TResult (Some 1000%Z) (Some "exit") (Some []) None.

Definition empty_msg_record : MIRecord :=
  mkRecord TResult (Some 1000%Z) (Some "error")
           (Some [("msg", MIString EmptyString)]) None.

Definition error_record : MIRecord :=
  mkRecord TResult (Some 1000%Z) (Some "error")
           (Some [("msg", MIString "No symbol table")]) None.

Definition console_record : MIRecord :=
  mkRecord TConsole None None None (Some "hello").

Definition signalled_record : MIRecord :=
  mkRecord TExec None (Some "stopped")
           (Some [("reason", MIString "exited-signalled");
                  ("signal-name", MIString "SIGSEGV")]) None.

(** A host, its session while connected, and the same session after
    three reconnection attempts. *)
Definition box : SSHManager.SSHConnectionDetails :=
  SSHManager.mkDetails "box" "box.example" 22 "me" (Some "/home/me/.ssh/id").

Definition box_session : SSHManager.SSHSession :=
  SSHManager.mkSession 0 SSHManager.Connected "box" 0.

Definition connected : SSHManager.Manager :=
  SSHManager.mkManager {[ SSHManager.getSessionKey box := box_session ]}
                       {[ SSHManager.getSessionKey box := 0%Z ]}.

Definition exhausted : SSHManager.Manager :=
  SSHManager.mkManager {[ SSHManager.getSessionKey box := box_session ]}
                       {[ SSHManager.getSessionKey box := 3%Z ]}.

(** Two mappings, the first a prefix of the second. *)
Definition nested : PathMapper.PathMapper :=
  PathMapper.mkMapper [("/a", "/x"); ("/a/b", "/y")] [("/x", "/a"); ("/y", "/a/b")].

(** A session with two breakpoints bound in one file, and answers of the
    debugger. *)
Definition two_bound : Session :=
  with_gdbBreakpoints [("t.c", [(10%Z, 1%Z); (20%Z, 2%Z)])] started.

Definition done_answer : Answer := AnsRecord (Some "done") (Some []).

Definition bkpt_answer (number : string) : Answer :=
  AnsRecord (Some "done")
            (Some [("bkpt", MITuple [("number", MIString number);
                                     ("line", MIString "20")])]).

Definition error_answer : Answer :=
  AnsRecord (Some "error") (Some [("msg", MIString "No line 30 in file.")]).

(** The request that replaces the lines 10 and 20 by 20 and 30, answered
    by two accepted deletions, an accepted insertion with the number 3 and a
    refused insertion. *)
Definition replace_request : SetBreakpointsArguments :=
  mkArgs (Some "t.c") (Some [mkSourceBreakpoint 20; mkSourceBreakpoint 30]).

Definition replace_run : Run :=
  mkRun two_bound [done_answer; done_answer; bkpt_answer "3"; error_answer] [].



(** The same request when the first deletion is refused. *)
Definition refused_delete_run : Run :=
  mkRun two_bound [error_answer; done_answer; bkpt_answer "3"] [].

End Samples.

(** ** Reading a line of the debugger *)

Module Lines.
Import Js GDBMI.

(** The character that announces a record of each type. *)
Definition sigil (ty : MIRecordType) : string :=
  match ty with
  | TResult => "^"
  | TExec => "*"
  | TStatus => "+"
  | TNotify => "="
  | TConsole => "~"
  | TTarget => "@"
  | TLog => "&"
  end.

Definition is_stream (ty : MIRecordType) : bool :=
  match ty with
  | TConsole | TTarget | TLog => true
  | _ => false
  end.

(** The token that [parseLine] reads in front of a line. *)
Definition lineToken (line : string) : option Z :=
  match tokenMatch (trim line) with
  | Some (ds, _) => Some (digits_value 0 ds)
  | None => None
  end.

(** A text between double quotes. *)
Definition quoted (text : string) : string :=
  String dquote (text +:+ String dquote EmptyString).

(** A text without a backslash, and one without a double quote either. *)
Definition no_backslash (text : string) : bool :=
  all_chars (fun c => negb (Ascii.eqb c backslash)) text.

Definition plain (text : string) : bool :=
  all_chars (fun c => negb (Ascii.eqb c backslash) && negb (Ascii.eqb c dquote)) text.

(** A name as [varMatch] reads it, and a class as the record expressions
    read it. *)
Definition is_name (name : string) : bool :=
  match name with
  | String c rest => is_name_start c && all_chars is_name_char rest
  | EmptyString => false
  end.

Definition is_class (cls : string) : bool :=
  truthy cls && all_chars (fun c => is_lower c || Ascii.eqb c "-") cls.

(** The text of a value: a string between quotes, a tuple of named
    fields between braces, a list of values between brackets; the fields
    and the items are separated by commas. [renderFields] and [renderItems]
    are the text after the opening brace or bracket, [first] telling whether
    the next element is the first one. *)
Fixpoint render (v : MIValue) : string :=
  match v with
  | MIString s => quoted s
  | MITuple rs =>
      "{" +:+
      (fix fields (first : bool) (rs : list (string * MIValue)) {struct rs} : string :=
         match rs with
         | [] => "}"
         | (name, x) :: rs' =>
             (if first then EmptyString else ",") +:+ name +:+ "=" +:+ render x +:+
             fields false rs'
         end) true rs
  | MIList vs =>
      "[" +:+
      (fix items (first : bool) (vs : list MIValue) {struct vs} : string :=
         match vs with
         | [] => "]"
         | x :: vs' =>
             (if first then EmptyString else ",") +:+ render x +:+ items false vs'
         end) true vs
  end.

Fixpoint renderFields (first : bool) (rs : list MIResult) : string :=
  match rs with
  | [] => "}"
  | (name, x) :: rs' =>
      (if first then EmptyString else ",") +:+ name +:+ "=" +:+ render x +:+
      renderFields false rs'
  end.

Fixpoint renderItems (first : bool) (vs : list MIValue) : string :=
  match vs with
  | [] => "]"
  | x :: vs' => (if first then EmptyString else ",") +:+ render x +:+ renderItems false vs'
  end.

(** The text of the results of a record: named fields separated by
    commas, up to the end of the line. *)
Fixpoint renderResults (first : bool) (rs : list MIResult) : string :=
  match rs with
  | [] => EmptyString
  | (name, x) :: rs' =>
      (if first then EmptyString else ",") +:+ name +:+ "=" +:+ render x +:+
      renderResults false rs'
  end.

(** A value whose strings have no backslash, no double quote and no line
    terminator, and whose fields have names. *)
Fixpoint clean (v : MIValue) : bool :=
  match v with
  | MIString s => plain s && dot_star s
  | MITuple rs =>
      (fix fields (rs : list (string * MIValue)) {struct rs} : bool :=
         match rs with
         | [] => true
         | (name, x) :: rs' => is_name name && clean x && fields rs'
         end) rs
  | MIList vs =>
      (fix items (vs : list MIValue) {struct vs} : bool :=
         match vs with
         | [] => true
         | x :: vs' => clean x && items vs'
         end) vs
  end.

Definition cleanFields (rs : list MIResult) : bool :=
  forallb (fun r => is_name (fst r) && clean (snd r)) rs.

Definition cleanItems (vs : list MIValue) : bool := forallb clean vs.

(** The fuel that is enough to parse the text of a value: one unit for
    each value, and one for each turn of a loop. *)
Fixpoint size (v : MIValue) : nat :=
  match v with
  | MIString _ => 1
  | MITuple rs =>
      S ((fix fields (rs : list (string * MIValue)) {struct rs} : nat :=
            match rs with
            | [] => 1
            | (_, x) :: rs' => S (size x + fields rs')
            end) rs)
  | MIList vs =>
      S ((fix items (vs : list MIValue) {struct vs} : nat :=
            match vs with
            | [] => 1
            | x :: vs' => S (size x + items vs')
            end) vs)
  end.

Fixpoint sizeFields (rs : list MIResult) : nat :=
  match rs with
  | [] => 1
  | (_, x) :: rs' => S (size x + sizeFields rs')
  end.

Fixpoint sizeItems (vs : list MIValue) : nat :=
  match vs with
  | [] => 1
  | x :: vs' => S (size x + sizeItems vs')
  end.

End Lines.

(** ** Reading a run of the correlation engine *)

Module Correlation.
Import Js GDBMI Session.

(** The tokens of the commands sent, in order: each command starts the
    timer of its token. *)
Definition sentTokens (fx : list Effect) : list Z :=
  omap (fun e => match e with FxSetTimer _ tok _ => Some tok | _ => None end) fx.

End Correlation.

(** ** Reading the output of the debugger ([handleGDBOutput]) *)

Module Reader.
Import Js GDBMI Session.

(** The session with the two fields that [handleGDBOutput] keeps beside it:
    the text of the line that is not complete yet, and whether the prompt
    has been seen. *)
Record Reader := mkReader {
  core : Session;
  outputBuffer : string;
  gdbReady : bool
}.

(** [s.includes(p)] *)
Fixpoint includes (p s : string) : bool :=
  startsWith p s ||
  match s with
  | String _ rest => includes p rest
  | EmptyString => false
  end.

(** [s.split('\n')] read from the left, on [s] appended to the piece
    [current] that is being read: the pieces that a newline ends, and the
    last piece, which is what [lines.pop()] takes away. *)
Fixpoint splitLines (s current : string) : list string * string :=
  match s with
  | EmptyString => ([], current)
  | String c rest =>
      if Ascii.eqb c newline then
        let '(ls, final) := splitLines rest EmptyString in (current :: ls, final)
      else splitLines rest (snoc current c)
  end.

(** The loop over the complete lines: each line is parsed, and a record is
    handed to [handleMIRecord]. [None] when a line uses up the fuel. *)
Fixpoint dispatchLines (fuel : nat) (lines : list string) (st : Session)
  : option (Session * list Effect) :=
  match lines with
  | [] => Some (st, [])
  | line :: rest =>
      match parseLine fuel line with
      | None => None
      | Some None => dispatchLines fuel rest st
      | Some (Some record) =>
          let '(st1, fx1) := handleMIRecord record st in
          match dispatchLines fuel rest st1 with
          | Some (st2, fx2) => Some (st2, fx1 ++ fx2)
          | None => None
          end
      end
  end.

(** [handleGDBOutput] *)
Definition handleGDBOutput (fuel : nat) (data : string) (rd : Reader)
  : option (Reader * list Effect) :=
  let buffer := outputBuffer rd +:+ data in
  let ready := gdbReady rd || includes "(gdb)" data in
  let '(lines, final) := splitLines buffer EmptyString in
  match dispatchLines fuel lines (core rd) with
  | Some (st, fx) => Some (mkReader st final ready, fx)
  | None => None
  end.

End Reader.

(** ** More request handlers of the debug session *)

Module Requests.
Import Js GDBMI Session.

Inductive RequestKind := Launch | Attach.

(** The properties of the launch configuration that the handlers read. *)
Record RemoteGDBConfiguration := mkConfig {
  request : RequestKind;
  program : string;
  gdbPath : option string;
  coreDumpPath : option string;
  args : option (list string);
  cwd : option string;
  env : option (list (string * string));
  stopAtEntry : option bool;
  setupCommands : option (list string)
}.

(** The answer to a request: [sendResponse], or [sendErrorResponse] with
    its id and text. *)
Inductive Response :=
| Success
| Failure (id : Z) (format : string).

(** Truthiness of an optional string. *)
Definition given (o : option string) : bool :=
  match o with
  | Some s => truthy s
  | None => false
  end.

(** [parts.join(' ')] *)
Fixpoint joinSpaces (parts : list string) : string :=
  match parts with
  | [] => EmptyString
  | [p] => p
  | p :: rest => p +:+ " " +:+ joinSpaces rest
  end.

Local Open Scope async_scope.

(** [try { await this.sendGDBCommand(command) } catch { }]: the failure is
    logged and nothing else. *)
Definition attempt (command : string) : Async unit :=
  try_catch (_ <- awaitGDBCommand command ;; ret tt) (fun _ => ret tt).

Fixpoint attemptAll (commands : list string) : Async unit :=
  match commands with
  | [] => ret tt
  | command :: rest => attempt command ;;; attemptAll rest
  end.

Definition cwdCommand (dir : string) : string := "gdb-set cwd " +:+ dir.

Definition envCommand (entry : string * string) : string :=
  "gdb-set environment " +:+ fst entry +:+ " " +:+ snd entry.

Definition argumentsCommand (arguments : list string) : string :=
  "exec-arguments " +:+ joinSpaces arguments.

(** [startGDB] from the prompt on: the setup commands, the working
    directory, the environment and the arguments, each in a [try] of its
    own; the last three only without a core dump. *)
Definition applySetup (config : RemoteGDBConfiguration) : Async unit :=
  match setupCommands config with
  | Some (c :: cs) => attemptAll (c :: cs)
  | _ => ret tt
  end ;;;
  (if given (cwd config) && negb (given (coreDumpPath config))
   then attempt (cwdCommand (default EmptyString (cwd config)))
   else ret tt) ;;;
  match env config with
  | Some entries =>
      if negb (given (coreDumpPath config)) then attemptAll (map envCommand entries)
      else ret tt
  | None => ret tt
  end ;;;
  match args config with
  | Some (a :: rest) =>
      if negb (given (coreDumpPath config)) then attempt (argumentsCommand (a :: rest))
      else ret tt
  | _ => ret tt
  end.


(** The body of the loop of [configurationDoneRequest] over the queued
    breakpoints of one file. *)
Definition flushOne (path remotePath : string) (bp : SourceBreakpoint) : Async unit :=
  try_catch
    (record <- awaitGDBCommand (insertCommand remotePath bp) ;;
     match getGdbBreakpointId record with
     | Some gdbId => modify (rememberGdbBreakpoint path (Some (sb_line bp)) gdbId)
     | None => ret tt
     end)
    (fun _ => ret tt).

Fixpoint flushFile (path remotePath : string) (bps : list SourceBreakpoint) : Async unit :=
  match bps with
  | [] => ret tt
  | bp :: rest => flushOne path remotePath bp ;;; flushFile path remotePath rest
  end.

(** The loop over the entries of [pendingBreakpoints]. *)
Fixpoint flushPending (entries : list (string * list SourceBreakpoint)) : Async unit :=
  match entries with
  | [] => ret tt
  | (path, bps) :: rest =>
      st <- getSession ;;
      flushFile path (remotePathFor st path) bps ;;;
      flushPending rest
  end.

(** [configurationDoneRequest]. [initialized] says whether [isInitialized]
    is set when the request arrives or becomes set while it waits; the
    configuration is the one that the launch or attach request stored. *)
Definition configurationDoneRequest (initialized : bool)
                                    (configuration : option RemoteGDBConfiguration)
  : Async Response :=
  if negb initialized then
    ret (Failure 3 "Initialization timeout: GDB session not ready")
  else
    try_catch
      (st <- getSession ;;
       match pendingBreakpoints st with
       | [] => ret tt
       | entries =>
           flushPending entries ;;;
           modify (with_pendingBreakpoints [])
       end ;;;
       match configuration with
       | Some config =>
           if negb (given (coreDumpPath config)) &&
              match request config with Launch => true | Attach => false end
           then
             _ <- awaitGDBCommand
                    (if default false (stopAtEntry config)
                     then "exec-run --start" else "exec-run") ;;
             ret tt
           else ret tt
       | None => ret tt
       end ;;;
       ret Success)
      (fun msg => ret (Failure 3 ("Failed to start program: " +:+ msg))).

(** The requests that send one command: [continueRequest] also marks the
    program as running once the command is accepted. *)
Definition continueRequest : Async Response :=
  try_catch
    (_ <- awaitGDBCommand "exec-continue" ;;
     modify (with_isRunning true) ;;;
     ret Success)
    (fun msg => ret (Failure 5 ("Failed to continue: " +:+ msg))).

Definition nextRequest : Async Response :=
  try_catch (_ <- awaitGDBCommand "exec-next" ;; ret Success)
            (fun msg => ret (Failure 6 ("Failed to step over: " +:+ msg))).

Definition stepInRequest : Async Response :=
  try_catch (_ <- awaitGDBCommand "exec-step" ;; ret Success)
            (fun msg => ret (Failure 7 ("Failed to step in: " +:+ msg))).

Definition stepOutRequest : Async Response :=
  try_catch (_ <- awaitGDBCommand "exec-finish" ;; ret Success)
            (fun msg => ret (Failure 8 ("Failed to step out: " +:+ msg))).

Definition pauseRequest : Async Response :=
  try_catch (_ <- awaitGDBCommand "exec-interrupt" ;; ret Success)
            (fun msg => ret (Failure 9 ("Failed to pause: " +:+ msg))).

(** [throw new Error(message)] *)
Definition throw {A} (message : string) : Async A := fun w => (Threw message, w).

(** [disconnectRequest]. [connection] is [None] when the session has no
    configuration; otherwise it is what [getConnectionDetails] does for the
    host of the configuration: it throws, or it returns the details. The
    value returned is the details [sshManager.disconnect] is called with,
    if it is called. The response is sent in either case. *)
Definition disconnectRequest (connection : option (string + SSHManager.SSHConnectionDetails))
  : Async (option SSHManager.SSHConnectionDetails) :=
  try_catch
    (st <- getSession ;;
     (if gdbChannel st then
        _ <- awaitGDBCommand "gdb-exit" ;;
        modify (with_gdbChannel false)
      else ret tt) ;;;
     match connection with
     | None => ret None
     | Some (inl message) => throw message
     | Some (inr sshDetails) => ret (Some sshDetails)
     end)
    (fun _ => ret None).

Local Close Scope async_scope.

(** The session after an awaited command has been settled: the token is
    taken, and the entry that was made for it is removed again. *)
Definition afterCommand (st : Session) : Session :=
  with_pendingCommands
    (delete (tokenCounter st)
            (<[tokenCounter st := mkCompletion (tokenCounter st)]> (pendingCommands st)))
    (with_tokenCounter (tokenCounter st + 1) st).


(** A property of the session that a handler keeps, whatever the debugger
    answers, and a handler that passes no exception on to its caller. *)
Definition keeps {A} (P : Session -> Prop) (m : Async A) : Prop :=
  forall w, P (session w) -> P (session (snd (m w))).

Definition never_throws {A} (m : Async A) : Prop :=
  forall w msg, fst (m w) <> Threw msg.




(** The response of a handler that awaits one command and reports its
    failure under the number [id]. *)
Definition reply (id : Z) (text : string) (outcome : MIRecord + string) : Response :=
  match outcome with
  | inl _ => Success
  | inr msg => Failure id (text +:+ msg)
  end.

(** What the promise of a command yields in a run: the channel may be
    closed, otherwise the next answer of the script decides. *)
Definition promised (command : string) (w : Run) : MIRecord + string :=
  if gdbChannel (session w)
  then answered (hd AnsNone (script w)) (tokenCounter (session w)) command
  else inr "GDB channel not available".

(** The details that [disconnectRequest] has for the transport, if it gets
    them. *)
Definition reachable (connection : option (string + SSHManager.SSHConnectionDetails))
  : option SSHManager.SSHConnectionDetails :=
  match connection with
  | Some (inr sshDetails) => Some sshDetails
  | _ => None
  end.



End Requests.

(** ** More sample runs *)

Module MoreSamples.
Import Js GDBMI Session Requests.




End MoreSamples.

(** ** Reading a run of the transport manager *)

Module Transport.
Import SSHManager.

(** [getSessionState] *)
Definition getSessionState (details : SSHConnectionDetails) (m : Manager)
  : SSHSessionState :=
  match sessions m !! getSessionKey details with
  | Some s => state s
  | None => Disconnected
  end.

(** [disconnectAll] *)
Definition disconnectAll (m : Manager) : Manager := mkManager ∅ ∅.

(** Whether an effect starts a reconnection delay for the session [key],
    and how many effects of a list do. *)
Definition starts_delay_for (key : string) (e : Effect) : bool :=
  match e with
  | FxDelay _ d => bool_decide (getSessionKey d = key)
  | _ => false
  end.

Definition delay_count (key : string) (fx : list Effect) : nat :=
  length (List.filter (starts_delay_for key) fx).

(** The attempts counted for a session, [get(sessionKey) || 0]. *)
Definition attemptsOf (key : string) (m : Manager) : Z :=
  default 0%Z (reconnectAttempts m !! key).

(** An event other than a connection of the session [key] becoming
    ready. *)
Definition not_ready_for (key : string) (ev : Event) : Prop :=
  match ev with
  | EvDelayElapsed d (ConnReady _ _) => getSessionKey d <> key
  | _ => True
  end.

End Transport.

(** ** Reconnection as the manager drives it *)

Module Reconnection.
Import SSHManager.

(** The manager with all that can still call it back: the reconnection
    delays that are running, which are those of [World], and the clients
    that have not reported [close] yet. [connect] registers its handler of
    [close] on the client it creates, with the details it was called with,
    and a client reports [close] once. *)
Record Link := mkLink {
  world : World;
  clients : list SSHConnectionDetails
}.

(** The client that a run of [connect] leaves behind to report [close]:
    none when the connected session is reused, as no client is created, and
    none when the private key is not found, as that client is never
    connected; otherwise the client that became ready, that failed, or that
    the connection timer ended. *)
Definition opened (details : SSHConnectionDetails) (o : ConnectOutcome)
                  (m : Manager) : list SSHConnectionDetails :=
  let reuse :=
    match sessions m !! getSessionKey details with
    | Some s => bool_decide (state s = Connected)
    | None => false
    end in
  if reuse then []
  else
    match o with
    | ConnNoKey => []
    | _ => [details]
    end.

(** One event. A [close] is that of a client which has not reported it
    yet, and runs [handleDisconnect]; a delay that elapses runs [connect],
    which may leave a client behind. An event of a client or of a delay
    that does not exist changes nothing. *)
Definition step (ev : Event) (l : Link) : Link * list Effect :=
  match ev with
  | EvClose d =>
      if bool_decide (d ∈ clients l) then
        let '(w, fx) := SSHManager.step ev (world l) in
        (mkLink w (remove_first d (clients l)), fx)
      else (l, [])
  | EvDelayElapsed d o =>
      if bool_decide (d ∈ delays (world l)) then
        let '(w, fx) := SSHManager.step ev (world l) in
        (mkLink w (clients l ++ opened d o (manager (world l))), fx)
      else (l, [])
  end.

Fixpoint run (evs : list Event) (l : Link) : Link * list Effect :=
  match evs with
  | [] => (l, [])
  | ev :: evs' =>
      let '(l1, fx1) := step ev l in
      let '(l2, fx2) := run evs' l1 in
      (l2, fx1 ++ fx2)
  end.

(** The details an event is about. *)
Definition subject (ev : Event) : SSHConnectionDetails :=
  match ev with
  | EvClose d => d
  | EvDelayElapsed d _ => d
  end.

Definition has_key (key : string) (d : SSHConnectionDetails) : bool :=
  bool_decide (getSessionKey d = key).

(** How many delays and clients of the session [key] can still call the
    manager back. *)
Definition outstanding (key : string) (l : Link) : nat :=
  length (List.filter (has_key key) (delays (world l))) +
  length (List.filter (has_key key) (clients l)).

(** An established session: it is registered as connected, and its client
    is all that can call the manager back for it. *)
Definition established (d : SSHConnectionDetails) (l : Link) : Prop :=
  (exists s, sessions (manager (world l)) !! getSessionKey d = Some s /\
             state s = Connected) /\
  d ∈ clients l /\
  outstanding (getSessionKey d) l = 1%nat.

(** An effect that starts a reconnection delay, or opens a connection, for
    the session [key]. *)
Definition reconnects (key : string) (e : Effect) : Prop :=
  match e with
  | FxDelay _ d => getSessionKey d = key
  | FxConnect d => getSessionKey d = key
  | FxEmit _ _ => False
  end.

(** What two states of the manager and its callbacks have in common when
    nothing has happened to the session [key] in between. *)
Definition untouched (key : string) (l l' : Link) : Prop :=
  sessions (manager (world l')) !! key = sessions (manager (world l)) !! key /\
  reconnectAttempts (manager (world l')) !! key
    = reconnectAttempts (manager (world l)) !! key /\
  List.filter (has_key key) (delays (world l'))
    = List.filter (has_key key) (delays (world l)) /\
  List.filter (has_key key) (clients l') = List.filter (has_key key) (clients l).

(** The session of [Samples.box] right after it was established. *)
Definition box_link : Link :=
  mkLink (mkWorld Samples.connected []) [Samples.box].

(** Three reconnections of that session, each of which fails and is
    closed. *)
Definition three_failures : list Event :=
  [EvClose Samples.box; EvDelayElapsed Samples.box ConnError;
   EvClose Samples.box; EvDelayElapsed Samples.box ConnTimedOut;
   EvClose Samples.box; EvDelayElapsed Samples.box ConnError].

End Reconnection.

(** * Properties *)

(** Case analysis on every conditional of the goal, and the end of a case
    in which something belongs to the empty list. *)
Ltac break_ifs :=
  repeat match goal with
         | |- context [if ?b then _ else _] => destruct b
         end.

Ltac in_nil :=
  exfalso; eapply not_elem_of_nil; eassumption.

(** ** The codec *)

Module CodecFacts.
Import Js GDBMI.

(** *** A tuple with an element that is not a pair *)

Lemma tupleLoop_stuck (fuel : nat) :
  tupleLoop fuel (lit "a={1}") 3 [] = None.
Proof.
  induction fuel as [|fuel IH]; [reflexivity|].
  change (tupleLoop (S fuel) (lit "a={1}") 3 [])
    with (tupleLoop fuel (lit "a={1}") 3 []).
  exact IH.
Qed.

Lemma parseValue_stuck (fuel : nat) :
  parseValue fuel (lit "a={1}") 2 = None.
Proof.
  destruct fuel as [|fuel]; [reflexivity|].
  change (parseValue (S fuel) (lit "a={1}") 2)
    with (tupleLoop fuel (lit "a={1}") 3 []).
  apply tupleLoop_stuck.
Qed.

(** The list branch returns on the same element: its guard leaves the
    loop when the index has not moved. *)
Example list_branch_returns :
  parseLine 10 (lit "^done,a=[1}") =
  Some (Some (mkRecord TResult None (Some "done")
                (Some [("a", MIList [MIString "1"; MIString EmptyString])]) None)).
Proof. vm_compute. reflexivity. Qed.

(** C3. On the line [^done,a={1}] the parser never returns, whatever the
    fuel: in the tuple branch of [parseValue] an element that is not a
    [name=value] pair leaves the index where it is, and the loop has no
    guard against that. *)
Theorem tuple_branch_never_returns :
  forall fuel, parseLine fuel (lit "^done,a={1}") = None.
Proof.
  intros fuel.
  change (parseLine fuel (lit "^done,a={1}"))
    with (Some <$> (match parseResults fuel (lit "a={1}") with
                    | Some rs => Some (mkRecord TResult None (Some "done") (Some rs) None)
                    | None => None
                    end)).
  destruct fuel as [|fuel]; [reflexivity|].
  change (parseResults (S fuel) (lit "a={1}"))
    with (match parseValue fuel (lit "a={1}") 2 with
          | Some (val, endIndex) =>
              resultsLoop fuel (lit "a={1}") endIndex ([] ++ [("a", val)])
          | None => None
          end).
  rewrite parseValue_stuck. reflexivity.
Qed.

(** *** Text without a tuple *)

Lemma skipSepFrom_ge (rest : string) : forall i, (i <= skipSepFrom rest i)%nat.
Proof.
  induction rest as [|c rest IH]; intros i; simpl; [lia|].
  destruct (Ascii.eqb c " " || Ascii.eqb c ","); [|lia].
  specialize (IH (S i)). lia.
Qed.

Lemma stringLoop_ge (rest : string) :
  forall i escaped val, (i <= snd (stringLoop rest i escaped val))%nat.
Proof.
  induction rest as [|c rest IH]; intros i escaped val; simpl; [lia|].
  destruct escaped; [specialize (IH (S i) false (snoc val c)); lia|].
  destruct (Ascii.eqb c backslash); [specialize (IH (S i) true val); lia|].
  destruct (Ascii.eqb c dquote); [simpl; lia|].
  specialize (IH (S i) false (snoc val c)). lia.
Qed.

Lemma fallbackLoop_ge (rest : string) :
  forall i val, (i <= snd (fallbackLoop rest i val))%nat.
Proof.
  induction rest as [|c rest IH]; intros i val; simpl; [lia|].
  destruct (Ascii.eqb c "," || Ascii.eqb c "}" || Ascii.eqb c "]"); [simpl; lia|].
  specialize (IH (S i) (snoc val c)). lia.
Qed.

Lemma varMatch_length (s name : string) (n : nat) :
  varMatch s = Some (name, n) -> (2 <= n)%nat.
Proof.
  unfold varMatch. destruct s as [|c rest]; [discriminate|].
  destruct (is_name_start c); [|discriminate].
  destruct (span is_name_char rest) as [run tl].
  destruct tl as [|e tl]; [discriminate|].
  destruct (Ascii.eqb e "="); [|discriminate].
  intros [= _ <-]. lia.
Qed.

Lemma char_is_in_range (str : string) (i : nat) (c : ascii) :
  char_is str i c = true -> (i < String.length str)%nat.
Proof.
  unfold char_is. revert i. induction str as [|d str IH]; intros i; simpl.
  - destruct i; discriminate.
  - destruct i as [|i]; [lia|]. intros H. apply IH in H. lia.
Qed.

Section BraceFree.
Variable str : string.
Hypothesis no_brace : forall i, char_is str i "{" = false.

(** With fuel for twice the characters that remain, the value parser and
    the list loop return, and their index does not go back. *)
Lemma brace_free_progress (k : nat) :
  (forall i fuel,
     (String.length str - i <= k)%nat -> (2 * k <= fuel)%nat -> (1 <= fuel)%nat ->
     exists v e, parseValue fuel str i = Some (v, e) /\ (i <= e)%nat) /\
  (forall i fuel acc,
     (String.length str - i <= k)%nat -> (2 * k + 1 <= fuel)%nat ->
     exists v e, listLoop fuel str i acc = Some (v, e) /\ (i <= e)%nat).
Proof.
  induction k as [|k [IHv IHl]].
  - split.
    + intros i fuel Hk _ Hfuel. destruct fuel as [|fuel]; [lia|]. simpl.
      assert (Hout : forall c, char_is str i c = false).
      { intros c. destruct (char_is str i c) eqn:Hc; [|reflexivity].
        apply char_is_in_range in Hc. lia. }
      rewrite !Hout.
      pose proof (fallbackLoop_ge (drop i str) i EmptyString) as Hge.
      destruct (fallbackLoop _ _ _) as [val endIndex]. simpl in Hge. eauto.
    + intros i fuel acc Hk Hfuel. destruct fuel as [|fuel]; [lia|]. simpl.
      assert (Hlt : (i <? String.length str)%nat = false) by (apply Nat.ltb_ge; lia).
      rewrite Hlt. simpl. eexists _, _. split; [reflexivity|lia].
  - assert (Hv : forall i fuel,
               (String.length str - i <= S k)%nat -> (2 * S k <= fuel)%nat ->
               exists v e, parseValue fuel str i = Some (v, e) /\ (i <= e)%nat).
    { intros i fuel Hk Hfuel. destruct fuel as [|fuel]; [lia|]. simpl.
      destruct (char_is str i dquote).
      { pose proof (stringLoop_ge (drop (S i) str) (S i) false EmptyString) as Hge.
        destruct (stringLoop _ _ _ _) as [v e]. simpl in Hge.
        eexists _, _. split; [reflexivity|lia]. }
      rewrite no_brace.
      destruct (char_is str i "[") eqn:Hopen.
      { apply char_is_in_range in Hopen.
        destruct (IHl (S i) fuel []) as (v & e & Hloop & Hge); [lia|lia|].
        exists v, e. split; [exact Hloop|lia]. }
      pose proof (fallbackLoop_ge (drop i str) i EmptyString) as Hge.
      destruct (fallbackLoop _ _ _) as [val endIndex]. simpl in Hge. eauto. }
    split; [intros i fuel Hk Hfuel _; apply Hv; assumption|].
    intros i fuel acc Hk Hfuel. destruct fuel as [|fuel]; [lia|]. simpl.
    destruct ((i <? String.length str)%nat && negb (char_is str i "]")) eqn:Hin;
      [|eexists _, _; split; [reflexivity|lia]].
    apply andb_true_iff in Hin as [Hlt _]. apply Nat.ltb_lt in Hlt.
    pose proof (skipSepFrom_ge (drop i str) i) as Hskip. fold (skipSep str i) in Hskip.
    destruct ((String.length str <=? skipSep str i)%nat || char_is str (skipSep str i) "]");
      [eexists _, _; split; [reflexivity|lia]|].
    destruct (varMatch _) as [[name n]|] eqn:Hname.
    + apply varMatch_length in Hname.
      destruct (Hv (skipSep str i + n)%nat fuel) as (val & e & Hval & Hge); [lia|lia|].
      rewrite Hval.
      destruct (e =? skipSep str i)%nat; [eexists _, _; split; [reflexivity|lia]|].
      destruct (IHl e fuel (acc ++ [MITuple [(name, val)]])) as (v & e' & Hloop & Hge');
        [lia|lia|].
      exists v, e'. split; [exact Hloop|lia].
    + destruct (Hv (skipSep str i) fuel) as (val & e & Hval & Hge); [lia|lia|].
      rewrite Hval.
      destruct (e =? skipSep str i)%nat eqn:Hstuck;
        [eexists _, _; split; [reflexivity|lia]|].
      apply Nat.eqb_neq in Hstuck.
      destruct (IHl e fuel (acc ++ [val])) as (v & e' & Hloop & Hge'); [lia|lia|].
      exists v, e'. split; [exact Hloop|lia].
Qed.

Lemma brace_free_results (k : nat) :
  forall i fuel acc,
    (String.length str - i <= k)%nat -> (2 * k + 2 <= fuel)%nat ->
    exists rs, resultsLoop fuel str i acc = Some rs.
Proof.
  induction k as [|k IH]; intros i fuel acc Hk Hfuel;
    (destruct fuel as [|fuel]; [lia|]); simpl.
  - assert (Hlt : (i <? String.length str)%nat = false) by (apply Nat.ltb_ge; lia).
    rewrite Hlt. eauto.
  - destruct (i <? String.length str)%nat eqn:Hlt; [|eauto].
    apply Nat.ltb_lt in Hlt.
    pose proof (skipSepFrom_ge (drop i str) i) as Hskip. fold (skipSep str i) in Hskip.
    destruct (String.length str <=? skipSep str i)%nat; [eauto|].
    destruct (varMatch _) as [[name n]|] eqn:Hname; [|eauto].
    apply varMatch_length in Hname.
    destruct (proj1 (brace_free_progress k) (skipSep str i + n)%nat fuel)
      as (val & e & Hval & Hge); [lia|lia|lia|].
    rewrite Hval. apply IH; lia.
Qed.

End BraceFree.

(** On a text without an opening brace the tuple branch is never entered,
    and both parsers return once the fuel exceeds twice the length of the
    text: the list loop and the field loop advance on every iteration, and
    the list loop leaves when the index has not moved. *)
Lemma brace_free_returns (str : string) :
  (forall i, char_is str i "{" = false) ->
  (forall i fuel, (2 * String.length str + 1 <= fuel)%nat ->
     exists v e, parseValue fuel str i = Some (v, e)) /\
  (forall fuel, (2 * String.length str + 2 <= fuel)%nat ->
     exists rs, parseResults fuel str = Some rs).
Proof.
  intros Hno. split.
  - intros i fuel Hfuel.
    destruct (proj1 (brace_free_progress str Hno (String.length str)) i fuel)
      as (v & e & H & _); [lia|lia|lia|eauto].
  - intros fuel Hfuel. apply (brace_free_results str Hno (String.length str)); lia.
Qed.

(** *** Unescaping *)

(** C5. Unescaping the escaped form of a backslash followed by [n] gives a
    backslash followed by a newline, not the string that was escaped: the
    first replacement of [unescapeString] pairs the second backslash of the
    escaped backslash with the [n]. *)
Theorem unescape_escape_backslash_n :
  unescapeString (Spec.escape "\n") = String backslash (String newline EmptyString) /\
  unescapeString (Spec.escape "\n") <> "\n".
Proof.
  split; [reflexivity|].
  vm_compute. discriminate.
Qed.

(** *** The items of lists *)

Section ListItems.
Variable P : list MIValue -> Prop.

Lemma every_list_tuple (rs : list MIResult) :
  every_list P (MITuple rs) <-> Forall (fun r => every_list P (snd r)) rs.
Proof.
  induction rs as [|[name x] rs IH].
  - simpl. split; [constructor | trivial].
  - change (every_list P (MITuple ((name, x) :: rs)))
      with (every_list P x /\ every_list P (MITuple rs)).
    rewrite IH, Forall_cons. reflexivity.
Qed.

Lemma every_list_list (vs : list MIValue) :
  every_list P (MIList vs) <-> P vs /\ Forall (every_list P) vs.
Proof.
  assert (H : forall us,
             (fix items (l : list MIValue) : Prop :=
                match l with
                | [] => True
                | x :: l' => every_list P x /\ items l'
                end) us <-> Forall (every_list P) us).
  { induction us as [|x us IH].
    - split; [constructor | trivial].
    - rewrite Forall_cons, <- IH. reflexivity. }
  simpl. rewrite H. reflexivity.
Qed.

End ListItems.

Lemma stringLoop_is_string (rest : string) :
  forall i escaped val, exists s, fst (stringLoop rest i escaped val) = MIString s.
Proof.
  induction rest as [|c rest IH]; intros i escaped val; simpl.
  - eauto.
  - destruct escaped; [apply IH|].
    destruct (Ascii.eqb c backslash); [apply IH|].
    destruct (Ascii.eqb c dquote); [simpl; eauto | apply IH].
Qed.

Lemma parse_items_from (str : string) (fuel : nat) :
  (forall i v e, parseValue fuel str i = Some (v, e) -> items_from str v) /\
  (forall i acc v e,
     Forall (fun r => items_from str (snd r)) acc ->
     tupleLoop fuel str i acc = Some (v, e) -> items_from str v) /\
  (forall i acc v e,
     Forall (list_item str) acc -> Forall (items_from str) acc ->
     listLoop fuel str i acc = Some (v, e) -> items_from str v).
Proof.
  induction fuel as [|fuel (IHv & IHt & IHl)].
  - repeat split; intros; discriminate.
  - split; [|split].
    + intros i v e. simpl.
      destruct (char_is str i dquote).
      { destruct (stringLoop_is_string (drop (S i) str) (S i) false EmptyString) as [s Hs].
        destruct (stringLoop _ _ _ _) as [v' e']. simpl in Hs. subst v'.
        intros [= <- _]. exact I. }
      destruct (char_is str i "{"); [apply IHt; constructor|].
      destruct (char_is str i "["); [apply IHl; constructor|].
      destruct (fallbackLoop _ _ _) as [val endIndex].
      intros [= <- _]. exact I.
    + intros i acc v e Hacc. simpl.
      destruct ((i <? String.length str)%nat && negb (char_is str i "}"));
        [|intros [= <- _]; apply every_list_tuple; exact Hacc].
      destruct ((String.length str <=? skipSep str i)%nat || char_is str (skipSep str i) "}");
        [intros [= <- _]; apply every_list_tuple; exact Hacc|].
      destruct (varMatch _) as [[name n]|]; [|apply IHt; exact Hacc].
      destruct (parseValue fuel str _) as [[val endIndex]|] eqn:Hval; [|discriminate].
      apply IHt. apply Forall_app. split; [exact Hacc|].
      constructor; [|constructor]. simpl. eapply IHv; exact Hval.
    + intros i acc v e Hitems Hacc. simpl.
      assert (Hdone : items_from str (MIList acc)).
      { apply every_list_list. split; assumption. }
      destruct ((i <? String.length str)%nat && negb (char_is str i "]"));
        [|intros [= <- _]; exact Hdone].
      destruct ((String.length str <=? skipSep str i)%nat || char_is str (skipSep str i) "]");
        [intros [= <- _]; exact Hdone|].
      destruct (varMatch _) as [[name n]|] eqn:Hname.
      * destruct (parseValue fuel str _) as [[val endIndex]|] eqn:Hval; [|discriminate].
        assert (Hitems' : Forall (list_item str) (acc ++ [MITuple [(name, val)]])).
        { apply Forall_app. split; [exact Hitems|].
          constructor; [|constructor]. eapply item_named; eassumption. }
        assert (Hacc' : Forall (items_from str) (acc ++ [MITuple [(name, val)]])).
        { apply Forall_app. split; [exact Hacc|].
          constructor; [|constructor]. apply every_list_tuple.
          constructor; [|constructor]. simpl. eapply IHv; exact Hval. }
        destruct (endIndex =? skipSep str i)%nat.
        { intros [= <- _]. apply every_list_list. split; assumption. }
        apply IHl; assumption.
      * destruct (parseValue fuel str _) as [[val endIndex]|] eqn:Hval; [|discriminate].
        assert (Hitems' : Forall (list_item str) (acc ++ [val])).
        { apply Forall_app. split; [exact Hitems|].
          constructor; [|constructor]. eapply item_bare; eassumption. }
        assert (Hacc' : Forall (items_from str) (acc ++ [val])).
        { apply Forall_app. split; [exact Hacc|].
          constructor; [|constructor]. eapply IHv; exact Hval. }
        destruct (endIndex =? skipSep str i)%nat.
        { intros [= <- _]. apply every_list_list. split; assumption. }
        apply IHl; assumption.
Qed.

Lemma resultsLoop_items_from (str : string) (fuel : nat) :
  forall i acc rs,
    Forall (fun r => items_from str (snd r)) acc ->
    resultsLoop fuel str i acc = Some rs ->
    Forall (fun r => items_from str (snd r)) rs.
Proof.
  induction fuel as [|fuel IH]; intros i acc rs Hacc; [discriminate|].
  simpl.
  destruct (i <? String.length str)%nat; [|intros [= <-]; exact Hacc].
  destruct (String.length str <=? skipSep str i)%nat; [intros [= <-]; exact Hacc|].
  destruct (varMatch _) as [[name n]|]; [|intros [= <-]; exact Hacc].
  destruct (parseValue fuel str _) as [[val endIndex]|] eqn:Hval; [|discriminate].
  apply IH. apply Forall_app. split; [exact Hacc|].
  constructor; [|constructor]. simpl.
  eapply (proj1 (parse_items_from str fuel)); exact Hval.
Qed.

Lemma parseClassRecord_items_from fuel ty rest tok record rs :
  parseClassRecord fuel ty rest tok = Some record ->
  results record = Some rs ->
  Forall (fun r => items_from (classFields rest) (snd r)) rs.
Proof.
  unfold parseClassRecord, classFields.
  destruct (classMatch _) as [[cls resultsStr]|]; [|intros [= <-]; discriminate].
  destruct (truthy resultsStr).
  - destruct (parseResults fuel resultsStr) as [rs'|] eqn:Hrs; [|discriminate].
    intros [= <-] [= <-].
    eapply resultsLoop_items_from; [|exact Hrs]. constructor.
  - intros [= <-] [= <-]. constructor.
Qed.

Lemma parseLine_items_from fuel line record rs :
  parseLine fuel line = Some (Some record) ->
  results record = Some rs ->
  Forall (fun r => items_from (fieldsOf line) (snd r)) rs.
Proof.
  unfold parseLine, parseResultRecord, parseAsyncRecord, parseStreamRecord,
         fieldsOf, afterToken.
  destruct (negb (truthy line) || _); [discriminate|].
  destruct (tokenMatch (trim line)) as [[ds tl]|];
    repeat match goal with
    | |- context [if startsWith ?p ?rest then _ else _] => destruct (startsWith p rest)
    end;
    try discriminate;
    try (match goal with
         | |- context [parseClassRecord fuel ?ty ?rest ?tok] =>
             destruct (parseClassRecord fuel ty rest tok) as [r|] eqn:Hr; [|discriminate];
             intros [= <-]; eapply parseClassRecord_items_from; exact Hr
         end);
    match goal with
    | |- context [streamMatch ?rest] =>
        destruct (streamMatch rest); intros [= <-]; discriminate
    end.
Qed.

(** The list loop only appends to the items it has collected. *)
Lemma listLoop_extends (str : string) (fuel : nat) :
  forall i acc out e,
    listLoop fuel str i acc = Some (out, e) ->
    exists rest, out = MIList (acc ++ rest).
Proof.
  induction fuel as [|fuel IH]; intros i acc out e; [discriminate|].
  simpl.
  assert (Hnow : exists rest, MIList acc = MIList (acc ++ rest)).
  { exists []. rewrite app_nil_r. reflexivity. }
  destruct ((i <? String.length str)%nat && negb (char_is str i "]"));
    [|intros [= <- _]; exact Hnow].
  destruct ((String.length str <=? skipSep str i)%nat || char_is str (skipSep str i) "]");
    [intros [= <- _]; exact Hnow|].
  destruct (varMatch _) as [[name n]|];
    (destruct (parseValue fuel str _) as [[val endIndex]|]; [|discriminate]);
    (destruct (endIndex =? skipSep str i)%nat;
     [ intros [= <- _]; eexists [_]; reflexivity
     | intros H; apply IH in H as [rest ->];
       eexists (_ :: rest); rewrite <- app_assoc; reflexivity ]).
Qed.

Lemma listLoop_named fuel str i i1 acc name n val e out e' :
  element_at str i i1 ->
  varMatch (drop i1 str) = Some (name, n) ->
  parseValue fuel str (i1 + n) = Some (val, e) ->
  listLoop (S fuel) str i acc = Some (out, e') ->
  exists rest, out = MIList (acc ++ MITuple [(name, val)] :: rest).
Proof.
  intros (Hin & -> & Helem) Hname Hval. simpl.
  rewrite Hin, Helem, Hname, Hval.
  destruct (e =? skipSep str i)%nat.
  - intros [= <- _]. exists []. reflexivity.
  - intros H. apply listLoop_extends in H as [rest ->].
    exists rest. rewrite <- app_assoc. reflexivity.
Qed.

Lemma listLoop_bare fuel str i i1 acc val e out e' :
  element_at str i i1 ->
  varMatch (drop i1 str) = None ->
  parseValue fuel str i1 = Some (val, e) ->
  listLoop (S fuel) str i acc = Some (out, e') ->
  exists rest, out = MIList (acc ++ val :: rest).
Proof.
  intros (Hin & -> & Helem) Hname Hval. simpl.
  rewrite Hin, Helem, Hname, Hval.
  destruct (e =? skipSep str i)%nat.
  - intros [= <- _]. exists []. reflexivity.
  - intros H. apply listLoop_extends in H as [rest ->].
    exists rest. rewrite <- app_assoc. reflexivity.
Qed.

(** C4. For every line the codec accepts, every list in the fields of the
    record has only items that the list loop produced from the text of the
    fields: the single-field tuple around a named element, or the value of
    a bare element as it was parsed. An element with a name is pushed as that tuple and a bare
    element as its value, after the items collected before it. The three
    shapes of an item are the three constructors of [MIValue]. *)
Theorem list_items_normalized :
  (forall fuel line record rs,
     parseLine fuel line = Some (Some record) ->
     results record = Some rs ->
     Forall (fun r => items_from (fieldsOf line) (snd r)) rs) /\
  (forall fuel str i i1 acc name n val e out e',
     element_at str i i1 ->
     varMatch (drop i1 str) = Some (name, n) ->
     parseValue fuel str (i1 + n) = Some (val, e) ->
     listLoop (S fuel) str i acc = Some (out, e') ->
     exists rest, out = MIList (acc ++ MITuple [(name, val)] :: rest)) /\
  (forall fuel str i i1 acc val e out e',
     element_at str i i1 ->
     varMatch (drop i1 str) = None ->
     parseValue fuel str i1 = Some (val, e) ->
     listLoop (S fuel) str i acc = Some (out, e') ->
     exists rest, out = MIList (acc ++ val :: rest)).
Proof.
  split; [|split].
  - apply parseLine_items_from.
  - apply listLoop_named.
  - apply listLoop_bare.
Qed.

Lemma list_items_normalized_witness :
  Forall (fun r => items_from (fieldsOf (lit "^done,stack=[frame={level='0'},'x']")) (snd r))
    [("stack", MIList [MITuple [("frame", MITuple [("level", MIString "0")])];
                       MIString "x"])] /\
  (exists rest,
     MIList [MITuple [("frame", MITuple [("level", MIString "0")])]; MIString "x"]
     = MIList ([] ++ MITuple [("frame", MITuple [("level", MIString "0")])] :: rest)) /\
  (exists rest,
     MIList [MIString "x"; MIString "y"] = MIList ([] ++ MIString "x" :: rest)).
Proof.
  split; [|split].
  - apply (proj1 list_items_normalized 20
             (lit "^done,stack=[frame={level='0'},'x']")
             (mkRecord TResult None (Some "done")
                (Some [("stack", MIList [MITuple [("frame", MITuple [("level", MIString "0")])];
                                         MIString "x"])]) None)).
    + vm_compute. reflexivity.
    + reflexivity.
  - apply (proj1 (proj2 list_items_normalized) 20
             (lit "[frame={level='0'},'x']") 1 1 [] "frame" 6
             (MITuple [("level", MIString "0")]) 18
             (MIList [MITuple [("frame", MITuple [("level", MIString "0")])]; MIString "x"])
             23).
    + vm_compute. auto.
    + vm_compute. reflexivity.
    + vm_compute. reflexivity.
    + vm_compute. reflexivity.
  - apply (proj2 (proj2 list_items_normalized) 20
             (lit "['x','y']") 1 1 [] (MIString "x") 4
             (MIList [MIString "x"; MIString "y"]) 9).
    + vm_compute. auto.
    + vm_compute. reflexivity.
    + vm_compute. reflexivity.
    + vm_compute. reflexivity.
Defined.

End CodecFacts.

(** ** The correlation engine *)

Module SessionFacts.
Import Js GDBMI Session.

Lemma class_is_error_not_settled (record : MIRecord) :
  class_is record "done" || class_is record "running" = true ->
  class_is record "error" = false.
Proof.
  unfold class_is. destruct (class record) as [k|]; [|reflexivity].
  destruct (String.eqb_spec k "done") as [->|_]; [reflexivity|].
  destruct (String.eqb_spec k "running") as [->|_]; [reflexivity|discriminate].
Qed.

(** A result record whose token is pending retires that entry: class
    [error] rejects, every other class resolves. *)
Lemma matching_record_retires (record : MIRecord) (st : Session) tok pending :
  rtype record = TResult ->
  token record = Some tok ->
  pendingCommands st !! tok = Some pending ->
  handleMIRecord record st =
    (with_pendingCommands (delete tok (pendingCommands st)) st,
     [if class_is record "error"
      then FxReject (promiseOf pending)
             (or_default (getStringValue (findResult (results record) "msg"))
                         "GDB command failed")
      else FxResolve (promiseOf pending) record]).
Proof.
  intros Hty Htok Hpending. unfold handleMIRecord.
  rewrite Hty, Htok, Hpending.
  destruct (class_is record "done" || class_is record "running") eqn:Hok.
  - rewrite (class_is_error_not_settled _ Hok). reflexivity.
  - destruct (class_is record "error"); reflexivity.
Qed.

(** A record of another kind, or for a token that is not pending, leaves
    every entry of the table alone, and a record for another token leaves
    the entry of [tok] alone. *)
Lemma handleMIRecord_other (record : MIRecord) (st : Session) (tok : Z) :
  ~ (rtype record = TResult /\ token record = Some tok) ->
  pendingCommands (fst (handleMIRecord record st)) !! tok = pendingCommands st !! tok.
Proof.
  intros Hother. unfold handleMIRecord.
  destruct (rtype record) eqn:Hty; simpl;
    try reflexivity;
    try (repeat match goal with
                | |- context [if ?b then _ else _] => destruct b
                | |- context [match ?o with Some _ => _ | None => _ end] => destruct o
                end; reflexivity).
  destruct (token record) as [t|] eqn:Htok; [|reflexivity].
  destruct (pendingCommands st !! t) as [c|] eqn:Hc; [|reflexivity].
  assert (t <> tok) by (intros ->; apply Hother; split; reflexivity).
  break_ifs; simpl; apply lookup_delete_ne; assumption.
Qed.

Lemma settle_count_app p (fx1 fx2 : list Effect) :
  settle_count p (fx1 ++ fx2) = (settle_count p fx1 + settle_count p fx2)%nat.
Proof. unfold settle_count. rewrite filter_app, length_app. reflexivity. Qed.

Lemma settle_count_one p (e : Effect) :
  settle_count p [e] = if decide (settles e = Some p) then 1%nat else 0%nat.
Proof.
  unfold settle_count. rewrite filter_cons, filter_nil.
  destruct (decide (settles e = Some p)); reflexivity.
Qed.

(** What one step does to the promise [p]: it keeps the invariant, and it
    either does not settle [p], or it settles [p] once, and then [p] was
    pending before the step and is not after it. *)
Lemma step_settles (ev : Event) (st st1 : Session) (fx : list Effect) (p : Z) :
  pending_ok st ->
  step ev st = (st1, fx) ->
  pending_ok st1 /\
  (tokenCounter st <= tokenCounter st1)%Z /\
  ((settle_count p fx = 0%nat /\
    (pendingCommands st !! p = None -> (p < tokenCounter st)%Z ->
     pendingCommands st1 !! p = None)) \/
   (settle_count p fx = 1%nat /\
    is_Some (pendingCommands st !! p) /\
    pendingCommands st1 !! p = None)).
Proof.
  intros Hok.
  assert (Hidle : forall fx', Forall (fun e => settles e = None) fx' ->
            (st, fx') = (st1, fx) ->
            pending_ok st1 /\
            (tokenCounter st <= tokenCounter st1)%Z /\
            ((settle_count p fx = 0%nat /\
              (pendingCommands st !! p = None -> (p < tokenCounter st)%Z ->
               pendingCommands st1 !! p = None)) \/
             (settle_count p fx = 1%nat /\
              is_Some (pendingCommands st !! p) /\
              pendingCommands st1 !! p = None))).
  { intros fx' Hfx [= <- <-]. split; [exact Hok|]. split; [lia|]. left.
    split; [|auto]. unfold settle_count.
    induction Hfx as [|e fx' He _ IH]; [reflexivity|].
    rewrite filter_cons. destruct (decide (settles e = Some p)); [congruence|exact IH]. }
  assert (Hretire : forall tok c e,
            pendingCommands st !! tok = Some c -> settles e = Some tok ->
            (with_pendingCommands (delete tok (pendingCommands st)) st, [e]) = (st1, fx) ->
            pending_ok st1 /\
            (tokenCounter st <= tokenCounter st1)%Z /\
            ((settle_count p fx = 0%nat /\
              (pendingCommands st !! p = None -> (p < tokenCounter st)%Z ->
               pendingCommands st1 !! p = None)) \/
             (settle_count p fx = 1%nat /\
              is_Some (pendingCommands st !! p) /\
              pendingCommands st1 !! p = None))).
  { intros tok c e Hc He [= <- <-]. split; [|split; [simpl; lia|]].
    - intros t' c'. simpl. rewrite lookup_delete.
      destruct (decide (tok = t')); [discriminate|]. apply Hok.
    - rewrite settle_count_one, He. simpl.
      destruct (decide (Some tok = Some p)) as [[= ->]|Hne].
      + right. split; [reflexivity|]. split; [eauto|apply lookup_delete_eq].
      + left. split; [reflexivity|]. intros Hnone _.
        rewrite lookup_delete_ne by congruence. exact Hnone. }
  destruct ev as [command|record|tok command]; simpl.
  - unfold sendGDBCommand, getNextToken.
    destruct (gdbChannel st); simpl; [|apply Hidle; constructor].
    intros [= <- <-].
    split; [|split; [simpl; lia|]].
    + intros t c. simpl. rewrite lookup_insert.
      destruct (decide (tokenCounter st = t)) as [<-|Hne].
      * intros [= <-]. simpl. split; [reflexivity|lia].
      * intros Hc. destruct (Hok t c Hc). split; [assumption|lia].
    + left. split; [reflexivity|].
      intros Hnone Hlt. simpl. rewrite lookup_insert_ne by lia. exact Hnone.
  - unfold handleMIRecord. destruct (rtype record) eqn:Hty.
    + destruct (token record) as [t|] eqn:Htok; [|apply Hidle; constructor].
      destruct (pendingCommands st !! t) as [c|] eqn:Hc; [|apply Hidle; constructor].
      destruct (Hok t c Hc) as [Hp _].
      break_ifs; apply (Hretire t c); simpl; congruence.
    + destruct (class_is record "stopped").
      * intros [= <- <-]. split; [exact Hok|]. split; [simpl; lia|]. left.
        split; [|auto]. unfold handleStopped.
        destruct (_ || _); reflexivity.
      * destruct (class_is record "running");
          [|apply Hidle; constructor].
        intros [= <- <-]. split; [exact Hok|]. split; [simpl; lia|]. left.
        split; [reflexivity|auto].
    + apply Hidle; constructor.
    + apply Hidle; constructor.
    + destruct (output record) as [o|]; [destruct (truthy o)|];
        apply Hidle; repeat constructor.
    + destruct (output record) as [o|]; [destruct (truthy o)|];
        apply Hidle; repeat constructor.
    + apply Hidle; constructor.
  - unfold commandTimeout.
    destruct (pendingCommands st !! tok) as [c|] eqn:Hc; [|apply Hidle; constructor].
    apply (Hretire tok c); [exact Hc|reflexivity].
Qed.

(** A promise whose token was handed out and is no longer pending is
    never settled again. *)
Lemma retired_stays_retired (evs : list Event) :
  forall st p,
    pending_ok st -> pendingCommands st !! p = None -> (p < tokenCounter st)%Z ->
    settle_count p (snd (run evs st)) = 0%nat.
Proof.
  induction evs as [|ev evs IH]; intros st p Hok Hnone Hlt; [reflexivity|].
  simpl. destruct (step ev st) as [st1 fx1] eqn:Hstep.
  destruct (step_settles ev st st1 fx1 p Hok Hstep) as (Hok1 & Hmono & Hcase).
  specialize (IH st1 p Hok1).
  destruct (run evs st1) as [st2 fx2]. simpl in *.
  rewrite settle_count_app.
  destruct Hcase as [(H0 & Hkeep)|(_ & [c Hc] & _)]; [|congruence].
  rewrite H0, IH; [reflexivity| |lia]. apply Hkeep; assumption.
Qed.

Lemma settled_at_most_once (evs : list Event) :
  forall st p, pending_ok st -> (settle_count p (snd (run evs st)) <= 1)%nat.
Proof.
  induction evs as [|ev evs IH]; intros st p Hok; [unfold settle_count; simpl; lia|].
  simpl. destruct (step ev st) as [st1 fx1] eqn:Hstep.
  destruct (step_settles ev st st1 fx1 p Hok Hstep) as (Hok1 & Hmono & Hcase).
  pose proof (IH st1 p Hok1) as IH1.
  pose proof (retired_stays_retired evs st1 p Hok1) as Hafter.
  destruct (run evs st1) as [st2 fx2]. simpl in *.
  rewrite settle_count_app.
  destruct Hcase as [(H0 & _)|(H1 & [c Hc] & Hgone)]; [lia|].
  rewrite H1, Hafter; [lia|exact Hgone|].
  destruct (Hok p c Hc). lia.
Qed.


Lemma initial_pending_ok : pending_ok initial.
Proof. intros tok c. simpl. rewrite lookup_empty. discriminate. Qed.

Lemma started_pending_ok : pending_ok Samples.started.
Proof. intros tok c. simpl. rewrite lookup_empty. discriminate. Qed.

(** The invariant holds along every run from a state that has it. *)
Lemma run_pending_ok (evs : list Event) :
  forall st, pending_ok st -> pending_ok (fst (run evs st)).
Proof.
  induction evs as [|ev evs IH]; intros st Hok; [exact Hok|].
  simpl. destruct (step ev st) as [st1 fx1] eqn:Hstep.
  destruct (step_settles ev st st1 fx1 0 Hok Hstep) as (Hok1 & _).
  specialize (IH st1 Hok1). destruct (run evs st1). exact IH.
Qed.

(** Events that leave [tok] alone neither settle its promise nor touch
    its entry. *)
Lemma step_leaves_alone (ev : Event) (st : Session) (tok : Z) (c : Completion) :
  pending_ok st ->
  pendingCommands st !! tok = Some c ->
  leaves_alone tok ev ->
  pendingCommands (fst (step ev st)) !! tok = Some c.
Proof.
  intros Hok Hc Hquiet. destruct ev as [command|record|t command]; simpl.
  - unfold sendGDBCommand, getNextToken.
    destruct (gdbChannel st); simpl; [|exact Hc].
    destruct (Hok tok c Hc) as [_ Hlt].
    rewrite lookup_insert_ne by lia. exact Hc.
  - rewrite handleMIRecord_other by exact Hquiet. exact Hc.
  - unfold commandTimeout. simpl in Hquiet.
    destruct (pendingCommands st !! t); simpl; [|exact Hc].
    rewrite lookup_delete_ne by exact Hquiet. exact Hc.
Qed.

Lemma silence_keeps_pending (evs : list Event) :
  forall st tok c,
    pending_ok st ->
    pendingCommands st !! tok = Some c ->
    Forall (leaves_alone tok) evs ->
    settle_count tok (snd (run evs st)) = 0%nat /\
    pendingCommands (fst (run evs st)) !! tok = Some c.
Proof.
  induction evs as [|ev evs IH]; intros st tok c Hok Hc Hevs;
    [split; [reflexivity|exact Hc]|].
  inversion Hevs as [|? ? Hev Hevs']; subst.
  pose proof (step_leaves_alone ev st tok c Hok Hc Hev) as Hc1.
  simpl. destruct (step ev st) as [st1 fx1] eqn:Hstep.
  destruct (step_settles ev st st1 fx1 tok Hok Hstep) as (Hok1 & _ & Hcase).
  simpl in Hc1.
  destruct (IH st1 tok c Hok1 Hc1 Hevs') as [Hcount Hkeep].
  destruct (run evs st1) as [st2 fx2]. simpl in *.
  rewrite settle_count_app.
  destruct Hcase as [(H0 & _)|(_ & _ & Hgone)]; [|congruence].
  rewrite H0, Hcount. split; [reflexivity|exact Hkeep].
Qed.

Lemma sendGDBCommand_registers st command tok st1 fx :
  sendGDBCommand command st = Some (tok, st1, fx) ->
  In (FxSetTimer 5000 tok command) fx /\
  pendingCommands st1 !! tok = Some (mkCompletion tok) /\
  (pending_ok st -> pending_ok st1).
Proof.
  intros Hsend. split; [|split].
  - revert Hsend. unfold sendGDBCommand, getNextToken.
    destruct (gdbChannel st); [|discriminate]. simpl.
    intros [= <- <- <-]. left. reflexivity.
  - revert Hsend. unfold sendGDBCommand, getNextToken.
    destruct (gdbChannel st); [|discriminate]. simpl.
    intros [= <- <- <-]. simpl.
    apply lookup_insert_eq.
  - intros Hok.
    assert (Hstep : step (EvSend command) st = (st1, fx)).
    { simpl. rewrite Hsend. reflexivity. }
    apply (step_settles _ _ _ _ 0 Hok Hstep).
Qed.

(** C1. A result record whose token is pending retires that command, and
    removes its entry: class [error] rejects it with the [msg] string of
    the record, or with a generic message when [msg] is missing, empty or
    not a string; every other class, [done] and [running] among them,
    resolves it with the record. A command starts a timer of 5000 ms;
    through every sequence of events without a result record of its token
    and without its timer the command stays pending and unsettled, and the
    timer then rejects it with a timeout message and removes its entry.
    In every run of the engine no command is settled more than once. *)
Theorem command_retired_once :
  (forall record st tok pending,
     rtype record = TResult ->
     token record = Some tok ->
     pendingCommands st !! tok = Some pending ->
     handleMIRecord record st =
       (with_pendingCommands (delete tok (pendingCommands st)) st,
        [if class_is record "error"
         then FxReject (promiseOf pending)
                (or_default (getStringValue (findResult (results record) "msg"))
                            "GDB command failed")
         else FxResolve (promiseOf pending) record])) /\
  (forall st command tok st1 fx evs,
     pending_ok st ->
     sendGDBCommand command st = Some (tok, st1, fx) ->
     Forall (leaves_alone tok) evs ->
     In (FxSetTimer 5000 tok command) fx /\
     settle_count tok (snd (run evs st1)) = 0%nat /\
     commandTimeout tok command (fst (run evs st1)) =
       (with_pendingCommands
          (delete tok (pendingCommands (fst (run evs st1))))
          (fst (run evs st1)),
        [FxReject tok ("Command timeout: " +:+ command)])) /\
  (forall evs st p,
     pending_ok st -> (settle_count p (snd (run evs st)) <= 1)%nat).
Proof.
  split; [|split].
  - apply matching_record_retires.
  - intros st command tok st1 fx evs Hok Hsend Hevs.
    destruct (sendGDBCommand_registers _ _ _ _ _ Hsend) as (Htimer & Hc & Hok1).
    destruct (silence_keeps_pending evs st1 tok _ (Hok1 Hok) Hc Hevs) as [Hcount Hkeep].
    split; [exact Htimer|]. split; [exact Hcount|].
    unfold commandTimeout. rewrite Hkeep. reflexivity.
  - intros evs st p Hok. apply settled_at_most_once. exact Hok.
Qed.

Lemma command_retired_once_witness :
  handleMIRecord Samples.error_record Samples.waiting =
    (with_pendingCommands (delete 1000%Z (pendingCommands Samples.waiting)) Samples.waiting,
     [FxReject 1000 "No symbol table"]) /\
  (In (FxSetTimer 5000 1000 "exec-run")
      (snd (default (0%Z, Samples.started, []) (sendGDBCommand "exec-run" Samples.started))) /\
   settle_count 1000
     (snd (run [EvRecord Samples.console_record; EvSend "exec-next"; EvTimerFired 1001 "exec-next"]
               Samples.waiting)) = 0%nat) /\
  (settle_count 1000
     (snd (run [EvSend "exec-run"; EvRecord Samples.error_record;
                EvTimerFired 1000 "exec-run"; EvRecord Samples.error_record]
               Samples.started)) <= 1)%nat.
Proof.
  split; [|split].
  - apply (proj1 command_retired_once Samples.error_record Samples.waiting 1000%Z
             (mkCompletion 1000)); reflexivity.
  - destruct (proj1 (proj2 command_retired_once) Samples.started "exec-run" 1000%Z
                Samples.waiting
                [FxSetTimer 5000 1000 "exec-run";
                 FxChannelWrite ("1000-exec-run" +:+ String newline EmptyString)]
                [EvRecord Samples.console_record; EvSend "exec-next";
                 EvTimerFired 1001 "exec-next"]) as (Htimer & Hcount & _).
    + exact started_pending_ok.
    + reflexivity.
    + repeat constructor; [intros [H _]; discriminate H|discriminate].
    + split; [exact Htimer|exact Hcount].
  - apply (proj2 (proj2 command_retired_once)). exact started_pending_ok.
Defined.

(** A record of class [exit], as the debugger answers to [gdb-exit], is
    resolved although its class is neither [done] nor [running], and an
    [error] record whose [msg] is the empty string is rejected with the
    generic message, not with the string of the field. *)
Lemma exit_and_empty_msg_not_as_stated :
  (parseLine 20 "1000^exit" = Some (Some Samples.exit_record) /\
   ~ Spec.retired_as_stated Samples.exit_record (mkCompletion 1000)
       (snd (handleMIRecord Samples.exit_record Samples.waiting))) /\
  (parseLine 20 (lit "1000^error,msg=''") = Some (Some Samples.empty_msg_record) /\
   ~ Spec.retired_as_stated Samples.empty_msg_record (mkCompletion 1000)
       (snd (handleMIRecord Samples.empty_msg_record Samples.waiting))).
Proof.
  split; (split; [vm_compute; reflexivity|]).
  - intros [[[H|H] _]|[H _]]; discriminate H.
  - intros [[[H|H] _]|[_ H]]; [discriminate H|discriminate H|].
    vm_compute in H. discriminate H.
Qed.

(** C2. A record that is not a result record, a result record without a
    token, and a result record whose token is not pending leave the table
    of pending commands as it is and settle no promise. *)
Theorem unmatched_record_keeps_pending (record : MIRecord) (st : Session) :
  rtype record <> TResult \/
  token record = None \/
  (exists tok, token record = Some tok /\ pendingCommands st !! tok = None) ->
  pendingCommands (fst (handleMIRecord record st)) = pendingCommands st /\
  Forall (fun e => settles e = None) (snd (handleMIRecord record st)).
Proof.
  intros H. unfold handleMIRecord.
  destruct (rtype record) eqn:Hty.
  - destruct H as [H|[H|(tok & Htok & Hnone)]]; [congruence| |].
    + rewrite H. split; [reflexivity|constructor].
    + rewrite Htok, Hnone. split; [reflexivity|constructor].
  - destruct (class_is record "stopped").
    + split; [reflexivity|]. unfold handleStopped.
      destruct (_ || _); repeat constructor.
    + destruct (class_is record "running"); split; (reflexivity || constructor).
  - split; [reflexivity|constructor].
  - split; [reflexivity|constructor].
  - destruct (output record) as [o|]; [destruct (truthy o)|];
      (split; [reflexivity|repeat constructor]).
  - destruct (output record) as [o|]; [destruct (truthy o)|];
      (split; [reflexivity|repeat constructor]).
  - split; [reflexivity|constructor].
Qed.

Lemma unmatched_record_keeps_pending_witness :
  pendingCommands (fst (handleMIRecord Samples.console_record Samples.waiting))
    = pendingCommands Samples.waiting /\
  Forall (fun e => settles e = None)
         (snd (handleMIRecord Samples.console_record Samples.waiting)).
Proof.
  apply (unmatched_record_keeps_pending Samples.console_record Samples.waiting).
  left. discriminate.
Defined.

(** The stop reasons that [handleStopped] maps as the table says. *)
Lemma handleStopped_mapping (event : GDBStoppedEvent) (st : Session) :
  (reason event = "exited-normally" \/ reason event = "exited" ->
   handleStopped event st = [FxSendEvent TerminatedEvent]) /\
  (reason event = "breakpoint-hit" ->
   handleStopped event st = [FxSendEvent (StoppedEvent SBreakpoint (currentThreadId st))]) /\
  (reason event = "end-stepping-range" ->
   handleStopped event st = [FxSendEvent (StoppedEvent SStep (currentThreadId st))]) /\
  (reason event = "signal-received" ->
   handleStopped event st = [FxSendEvent (StoppedEvent SException (currentThreadId st))]).
Proof.
  unfold handleStopped.
  repeat split; intros H; [destruct H as [H|H]|..]; rewrite H; reflexivity.
Qed.

(** C6. The stop record with the reason [exited-signalled] is reported as
    a stop of kind pause, not as the end of the session: [handleStopped]
    compares the reason with [exited-normally] and [exited] only. *)
Theorem exited_signalled_reported_as_pause (st : Session) :
  parseLine 20 (lit "*stopped,reason='exited-signalled',signal-name='SIGSEGV'")
    = Some (Some Samples.signalled_record) /\
  handleMIRecord Samples.signalled_record st =
    (with_isRunning false st, [FxSendEvent (StoppedEvent SPause (currentThreadId st))]).
Proof. split; [vm_compute; reflexivity|reflexivity]. Qed.

(** C10. A stop record without a [reason] field gets the reason
    [signal-received] from [parseStoppedEvent], and is reported to the
    editor as a stop of kind exception. *)
Theorem reasonless_stop_is_exception (rs : list MIResult) (tok : option Z)
                                     (st : Session) :
  findResult (Some rs) "reason" = None ->
  reason (parseStoppedEvent rs) = "signal-received" /\
  handleMIRecord (mkRecord TExec tok (Some "stopped") (Some rs) None) st =
    (with_isRunning false st,
     [FxSendEvent (StoppedEvent SException (currentThreadId st))]).
Proof.
  intros Hnone.
  assert (Hreason : reason (parseStoppedEvent rs) = "signal-received").
  { unfold parseStoppedEvent. simpl. simpl in Hnone. rewrite Hnone. reflexivity. }
  split; [exact Hreason|].
  unfold handleMIRecord. simpl.
  unfold handleStopped. rewrite Hreason. reflexivity.
Qed.

Lemma reasonless_stop_is_exception_witness :
  reason (parseStoppedEvent [("thread-id", MIString "1")]) = "signal-received" /\
  handleMIRecord
    (mkRecord TExec None (Some "stopped") (Some [("thread-id", MIString "1")]) None)
    Samples.started =
    (with_isRunning false Samples.started,
     [FxSendEvent (StoppedEvent SException 1)]).
Proof.
  apply (reasonless_stop_is_exception [("thread-id", MIString "1")] None Samples.started).
  reflexivity.
Defined.

End SessionFacts.

(** ** Reconnection *)

Module SSHManagerFacts.
Import SSHManager.

Lemma updateSessionState_attempts key st m :
  reconnectAttempts (updateSessionState key st m) = reconnectAttempts m.
Proof. unfold updateSessionState. destruct (sessions m !! key); reflexivity. Qed.

(** A close below the limit starts one delay of 2000 ms and counts it. *)
Lemma handleDisconnect_below key d m s :
  sessions m !! key = Some s ->
  (default 0 (reconnectAttempts m !! key) < 3)%Z ->
  exists m',
    handleDisconnect key d m =
      (m', [FxEmit "disconnected" (host d); FxDelay 2000 d]) /\
    reconnectAttempts m' !! key = Some (default 0 (reconnectAttempts m !! key) + 1)%Z /\
    (forall k, k <> key -> reconnectAttempts m' !! k = reconnectAttempts m !! k).
Proof.
  intros Hs Hlt. unfold handleDisconnect. rewrite Hs.
  rewrite updateSessionState_attempts.
  apply Z.ltb_lt in Hlt. unfold maxReconnectAttempts. rewrite Hlt.
  unfold attemptReconnect. eexists. split; [reflexivity|].
  simpl. rewrite !updateSessionState_attempts. split.
  - apply lookup_insert_eq.
  - intros k Hk. apply lookup_insert_ne. congruence.
Qed.

(** A close at the limit reports the failure and starts nothing. *)
Lemma handleDisconnect_at_limit key d m s :
  sessions m !! key = Some s ->
  (3 <= default 0 (reconnectAttempts m !! key))%Z ->
  handleDisconnect key d m =
    (updateSessionState key Disconnected m,
     [FxEmit "disconnected" (host d); FxEmit "reconnectFailed" (host d)]).
Proof.
  intros Hs Hge. unfold handleDisconnect. rewrite Hs.
  rewrite updateSessionState_attempts.
  apply Z.ltb_ge in Hge. unfold maxReconnectAttempts. rewrite Hge. reflexivity.
Qed.

Lemma remove_first_subset d (l : list SSHConnectionDetails) x :
  x ∈ remove_first d l -> x ∈ l.
Proof.
  induction l as [|y l IH]; simpl; [trivial|].
  destruct (decide (y = d)).
  - intros H. right. exact H.
  - intros H. apply elem_of_cons in H as [->|H]; [left|right; apply IH; exact H].
Qed.

End SSHManagerFacts.

(** ** Path mapping *)

Module PathMapperFacts.
Import Js PathMapper.

Lemma append_cons (x : ascii) (a b : string) :
  String x a +:+ b = String x (a +:+ b).
Proof. reflexivity. Qed.

Lemma append_assoc (a b c : string) : (a +:+ b) +:+ c = a +:+ b +:+ c.
Proof.
  induction a as [|x a IH]; [reflexivity|].
  rewrite !append_cons, IH. reflexivity.
Qed.

Lemma startsWith_spec (p s : string) :
  startsWith p s = true <-> exists rest, s = p +:+ rest.
Proof.
  revert s. induction p as [|a p IH]; intros s; simpl.
  - split; [intros _; exists s; reflexivity|trivial].
  - destruct s as [|b s].
    + split; [discriminate|intros [rest H]; discriminate H].
    + rewrite andb_true_iff, IH. split.
      * intros [Hab [rest ->]]. apply Ascii.eqb_eq in Hab as ->. exists rest. reflexivity.
      * intros [rest H]. rewrite append_cons in H. injection H as -> ->.
        split; [apply Ascii.eqb_refl|exists rest; reflexivity].
Qed.

Lemma drop_append (p rest : string) : drop (String.length p) (p +:+ rest) = rest.
Proof.
  induction p as [|a p IH]; [destruct rest; reflexivity|].
  rewrite append_cons. simpl. exact IH.
Qed.

Lemma length_append (a b : string) :
  String.length (a +:+ b) = (String.length a + String.length b)%nat.
Proof.
  induction a as [|x a IH]; [reflexivity|].
  rewrite append_cons. simpl. rewrite IH. reflexivity.
Qed.

(** The two tests of the loop decide whether the prefix matches. *)
Lemma tests_spec (prefix normalized : string) :
  String.eqb normalized prefix = false ->
  startsWith (prefix +:+ "/") normalized = false ->
  ~ Spec.prefix_matches prefix normalized.
Proof.
  intros Heq Hstart [->|[rel ->]].
  - rewrite String.eqb_refl in Heq. discriminate.
  - assert (H : startsWith (prefix +:+ "/") (prefix +:+ "/" +:+ rel) = true).
    { apply startsWith_spec. exists rel. symmetry. apply append_assoc. }
    congruence.
Qed.

Lemma relative_path (prefix rel : string) :
  drop (String.length prefix + 1) (prefix +:+ "/" +:+ rel) = rel.
Proof.
  rewrite <- append_assoc.
  replace (String.length prefix + 1)%nat with (String.length (prefix +:+ "/"))
    by (rewrite length_append; reflexivity).
  apply drop_append.
Qed.

Lemma toRemoteLoop_no_match (entries : list (string * string)) normalized localPath :
  (forall l r, In (l, r) entries -> ~ Spec.prefix_matches l normalized) ->
  toRemoteLoop entries normalized localPath = localPath.
Proof.
  induction entries as [|[l r] entries IH]; intros Hno; simpl; [reflexivity|].
  destruct (String.eqb_spec normalized l) as [->|Hne].
  { exfalso. apply (Hno l r); [left; reflexivity|left; reflexivity]. }
  destruct (startsWith (l +:+ "/") normalized) eqn:Hstart.
  { exfalso. apply startsWith_spec in Hstart as [rel ->].
    apply (Hno l r); [left; reflexivity|]. right. exists rel. apply append_assoc. }
  apply IH. intros l' r' Hin. apply (Hno l' r'). right. exact Hin.
Qed.

Lemma toRemoteLoop_first (before after : list (string * string)) l r normalized localPath :
  (forall l' r', In (l', r') before -> ~ Spec.prefix_matches l' normalized) ->
  Spec.prefix_matches l normalized ->
  Spec.substituted l r normalized
    (toRemoteLoop (before ++ (l, r) :: after) normalized localPath).
Proof.
  induction before as [|[l0 r0] before IH]; intros Hno Hmatch; simpl.
  - destruct (String.eqb_spec normalized l) as [->|Hne].
    { left. split; reflexivity. }
    destruct Hmatch as [->|[rel ->]]; [congruence|].
    assert (Hstart : startsWith (l +:+ "/") (l +:+ "/" +:+ rel) = true).
    { apply startsWith_spec. exists rel. symmetry. apply append_assoc. }
    rewrite Hstart, relative_path. right. exists rel. split; reflexivity.
  - assert (H0 : ~ Spec.prefix_matches l0 normalized)
      by (apply (Hno l0 r0); left; reflexivity).
    destruct (String.eqb_spec normalized l0) as [->|Hne].
    { exfalso. apply H0. left. reflexivity. }
    destruct (startsWith (l0 +:+ "/") normalized) eqn:Hstart.
    { exfalso. apply H0. apply startsWith_spec in Hstart as [rel ->].
      right. exists rel. apply append_assoc. }
    apply IH; [|exact Hmatch].
    intros l' r' Hin. apply (Hno l' r'). right. exact Hin.
Qed.

Section Platform.
Variable path_join : string -> string -> string.

Lemma toLocalLoop_no_match (entries : list (string * string)) normalized remotePath :
  (forall r l, In (r, l) entries -> ~ Spec.prefix_matches r normalized) ->
  toLocalLoop path_join entries normalized remotePath = remotePath.
Proof.
  induction entries as [|[r l] entries IH]; intros Hno; simpl; [reflexivity|].
  destruct (String.eqb_spec normalized r) as [->|Hne].
  { exfalso. apply (Hno r l); [left; reflexivity|left; reflexivity]. }
  destruct (startsWith (r +:+ "/") normalized) eqn:Hstart.
  { exfalso. apply startsWith_spec in Hstart as [rel ->].
    apply (Hno r l); [left; reflexivity|]. right. exists rel. apply append_assoc. }
  apply IH. intros r' l' Hin. apply (Hno r' l'). right. exact Hin.
Qed.

Lemma toLocalLoop_first (before after : list (string * string)) r l normalized remotePath :
  (forall r' l', In (r', l') before -> ~ Spec.prefix_matches r' normalized) ->
  Spec.prefix_matches r normalized ->
  (normalized = r /\
   toLocalLoop path_join (before ++ (r, l) :: after) normalized remotePath = l) \/
  (exists rel, normalized = r +:+ "/" +:+ rel /\
     toLocalLoop path_join (before ++ (r, l) :: after) normalized remotePath
       = path_join l rel).
Proof.
  induction before as [|[r0 l0] before IH]; intros Hno Hmatch; simpl.
  - destruct (String.eqb_spec normalized r) as [->|Hne].
    { left. split; reflexivity. }
    destruct Hmatch as [->|[rel ->]]; [congruence|].
    assert (Hstart : startsWith (r +:+ "/") (r +:+ "/" +:+ rel) = true).
    { apply startsWith_spec. exists rel. symmetry. apply append_assoc. }
    rewrite Hstart, relative_path. right. exists rel. split; reflexivity.
  - assert (H0 : ~ Spec.prefix_matches r0 normalized)
      by (apply (Hno r0 l0); left; reflexivity).
    destruct (String.eqb_spec normalized r0) as [->|Hne].
    { exfalso. apply H0. left. reflexivity. }
    destruct (startsWith (r0 +:+ "/") normalized) eqn:Hstart.
    { exfalso. apply H0. apply startsWith_spec in Hstart as [rel ->].
      right. exists rel. apply append_assoc. }
    apply IH; [|exact Hmatch].
    intros r' l' Hin. apply (Hno r' l'). right. exact Hin.
Qed.

End Platform.

(** C9. Both lookups go through their table in insertion order and use
    the first entry whose prefix the normalized path equals or extends
    after a slash, not the longest one. [toRemotePath] returns the
    counterpart of that entry, followed by a slash and the rest of the path
    when there is a rest; [toLocalPath] returns the counterpart, or
    [path.join] of the counterpart and the rest. A path that no entry
    matches is returned as it was given. The statement is about the paths
    for which the first entry that matches is one the path equals, or no
    later entry is one the path equals: it says nothing of a path that
    extends an earlier entry and equals a later one. *)
Theorem first_match_lookup :
  (forall pm p,
     (forall l r, In (l, r) (localToRemote pm) ->
                  ~ Spec.prefix_matches l (normalizePath p)) ->
     toRemotePath pm p = p) /\
  (forall pm p before l r after,
     localToRemote pm = before ++ (l, r) :: after ->
     (forall l' r', In (l', r') before -> ~ Spec.prefix_matches l' (normalizePath p)) ->
     Spec.prefix_matches l (normalizePath p) ->
     (normalizePath p = l \/
      forall l' r', In (l', r') after -> normalizePath p <> l') ->
     Spec.substituted l r (normalizePath p) (toRemotePath pm p)) /\
  (forall path_join pm p,
     (forall r l, In (r, l) (remoteToLocal pm) ->
                  ~ Spec.prefix_matches r (normalizePath p)) ->
     toLocalPath path_join pm p = p) /\
  (forall path_join pm p before r l after,
     remoteToLocal pm = before ++ (r, l) :: after ->
     (forall r' l', In (r', l') before -> ~ Spec.prefix_matches r' (normalizePath p)) ->
     Spec.prefix_matches r (normalizePath p) ->
     (normalizePath p = r \/
      forall r' l', In (r', l') after -> normalizePath p <> r') ->
     (normalizePath p = r /\ toLocalPath path_join pm p = l) \/
     (exists rel, normalizePath p = r +:+ "/" +:+ rel /\
                  toLocalPath path_join pm p = path_join l rel)).
Proof.
  split; [|split; [|split]].
  - intros pm p Hno. apply toRemoteLoop_no_match. exact Hno.
  - intros pm p before l r after Htable Hno Hmatch _.
    unfold toRemotePath. rewrite Htable. apply toRemoteLoop_first; assumption.
  - intros path_join pm p Hno. apply toLocalLoop_no_match. exact Hno.
  - intros path_join pm p before r l after Htable Hno Hmatch _.
    unfold toLocalPath. rewrite Htable. apply toLocalLoop_first; assumption.
Qed.

Lemma first_match_lookup_witness :
  toRemotePath Samples.nested "/b/c" = "/b/c" /\
  Spec.substituted "/a" "/x" "/a/b/c" (toRemotePath Samples.nested "/a/b/c/") /\
  Spec.substituted "/a" "/x" "/a" (toRemotePath Samples.nested "/a/") /\
  toLocalPath (fun a b => a +:+ "/" +:+ b) Samples.nested "/z" = "/z" /\
  ((normalizePath "/x/k" = "/x" /\
    toLocalPath (fun a b => a +:+ "/" +:+ b) Samples.nested "/x/k" = "/a") \/
   (exists rel, normalizePath "/x/k" = "/x" +:+ "/" +:+ rel /\
      toLocalPath (fun a b => a +:+ "/" +:+ b) Samples.nested "/x/k"
        = "/a" +:+ "/" +:+ rel)).
Proof.
  assert (Hno : forall prefix normalized,
            String.eqb normalized prefix = false ->
            startsWith (prefix +:+ "/") normalized = false ->
            ~ Spec.prefix_matches prefix normalized) by apply tests_spec.
  split; [|split; [|split; [|split]]].
  - apply (proj1 first_match_lookup Samples.nested "/b/c").
    intros l r [[= <- <-]|[[= <- <-]|[]]]; apply Hno; reflexivity.
  - apply (proj1 (proj2 first_match_lookup) Samples.nested "/a/b/c/"
             [] "/a" "/x" [("/a/b", "/y")]).
    + reflexivity.
    + intros l' r' [].
    + right. exists "b/c". reflexivity.
    + right. intros l' r' [[= <- <-]|[]]. discriminate.
  - apply (proj1 (proj2 first_match_lookup) Samples.nested "/a/"
             [] "/a" "/x" [("/a/b", "/y")]).
    + reflexivity.
    + intros l' r' [].
    + left. reflexivity.
    + left. reflexivity.
  - apply (proj1 (proj2 (proj2 first_match_lookup)) (fun a b => a +:+ "/" +:+ b)
             Samples.nested "/z").
    intros r l [[= <- <-]|[[= <- <-]|[]]]; apply Hno; reflexivity.
  - apply (proj2 (proj2 (proj2 first_match_lookup)) (fun a b => a +:+ "/" +:+ b)
             Samples.nested "/x/k" [] "/x" "/a" [("/y", "/a/b")]).
    + reflexivity.
    + intros r' l' [].
    + right. exists "k". reflexivity.
    + right. intros r' l' [[= <- <-]|[]]. discriminate.
Defined.

(** With the mappings of [/a] and of [/a/b] in this order, the path
    [/a/b/c] is mapped through [/a], though [/a/b] matches and is longer. *)
Lemma first_match_is_not_longest :
  toRemotePath Samples.nested "/a/b/c" = "/x/b/c" /\
  ~ Spec.longest_prefix_lookup (localToRemote Samples.nested)
      (normalizePath "/a/b/c") (toRemotePath Samples.nested "/a/b/c").
Proof.
  split; [reflexivity|].
  intros (prefix & counterpart & Hin & Hsub & Hmax).
  destruct Hin as [[= <- <-]|[[= <- <-]|[]]].
  - specialize (Hmax "/a/b" "/y").
    assert (H : (String.length "/a/b" <= String.length "/a")%nat).
    { apply Hmax; [right; left; reflexivity|]. right. exists "c". reflexivity. }
    simpl in H. lia.
  - destruct Hsub as [[H _]|(rel & _ & H)]; [discriminate H|].
    vm_compute in H. discriminate H.
Qed.

(** The case that C9 leaves out: with the same two mappings the path
    [/a/b], which the second entry equals, is mapped through the first,
    although the comment that precedes the loop says that an exact match is
    tried first. *)
Example prefix_before_exact :
  toRemotePath Samples.nested "/a/b" = "/x/b".
Proof. reflexivity. Qed.

End PathMapperFacts.

(** ** Insertion-ordered maps *)

Module JsMapFacts.

Section Facts.
Context {K V : Type} `{EqDecision K}.
Implicit Types (k : K) (v : V) (m : list (K * V)).

Lemma get_set_eq k v m : JsMap.get k (JsMap.set k v m) = Some v.
Proof.
  induction m as [|[k' v'] m IH]; simpl.
  - destruct (decide (k = k)); [reflexivity|congruence].
  - destruct (decide (k = k')) as [->|Hne]; simpl.
    + destruct (decide (k' = k')); [reflexivity|congruence].
    + destruct (decide (k = k')); [congruence|exact IH].
Qed.

Lemma get_set_ne k k' v m :
  k <> k' -> JsMap.get k' (JsMap.set k v m) = JsMap.get k' m.
Proof.
  intros Hne. induction m as [|[k0 v0] m IH]; simpl.
  - destruct (decide (k' = k)); [congruence|reflexivity].
  - destruct (decide (k = k0)) as [->|Hne0]; simpl.
    + destruct (decide (k' = k0)); [congruence|reflexivity].
    + destruct (decide (k' = k0)); [reflexivity|exact IH].
Qed.


Lemma get_delete_ne k k' m :
  k <> k' -> JsMap.get k' (JsMap.delete k m) = JsMap.get k' m.
Proof.
  intros Hne. induction m as [|[k0 v0] m IH]; simpl; [reflexivity|].
  destruct (decide (k = k0)) as [->|Hne0]; simpl.
  - destruct (decide (k' = k0)); [congruence|exact IH].
  - destruct (decide (k' = k0)); [reflexivity|exact IH].
Qed.

Lemma get_elem_of k v m : JsMap.get k m = Some v -> (k, v) ∈ m.
Proof.
  induction m as [|[k' v'] m IH]; simpl; [discriminate|].
  destruct (decide (k = k')) as [->|Hne].
  - intros [= ->]. left.
  - intros H. right. apply IH, H.
Qed.

Lemma elem_of_set k v m entry :
  entry ∈ JsMap.set k v m -> entry = (k, v) \/ entry ∈ m.
Proof.
  induction m as [|[k' v'] m IH]; simpl.
  - intros H. apply list_elem_of_singleton in H. left. exact H.
  - destruct (decide (k = k')) as [->|Hne]; intros H;
      apply elem_of_cons in H as [->|H].
    + left. reflexivity.
    + right. right. exact H.
    + right. left.
    + destruct (IH H) as [->|H']; [left; reflexivity|right; right; exact H'].
Qed.

Lemma elem_of_delete k m entry : entry ∈ JsMap.delete k m -> entry ∈ m.
Proof.
  induction m as [|[k' v'] m IH]; simpl; [trivial|].
  destruct (decide (k = k')) as [->|Hne]; intros H.
  - right. apply IH, H.
  - apply elem_of_cons in H as [->|H]; [left|right; apply IH, H].
Qed.

Lemma keys_set k v m x :
  x ∈ JsMap.keys (JsMap.set k v m) -> x = k \/ x ∈ JsMap.keys m.
Proof.
  unfold JsMap.keys. intros H. apply list_elem_of_fmap in H as [[k' v'] [-> H]].
  apply elem_of_set in H as [[= -> ->]|H]; [left; reflexivity|].
  right. apply list_elem_of_fmap. exists (k', v'). split; [reflexivity|exact H].
Qed.

Lemma wf_set k v m : JsMap.wf m -> JsMap.wf (JsMap.set k v m).
Proof.
  unfold JsMap.wf, JsMap.keys.
  induction m as [|[k' v'] m IH]; simpl; intros Hwf.
  - apply NoDup_singleton.
  - apply NoDup_cons in Hwf as [Hnotin Hwf].
    destruct (decide (k = k')) as [->|Hne]; simpl.
    + apply NoDup_cons. split; assumption.
    + apply NoDup_cons. split; [|apply IH, Hwf].
      intros Hin. apply keys_set in Hin as [->|Hin]; [congruence|].
      apply Hnotin, Hin.
Qed.

Lemma wf_delete k m : JsMap.wf m -> JsMap.wf (JsMap.delete k m).
Proof.
  unfold JsMap.wf, JsMap.keys.
  induction m as [|[k' v'] m IH]; simpl; intros Hwf; [exact Hwf|].
  apply NoDup_cons in Hwf as [Hnotin Hwf].
  destruct (decide (k = k')); [apply IH, Hwf|]. simpl.
  apply NoDup_cons. split; [|apply IH, Hwf].
  intros Hin. apply Hnotin.
  apply list_elem_of_fmap in Hin as [e [-> He]].
  apply list_elem_of_fmap. exists e. split; [reflexivity|].
  eapply elem_of_delete, He.
Qed.

(** In a well-formed map an entry is what [get] finds for its key. *)
Lemma wf_get k v m : JsMap.wf m -> (k, v) ∈ m -> JsMap.get k m = Some v.
Proof.
  unfold JsMap.wf, JsMap.keys.
  induction m as [|[k' v'] m IH]; simpl; intros Hwf Hin.
  - in_nil.
  - apply NoDup_cons in Hwf as [Hnotin Hwf].
    apply elem_of_cons in Hin as [[= -> ->]|Hin].
    + destruct (decide (k' = k')); [reflexivity|congruence].
    + destruct (decide (k = k')) as [->|Hne]; [|apply IH; assumption].
      exfalso. apply Hnotin. apply list_elem_of_fmap.
      exists (k', v). split; [reflexivity|exact Hin].
Qed.

End Facts.

End JsMapFacts.

(** ** Breakpoint reconciliation *)

Module BreakpointFacts.
Import Js GDBMI Session.

Lemma written_app (fx1 fx2 : list Effect) :
  written (fx1 ++ fx2) = written fx1 ++ written fx2.
Proof. unfold written. apply omap_app. Qed.


Lemma accepted_answered (ans : Answer) (tok : Z) (command : string) :
  accepted ans = true ->
  exists record,
    answered ans tok command = inl record /\
    getGdbBreakpointId record = answerId ans.
Proof.
  destruct ans as [cls rs|]; simpl; [|discriminate].
  unfold class_is. simpl. destruct cls as [k|]; simpl.
  - destruct (String.eqb k "error"); [discriminate|]. eauto.
  - eauto.
Qed.

Lemma refused_answered (ans : Answer) (tok : Z) (command : string) :
  accepted ans = false ->
  exists msg, answered ans tok command = inr msg.
Proof.
  destruct ans as [cls rs|]; simpl; [|eauto].
  unfold class_is. simpl. destruct cls as [k|]; simpl; [|discriminate].
  destruct (String.eqb k "error"); [eauto|discriminate].
Qed.




(** *** The table of bindings *)



Lemma table_wf_remember path l gdbId table :
  table_wf table -> table_wf (remember path l gdbId table).
Proof.
  intros [Hwf Hall]. unfold remember. split.
  - apply JsMapFacts.wf_set, Hwf.
  - apply Forall_forall. intros entry Hin.
    apply JsMapFacts.elem_of_set in Hin as [->|Hin].
    + simpl. apply JsMapFacts.wf_set.
      destruct (JsMap.get path table) as [f|] eqn:Hf; simpl.
      * apply JsMapFacts.get_elem_of in Hf.
        apply (proj1 (Forall_forall _ _) Hall _ Hf).
      * apply NoDup_nil_2.
    + apply (proj1 (Forall_forall _ _) Hall _ Hin).
Qed.

Lemma table_wf_delete path table :
  table_wf table -> table_wf (JsMap.delete path table).
Proof.
  intros [Hwf Hall]. split.
  - apply JsMapFacts.wf_delete, Hwf.
  - apply Forall_forall. intros entry Hin.
    apply JsMapFacts.elem_of_delete in Hin.
    apply (proj1 (Forall_forall _ _) Hall _ Hin).
Qed.













(** When a deletion is refused the handler throws: the other deletions
    and the insertions are not sent, and the old bindings stay. *)
Example refused_delete_aborts :
  fst (setBreakpointsRequest Samples.replace_request Samples.refused_delete_run)
    = Threw "No line 30 in file." /\
  written (effects (snd (setBreakpointsRequest Samples.replace_request
                                               Samples.refused_delete_run)))
    = ["1000-break-delete 1" +:+ String newline EmptyString] /\
  gdbBreakpoints (session (snd (setBreakpointsRequest Samples.replace_request
                                                      Samples.refused_delete_run)))
    = [("t.c", [(10%Z, 1%Z); (20%Z, 2%Z)])].
Proof. vm_compute. repeat split. Qed.

End BreakpointFacts.

(** ** Strings *)

Module StringFacts.
Import Js.

Lemma append_empty_r (s : string) : s +:+ EmptyString = s.
Proof.
  induction s as [|c s IH]; [reflexivity|].
  rewrite PathMapperFacts.append_cons, IH. reflexivity.
Qed.

Lemma all_chars_app (p : ascii -> bool) (a b : string) :
  all_chars p (a +:+ b) = all_chars p a && all_chars p b.
Proof.
  induction a as [|c a IH]; [reflexivity|].
  rewrite PathMapperFacts.append_cons. simpl. rewrite IH, andb_assoc. reflexivity.
Qed.

Lemma all_chars_impl (p q : ascii -> bool) (s : string) :
  (forall c, p c = true -> q c = true) ->
  all_chars p s = true -> all_chars q s = true.
Proof.
  intros Hpq. induction s as [|c s IH]; [reflexivity|]. simpl.
  intros H. apply andb_true_iff in H as [Hc Hs].
  rewrite (Hpq c Hc), (IH Hs). reflexivity.
Qed.

(** A greedy repetition takes a whole run when what follows does not
    match. *)
Lemma span_all (p : ascii -> bool) (s rest : string) :
  all_chars p s = true ->
  match rest with String c _ => p c = false | EmptyString => True end ->
  span p (s +:+ rest) = (s, rest).
Proof.
  intros Hs Hrest. induction s as [|c s IH].
  - change (EmptyString +:+ rest) with rest.
    destruct rest as [|c rest]; [reflexivity|]. simpl. rewrite Hrest. reflexivity.
  - rewrite PathMapperFacts.append_cons. simpl in *.
    apply andb_true_iff in Hs as [Hc Hs]. rewrite Hc, (IH Hs). reflexivity.
Qed.

Lemma get_append (a b : string) (k : nat) :
  String.get (String.length a + k) (a +:+ b) = String.get k b.
Proof.
  induction a as [|c a IH]; [reflexivity|].
  rewrite PathMapperFacts.append_cons. simpl. exact IH.
Qed.

Lemma drop_append_plus (a b : string) (k : nat) :
  drop (String.length a + k) (a +:+ b) = drop k b.
Proof.
  induction a as [|c a IH]; [reflexivity|].
  rewrite PathMapperFacts.append_cons. simpl. exact IH.
Qed.

Lemma take_append (a b : string) : take (String.length a) (a +:+ b) = a.
Proof.
  induction a as [|c a IH]; [destruct b; reflexivity|].
  rewrite PathMapperFacts.append_cons. simpl. rewrite IH. reflexivity.
Qed.

Lemma endsWithChar_snoc (c : ascii) (a : string) :
  endsWithChar c (a +:+ String c EmptyString) = true.
Proof.
  induction a as [|d a IH]; [simpl; apply Ascii.eqb_refl|].
  rewrite PathMapperFacts.append_cons.
  destruct a as [|e a]; [simpl; apply Ascii.eqb_refl|].
  rewrite PathMapperFacts.append_cons in *. exact IH.
Qed.

(** *** Reversal and trimming *)

Lemma rev_acc_eq (s : string) : forall acc, rev_acc s acc = rev s +:+ acc.
Proof.
  unfold rev. induction s as [|c s IH]; intros acc; [reflexivity|].
  simpl. rewrite (IH (String c acc)), (IH (String c EmptyString)).
  rewrite PathMapperFacts.append_assoc. reflexivity.
Qed.

Lemma rev_append (a b : string) : rev (a +:+ b) = rev b +:+ rev a.
Proof.
  induction a as [|c a IH].
  - change (EmptyString +:+ b) with b. symmetry. apply append_empty_r.
  - rewrite PathMapperFacts.append_cons. unfold rev at 1 3. simpl.
    rewrite !rev_acc_eq, IH, PathMapperFacts.append_assoc. reflexivity.
Qed.

Lemma rev_rev (s : string) : rev (rev s) = s.
Proof.
  induction s as [|c s IH]; [reflexivity|].
  change (String c s) with (String c EmptyString +:+ s) at 1.
  rewrite rev_append, rev_append, IH. reflexivity.
Qed.

Lemma trimStart_blank (s : string) :
  all_chars is_space s = true -> trimStart s = EmptyString.
Proof.
  induction s as [|c s IH]; [reflexivity|]. simpl.
  intros H. apply andb_true_iff in H as [Hc Hs]. rewrite Hc. apply IH, Hs.
Qed.

Lemma trim_blank (s : string) : all_chars is_space s = true -> trim s = EmptyString.
Proof. intros H. unfold trim. rewrite (trimStart_blank s H). reflexivity. Qed.

(** A string that neither starts nor ends with white space is its own
    trimmed form. *)
Lemma trim_fixed (c z : ascii) (mid : string) :
  is_space c = false -> is_space z = false ->
  trim (String c (mid +:+ String z EmptyString)) = String c (mid +:+ String z EmptyString).
Proof.
  intros Hc Hz. unfold trim.
  assert (H1 : trimStart (String c (mid +:+ String z EmptyString))
               = String c (mid +:+ String z EmptyString))
    by (simpl; rewrite Hc; reflexivity).
  rewrite H1.
  change (String c (mid +:+ String z EmptyString))
    with (String c mid +:+ String z EmptyString) at 1.
  rewrite rev_append.
  change (rev (String z EmptyString)) with (String z EmptyString).
  rewrite PathMapperFacts.append_cons. simpl trimStart. rewrite Hz.
  change (String z (EmptyString +:+ rev (String c mid)))
    with (String z EmptyString +:+ rev (String c mid)).
  rewrite rev_append, rev_rev. reflexivity.
Qed.

Lemma trim_single (c : ascii) :
  is_space c = false -> trim (String c EmptyString) = String c EmptyString.
Proof. intros Hc. unfold trim. simpl. rewrite Hc. simpl. rewrite Hc. reflexivity. Qed.

Lemma replace2_absent (a b r : ascii) (s : string) :
  all_chars (fun c => negb (Ascii.eqb c a)) s = true -> replace2 a b r s = s.
Proof.
  induction s as [|c s IH]; [reflexivity|]. intros H.
  simpl in H. apply andb_true_iff in H as [Hc Hs].
  destruct s as [|d rest]; [reflexivity|].
  apply negb_true_iff in Hc.
  change (replace2 a b r (String c (String d rest)))
    with (if Ascii.eqb c a && Ascii.eqb d b then String r (replace2 a b r rest)
          else String c (replace2 a b r (String d rest))).
  rewrite Hc. simpl andb. cbv iota. rewrite (IH Hs). reflexivity.
Qed.

End StringFacts.
(** ** Lines of the debugger *)

Module LineFacts.
Import Js GDBMI Session Lines StringFacts.

Lemma unescape_no_backslash (text : string) :
  no_backslash text = true -> unescapeString text = text.
Proof.
  intros H. unfold unescapeString.
  rewrite (replace2_absent backslash "n" newline text H).
  rewrite (replace2_absent backslash "r" creturn text H).
  rewrite (replace2_absent backslash "t" tab text H).
  rewrite (replace2_absent backslash dquote dquote text H).
  apply (replace2_absent backslash backslash backslash text H).
Qed.

Lemma parseClassRecord_fields (fuel : nat) (ty : MIRecordType) (line : string)
                              (tok : option Z) (record : MIRecord) :
  parseClassRecord fuel ty line tok = Some record ->
  rtype record = ty /\ token record = tok /\ output record = None /\
  (class record = None -> results record = None).
Proof.
  unfold parseClassRecord.
  destruct (classMatch (drop 1 line)) as [[cls resultsStr]|].
  - destruct (truthy resultsStr).
    + destruct (parseResults fuel resultsStr) as [rs|]; [|discriminate].
      intros [= <-]. repeat split. discriminate.
    + intros [= <-]. repeat split. discriminate.
  - intros [= <-]. repeat split.
Qed.

Lemma parseStreamRecord_fields (line : string) (ty : MIRecordType) :
  rtype (parseStreamRecord line ty) = ty /\
  token (parseStreamRecord line ty) = None /\
  class (parseStreamRecord line ty) = None /\
  results (parseStreamRecord line ty) = None /\
  is_Some (output (parseStreamRecord line ty)).
Proof.
  unfold parseStreamRecord. destruct (streamMatch line); simpl; repeat split; eauto.
Qed.

(** The type of a record is that of the sigil which follows the token. A
    stream record carries its text and nothing else: a token in front of it
    is read and dropped. Every other record carries the token of the line
    and no text. *)
Theorem record_type_follows_sigil (fuel : nat) (line : string) (record : MIRecord) :
  parseLine fuel line = Some (Some record) ->
  startsWith (sigil (rtype record)) (afterToken line) = true /\
  (if is_stream (rtype record)
   then token record = None /\ class record = None /\ results record = None /\
        is_Some (output record)
   else token record = lineToken line /\ output record = None /\
        (class record = None -> results record = None)).
Proof.
  unfold parseLine, afterToken, lineToken.
  destruct (negb (truthy line) || (String.length (trim line) =? 0)%nat); [discriminate|].
  cbv zeta.
  destruct (tokenMatch (trim line)) as [[ds tl]|];
    [set (rest := tl); set (tok := Some (digits_value 0 ds))
    |set (rest := trim line); set (tok := @None Z)];
    (destruct (startsWith "^" rest) eqn:H1;
     [unfold parseResultRecord; destruct (parseClassRecord fuel TResult rest tok) as [r|] eqn:Hr;
      [|discriminate]; intros [= <-];
      destruct (parseClassRecord_fields _ _ _ _ _ Hr) as (-> & -> & Ho & Hc);
      simpl; repeat split; assumption|]);
    (destruct (startsWith "*" rest) eqn:H2;
     [unfold parseAsyncRecord; destruct (parseClassRecord fuel TExec rest tok) as [r|] eqn:Hr;
      [|discriminate]; intros [= <-];
      destruct (parseClassRecord_fields _ _ _ _ _ Hr) as (-> & -> & Ho & Hc);
      simpl; repeat split; assumption|]);
    (destruct (startsWith "+" rest) eqn:H3;
     [unfold parseAsyncRecord; destruct (parseClassRecord fuel TStatus rest tok) as [r|] eqn:Hr;
      [|discriminate]; intros [= <-];
      destruct (parseClassRecord_fields _ _ _ _ _ Hr) as (-> & -> & Ho & Hc);
      simpl; repeat split; assumption|]);
    (destruct (startsWith "=" rest) eqn:H4;
     [unfold parseAsyncRecord; destruct (parseClassRecord fuel TNotify rest tok) as [r|] eqn:Hr;
      [|discriminate]; intros [= <-];
      destruct (parseClassRecord_fields _ _ _ _ _ Hr) as (-> & -> & Ho & Hc);
      simpl; repeat split; assumption|]);
    (destruct (startsWith "~" rest) eqn:H5;
     [intros [= <-];
      destruct (parseStreamRecord_fields rest TConsole) as (-> & Ht & Hc & Hr & Ho);
      simpl; repeat split; assumption|]);
    (destruct (startsWith "@" rest) eqn:H6;
     [intros [= <-];
      destruct (parseStreamRecord_fields rest TTarget) as (-> & Ht & Hc & Hr & Ho);
      simpl; repeat split; assumption|]);
    (destruct (startsWith "&" rest) eqn:H7;
     [intros [= <-];
      destruct (parseStreamRecord_fields rest TLog) as (-> & Ht & Hc & Hr & Ho);
      simpl; repeat split; assumption|]);
    discriminate.
Qed.

Lemma record_type_follows_sigil_witness :
  startsWith "*"
    (afterToken (lit "*stopped,reason='exited-signalled',signal-name='SIGSEGV'")) = true /\
  token Samples.signalled_record = None.
Proof.
  destruct (record_type_follows_sigil 20
              (lit "*stopped,reason='exited-signalled',signal-name='SIGSEGV'")
              Samples.signalled_record) as [Hsigil [Htok _]].
  - vm_compute. reflexivity.
  - split; [exact Hsigil|exact Htok].
Defined.

(** A line of white space, and a line that has none of the seven sigils
    after its token, the prompt for one, give no record; the parser returns
    on them whatever the fuel. *)
Theorem lines_without_record (fuel : nat) (line : string) :
  all_chars is_space line = true \/
  (forall ty, startsWith (sigil ty) (afterToken line) = false) ->
  parseLine fuel line = Some None.
Proof.
  intros [Hblank|Hnone]; unfold parseLine.
  - rewrite (trim_blank line Hblank). simpl. rewrite orb_true_r. reflexivity.
  - destruct (negb (truthy line) || (String.length (trim line) =? 0)%nat); [reflexivity|].
    cbv zeta. unfold afterToken in Hnone.
    pose proof (Hnone TResult) as H1. pose proof (Hnone TExec) as H2.
    pose proof (Hnone TStatus) as H3. pose proof (Hnone TNotify) as H4.
    pose proof (Hnone TConsole) as H5. pose proof (Hnone TTarget) as H6.
    pose proof (Hnone TLog) as H7.
    unfold sigil in *.
    destruct (tokenMatch (trim line)) as [[ds tl]|];
      rewrite H1, H2, H3, H4, H5, H6, H7; reflexivity.
Qed.

Lemma lines_without_record_witness :
  parseLine 0 "(gdb) " = Some None /\ parseLine 0 "   " = Some None.
Proof.
  split; apply lines_without_record.
  - right. intros ty. destruct ty; reflexivity.
  - left. reflexivity.
Defined.

(** *** Stream records *)

Lemma streamMatch_quoted (s : ascii) (text : string) :
  dot_star text = true ->
  streamMatch (String s (quoted text)) = Some text.
Proof.
  intros Hdot. unfold streamMatch, quoted.
  rewrite Ascii.eqb_refl, endsWithChar_snoc.
  unfold dot_star in *. rewrite all_chars_app, Hdot.
  change (all_chars (fun c => negb (is_line_terminator c)) (String dquote EmptyString))
    with true.
  simpl andb. cbv iota.
  rewrite PathMapperFacts.length_append. simpl String.length.
  replace (String.length text + 1 - 1)%nat with (String.length text) by lia.
  rewrite take_append. reflexivity.
Qed.

(** The text of a stream record between its quotes, when it has no
    backslash, is delivered as it is; it may hold double quotes. Console and
    target text that is not empty goes to the editor as output of the
    category [stdout]; log text goes nowhere. *)
Theorem stream_text_delivered (fuel : nat) (ty : MIRecordType) (text : string)
                              (st : Session) :
  is_stream ty = true ->
  dot_star text = true ->
  no_backslash text = true ->
  parseLine fuel (sigil ty +:+ quoted text) =
    Some (Some (mkRecord ty None None None (Some text))) /\
  handleMIRecord (mkRecord ty None None None (Some text)) st =
    (st, match ty with
         | TLog => []
         | _ => if truthy text then [FxSendEvent (OutputEvent text "stdout")] else []
         end).
Proof.
  intros Hty Hdot Hplain. split.
  - assert (Hline : forall s : ascii,
              is_space s = false -> is_digit s = false ->
              parseLine fuel (String s (quoted text)) =
                (let rest := String s (quoted text) in
                 if startsWith "^" rest then Some <$> parseResultRecord fuel rest None
                 else if startsWith "*" rest then Some <$> parseAsyncRecord fuel rest TExec None
                 else if startsWith "+" rest then Some <$> parseAsyncRecord fuel rest TStatus None
                 else if startsWith "=" rest then Some <$> parseAsyncRecord fuel rest TNotify None
                 else if startsWith "~" rest then Some (Some (parseStreamRecord rest TConsole))
                 else if startsWith "@" rest then Some (Some (parseStreamRecord rest TTarget))
                 else if startsWith "&" rest then Some (Some (parseStreamRecord rest TLog))
                 else Some None)).
    { intros s Hs Hd. unfold parseLine.
      assert (Htrim : trim (String s (quoted text)) = String s (quoted text)).
      { unfold quoted.
        change (String s (String dquote (text +:+ String dquote EmptyString)))
          with (String s (String dquote text +:+ String dquote EmptyString)).
        apply trim_fixed; [exact Hs|reflexivity]. }
      rewrite Htrim.
      change (negb (truthy (String s (quoted text))) ||
              (String.length (String s (quoted text)) =? 0)%nat) with false.
      cbv iota. unfold tokenMatch. simpl span. rewrite Hd. reflexivity. }
    assert (Hrecord : forall s : ascii,
              parseStreamRecord (String s (quoted text)) ty =
                mkRecord ty None None None (Some text)).
    { intros s. unfold parseStreamRecord.
      rewrite (streamMatch_quoted s text Hdot), (unescape_no_backslash text Hplain).
      reflexivity. }
    destruct ty; try discriminate Hty.
    + change (sigil TConsole +:+ quoted text) with (String "~" (quoted text)).
      rewrite Hline by reflexivity. cbv zeta. simpl startsWith. cbv iota.
      rewrite Hrecord. reflexivity.
    + change (sigil TTarget +:+ quoted text) with (String "@" (quoted text)).
      rewrite Hline by reflexivity. cbv zeta. simpl startsWith. cbv iota.
      rewrite Hrecord. reflexivity.
    + change (sigil TLog +:+ quoted text) with (String "&" (quoted text)).
      rewrite Hline by reflexivity. cbv zeta. simpl startsWith. cbv iota.
      rewrite Hrecord. reflexivity.
  - destruct ty; try discriminate Hty; unfold handleMIRecord; simpl;
      try destruct (truthy text); reflexivity.
Qed.

Lemma stream_text_delivered_witness :
  parseLine 0 (lit "~'say 'hi' now'") =
    Some (Some (mkRecord TConsole None None None (Some (lit "say 'hi' now")))).
Proof.
  apply (stream_text_delivered 0 TConsole (lit "say 'hi' now") Samples.started);
    reflexivity.
Defined.

(** *** Result records *)

Ltac regroup :=
  repeat (rewrite PathMapperFacts.append_assoc || rewrite PathMapperFacts.append_cons);
  reflexivity.

Ltac by_character c :=
  destruct c as [[] [] [] [] [] [] [] []]; vm_compute; intros; congruence.

Lemma name_start_not_separator (c : ascii) :
  is_name_start c = true -> Ascii.eqb c " " || Ascii.eqb c "," = false.
Proof. by_character c. Qed.

Lemma name_char_visible (c : ascii) :
  is_name_char c = true -> negb (is_line_terminator c) = true.
Proof. by_character c. Qed.

Lemma name_start_visible (c : ascii) :
  is_name_start c = true -> negb (is_line_terminator c) = true.
Proof. by_character c. Qed.

Lemma class_char_visible (c : ascii) :
  is_lower c || Ascii.eqb c "-" = true -> negb (is_line_terminator c) = true.
Proof. by_character c. Qed.

Lemma digit_not_space (c : ascii) : is_digit c = true -> is_space c = false.
Proof. by_character c. Qed.

Lemma plain_no_backslash (text : string) : plain text = true -> no_backslash text = true.
Proof.
  apply all_chars_impl. intros c H. apply andb_true_iff in H as [H _]. exact H.
Qed.

(** The string loop on a text without backslash and double quote: it
    stops after the closing quote. *)
Lemma stringLoop_plain (text rest : string) :
  forall i val,
    plain text = true ->
    stringLoop (text +:+ String dquote rest) i false val =
      (MIString (unescapeString (val +:+ text)), (i + String.length text + 1)%nat).
Proof.
  induction text as [|c text IH]; intros i val Hplain.
  - change (EmptyString +:+ String dquote rest) with (String dquote rest).
    simpl. rewrite append_empty_r. f_equal. lia.
  - rewrite PathMapperFacts.append_cons. simpl in Hplain.
    apply andb_true_iff in Hplain as [Hc Hplain].
    apply andb_true_iff in Hc as [Hb Hq].
    apply negb_true_iff in Hb. apply negb_true_iff in Hq.
    simpl stringLoop. rewrite Hb, Hq.
    rewrite (IH (S i) (snoc val c) Hplain). unfold snoc.
    rewrite PathMapperFacts.append_assoc. simpl String.length.
    f_equal. lia.
Qed.

Lemma resultsLoop_end (fuel : nat) (str : string) (i : nat) (acc : list MIResult) :
  (String.length str <= i)%nat -> resultsLoop (S fuel) str i acc = Some acc.
Proof.
  intros Hle.
  change (resultsLoop (S fuel) str i acc)
    with (if (i <? String.length str)%nat
          then
            let i1 := skipSep str i in
            if (String.length str <=? i1)%nat then Some acc
            else
              match varMatch (drop i1 str) with
              | None => Some acc
              | Some (name, n) =>
                  match parseValue fuel str (i1 + n) with
                  | Some (val, endIndex) =>
                      resultsLoop fuel str endIndex (acc ++ [(name, val)])
                  | None => None
                  end
              end
          else Some acc).
  replace (i <? String.length str)%nat with false
    by (symmetry; apply Nat.ltb_ge; exact Hle).
  reflexivity.
Qed.

(** *** Values *)

Lemma render_tuple (rs : list MIResult) :
  render (MITuple rs) = String "{" (renderFields true rs).
Proof. reflexivity. Qed.

Lemma render_list (vs : list MIValue) :
  render (MIList vs) = String "[" (renderItems true vs).
Proof. reflexivity. Qed.

Lemma clean_tuple (rs : list MIResult) : clean (MITuple rs) = cleanFields rs.
Proof.
  cbn [clean]. induction rs as [|[name x] rs IH]; [reflexivity|].
  unfold cleanFields. cbn [forallb fst snd]. unfold cleanFields in IH.
  rewrite <- IH. reflexivity.
Qed.

Lemma clean_list (vs : list MIValue) : clean (MIList vs) = cleanItems vs.
Proof. reflexivity. Qed.

Lemma size_tuple (rs : list MIResult) : size (MITuple rs) = S (sizeFields rs).
Proof. reflexivity. Qed.

Lemma size_list (vs : list MIValue) : size (MIList vs) = S (sizeItems vs).
Proof. reflexivity. Qed.

(** The text of a value starts with a double quote, a brace or a
    bracket. *)
Lemma render_head (v : MIValue) :
  exists c rest,
    render v = String c rest /\
    (c = dquote \/ c = "{"%char \/ c = "["%char).
Proof.
  destruct v as [s|rs|vs].
  - eexists _, _. split; [reflexivity|]. left. reflexivity.
  - rewrite render_tuple. eexists _, _. split; [reflexivity|]. right. left. reflexivity.
  - rewrite render_list. eexists _, _. split; [reflexivity|]. right. right. reflexivity.
Qed.

Lemma char_at (before : string) (c : ascii) (rest : string) (d : ascii) :
  char_is (before +:+ String c rest) (String.length before) d = Ascii.eqb c d.
Proof.
  unfold char_is.
  replace (String.length before) with (String.length before + 0)%nat by lia.
  rewrite get_append. reflexivity.
Qed.

Lemma name_start_not_closer (c : ascii) :
  is_name_start c = true ->
  Ascii.eqb c "}" = false /\ Ascii.eqb c "]" = false /\
  Ascii.eqb c " " || Ascii.eqb c "," = false.
Proof.
  destruct c as [[] [] [] [] [] [] [] []]; vm_compute; intros; repeat split; congruence.
Qed.

Lemma parseValue_eq (fuel : nat) (str : string) (i : nat) :
  parseValue (S fuel) str i =
    if char_is str i dquote then
      Some (stringLoop (drop (S i) str) (S i) false EmptyString)
    else if char_is str i "{" then tupleLoop fuel str (S i) []
    else if char_is str i "[" then listLoop fuel str (S i) []
    else
      let '(val, endIndex) := fallbackLoop (drop i str) i EmptyString in
      Some (MIString (trim val), endIndex).
Proof. reflexivity. Qed.

Lemma tupleLoop_eq (fuel : nat) (str : string) (i : nat) (acc : list MIResult) :
  tupleLoop (S fuel) str i acc =
    if (i <? String.length str)%nat && negb (char_is str i "}") then
      let i1 := skipSep str i in
      if (String.length str <=? i1)%nat || char_is str i1 "}" then
        Some (MITuple acc, S i1)
      else
        match varMatch (drop i1 str) with
        | Some (name, n) =>
            match parseValue fuel str (i1 + n) with
            | Some (val, endIndex) =>
                tupleLoop fuel str endIndex (acc ++ [(name, val)])
            | None => None
            end
        | None => tupleLoop fuel str i1 acc
        end
    else Some (MITuple acc, S i).
Proof. reflexivity. Qed.

Lemma listLoop_eq (fuel : nat) (str : string) (i : nat) (acc : list MIValue) :
  listLoop (S fuel) str i acc =
    if (i <? String.length str)%nat && negb (char_is str i "]") then
      let i1 := skipSep str i in
      if (String.length str <=? i1)%nat || char_is str i1 "]" then
        Some (MIList acc, S i1)
      else
        let prevIndex := i1 in
        match varMatch (drop i1 str) with
        | Some (name, n) =>
            match parseValue fuel str (i1 + n) with
            | Some (val, endIndex) =>
                let acc' := acc ++ [MITuple [(name, val)]] in
                if (endIndex =? prevIndex)%nat then Some (MIList acc', S endIndex)
                else listLoop fuel str endIndex acc'
            | None => None
            end
        | None =>
            match parseValue fuel str i1 with
            | Some (val, endIndex) =>
                let acc' := acc ++ [val] in
                if (endIndex =? prevIndex)%nat then Some (MIList acc', S endIndex)
                else listLoop fuel str endIndex acc'
            | None => None
            end
        end
    else Some (MIList acc, S i).
Proof. reflexivity. Qed.

Lemma resultsLoop_eq (fuel : nat) (str : string) (i : nat) (acc : list MIResult) :
  resultsLoop (S fuel) str i acc =
    if (i <? String.length str)%nat then
      let i1 := skipSep str i in
      if (String.length str <=? i1)%nat then Some acc
      else
        match varMatch (drop i1 str) with
        | None => Some acc
        | Some (name, n) =>
            match parseValue fuel str (i1 + n) with
            | Some (val, endIndex) =>
                resultsLoop fuel str endIndex (acc ++ [(name, val)])
            | None => None
            end
        end
    else Some acc.
Proof. reflexivity. Qed.

Lemma name_head (name : string) :
  is_name name = true ->
  exists c rest, name = String c rest /\ is_name_start c = true.
Proof.
  destruct name as [|c rest]; [discriminate|]. intros H.
  apply andb_true_iff in H as [Hc _]. exists c, rest. split; [reflexivity|exact Hc].
Qed.

(** The name of a field, at any place of a text. *)
Lemma name_at (before name rest : string) :
  is_name name = true ->
  varMatch (drop (String.length before) (before +:+ name +:+ String "=" rest))
    = Some (name, (String.length name + 1)%nat).
Proof.
  intros Hname. destruct name as [|c name]; [discriminate|].
  simpl in Hname. apply andb_true_iff in Hname as [Hc Hname].
  rewrite PathMapperFacts.drop_append, PathMapperFacts.append_cons.
  unfold varMatch. rewrite Hc.
  rewrite (span_all is_name_char name _ Hname) by reflexivity.
  simpl. do 3 f_equal. lia.
Qed.

(** A quoted text, at any place of a text. *)
Lemma string_at (fuel : nat) (before text tail : string) :
  plain text = true ->
  parseValue (S fuel) (before +:+ quoted text +:+ tail) (String.length before) =
    Some (MIString text, (String.length before + String.length (quoted text))%nat).
Proof.
  intros Hplain.
  assert (Hstr : before +:+ quoted text +:+ tail =
                 before +:+ String dquote (text +:+ String dquote tail)).
  { unfold quoted. regroup. }
  rewrite Hstr, parseValue_eq, char_at. simpl (Ascii.eqb dquote dquote). cbv iota.
  replace (S (String.length before)) with (String.length before + 1)%nat by lia.
  rewrite drop_append_plus. change (drop 1 (String dquote ?s)) with s.
  cbn [drop].
  rewrite (stringLoop_plain text tail _ _ Hplain).
  change (EmptyString +:+ text) with text.
  rewrite (unescape_no_backslash text (plain_no_backslash text Hplain)).
  do 2 f_equal. unfold quoted. simpl String.length.
  rewrite PathMapperFacts.length_append. simpl. lia.
Qed.

Lemma skipSep_at (before sep : string) (c : ascii) (rest : string) :
  sep = EmptyString \/ sep = "," ->
  Ascii.eqb c " " || Ascii.eqb c "," = false ->
  skipSep (before +:+ sep +:+ String c rest) (String.length before)
    = (String.length before + String.length sep)%nat.
Proof.
  intros Hsep Hc. unfold skipSep. rewrite PathMapperFacts.drop_append.
  destruct Hsep as [->| ->].
  - change (EmptyString +:+ String c rest) with (String c rest).
    simpl. rewrite Hc. lia.
  - change ("," +:+ String c rest) with (String "," (String c rest)).
    simpl. rewrite Hc. lia.
Qed.

(** The separators in front of an element of a loop: nothing in front of
    the first one, a comma in front of the others. *)
Lemma separators_at (before : string) (first : bool) (c : ascii) (rest : string)
                 (closer : ascii) :
  Ascii.eqb c " " || Ascii.eqb c "," = false ->
  Ascii.eqb c closer = false ->
  Ascii.eqb "," closer = false ->
  let sep := if first then EmptyString else "," in
  let str := before +:+ sep +:+ String c rest in
  (String.length before <? String.length str)%nat = true /\
  char_is str (String.length before) closer = false /\
  skipSep str (String.length before) = String.length (before +:+ sep) /\
  (String.length str <=? String.length (before +:+ sep))%nat = false /\
  char_is str (String.length (before +:+ sep)) closer = false.
Proof.
  intros Hc Hcloser Hcomma sep str.
  assert (Hlen : String.length str =
                 (String.length before + String.length sep + S (String.length rest))%nat).
  { unfold str. rewrite !PathMapperFacts.length_append. simpl. lia. }
  assert (Hsep : String.length (before +:+ sep) =
                 (String.length before + String.length sep)%nat)
    by apply PathMapperFacts.length_append.
  split; [apply Nat.ltb_lt; lia|]. split; [|split; [|split]].
  - unfold str, sep. destruct first.
    + change (EmptyString +:+ String c rest) with (String c rest).
      rewrite char_at. exact Hcloser.
    + change ("," +:+ String c rest) with (String "," (String c rest)).
      rewrite char_at. exact Hcomma.
  - rewrite Hsep. apply skipSep_at; [destruct first; auto|exact Hc].
  - apply Nat.leb_gt. lia.
  - unfold str. rewrite <- PathMapperFacts.append_assoc, char_at. exact Hcloser.
Qed.

Section Loops.

Variable F : nat.

Hypothesis parsed_below :
  forall fuel, (fuel < F)%nat ->
  forall v before tail,
    clean v = true -> (size v <= fuel)%nat ->
    parseValue fuel (before +:+ render v +:+ tail) (String.length before)
      = Some (v, (String.length before + String.length (render v))%nat).

(** The loop of a tuple over the text of fields and the closing brace. *)
Lemma tupleLoop_fields (rs : list MIResult) :
  forall first fuel before tail acc,
    (fuel < F)%nat ->
    cleanFields rs = true ->
    (sizeFields rs <= fuel)%nat ->
    tupleLoop fuel (before +:+ renderFields first rs +:+ tail) (String.length before) acc
      = Some (MITuple (acc ++ rs),
              (String.length before + String.length (renderFields first rs))%nat).
Proof.
  induction rs as [|[name x] rs IH]; intros first fuel before tail acc HF Hclean Hsize;
    (destruct fuel as [|fuel]; [simpl in Hsize; lia|]).
  - rewrite tupleLoop_eq. cbn [renderFields].
    change ("}" +:+ tail) with (String "}" tail).
    rewrite char_at. simpl (Ascii.eqb _ _). rewrite andb_false_r, app_nil_r.
    do 2 f_equal. simpl. lia.
  - cbn [sizeFields] in Hsize.
    unfold cleanFields in Hclean. cbn [forallb fst snd] in Hclean.
    apply andb_true_iff in Hclean as [Hfield Hclean].
    apply andb_true_iff in Hfield as [Hname Hx].
    set (sep := if first then EmptyString else ",").
    set (str := before +:+ renderFields first ((name, x) :: rs) +:+ tail).
    assert (Hvalue : str = (before +:+ sep +:+ name +:+ "=") +:+ render x +:+
                           (renderFields false rs +:+ tail)).
    { unfold str. cbn [renderFields]. fold sep. regroup. }
    assert (Hnext : str = ((before +:+ sep +:+ name +:+ "=") +:+ render x) +:+
                          renderFields false rs +:+ tail).
    { rewrite Hvalue. regroup. }
    assert (Hvar : str = (before +:+ sep) +:+ name +:+
                         String "=" (render x +:+ renderFields false rs +:+ tail)).
    { rewrite Hvalue. regroup. }
    destruct (name_head name Hname) as (c & name0 & Ename & Hc).
    assert (Hhead : str = before +:+ sep +:+
                          String c (name0 +:+ "=" +:+ render x +:+
                                    renderFields false rs +:+ tail)).
    { rewrite Hvalue, Ename. regroup. }
    destruct (name_start_not_closer c Hc) as (Hbrace & _ & Hsepc).
    destruct (separators_at before first c
                (name0 +:+ "=" +:+ render x +:+ renderFields false rs +:+ tail)
                "}" Hsepc Hbrace eq_refl) as (H1 & H2 & H3 & H4 & H5).
    cbv zeta in H1, H2, H3, H4, H5. fold sep in H1, H2, H3, H4, H5.
    rewrite <- Hhead in H1, H2, H3, H4, H5.
    change (before +:+ renderFields first ((name, x) :: rs) +:+ tail) with str.
    rewrite tupleLoop_eq, H1, H2. cbn [negb andb]. cbv zeta.
    rewrite H3, H4, H5. cbn [orb].
    rewrite Hvar at 1. rewrite (name_at (before +:+ sep) name _ Hname).
    assert (Hat : (String.length (before +:+ sep) + (String.length name + 1))%nat =
                  String.length (before +:+ sep +:+ name +:+ "=")).
    { rewrite !PathMapperFacts.length_append. simpl. lia. }
    rewrite Hat. rewrite Hvalue at 1.
    rewrite (parsed_below fuel ltac:(lia) x _ _ Hx ltac:(lia)).
    rewrite <- PathMapperFacts.length_append.
    rewrite Hnext.
    rewrite (IH false fuel _ tail (acc ++ [(name, x)]) ltac:(lia) Hclean ltac:(lia)).
    rewrite <- app_assoc. do 2 f_equal.
    cbn [renderFields]. fold sep.
    rewrite !PathMapperFacts.length_append. simpl. lia.
Qed.

(** The loop of a list over the text of values and the closing bracket. *)
Lemma listLoop_items (vs : list MIValue) :
  forall first fuel before tail acc,
    (fuel < F)%nat ->
    cleanItems vs = true ->
    (sizeItems vs <= fuel)%nat ->
    listLoop fuel (before +:+ renderItems first vs +:+ tail) (String.length before) acc
      = Some (MIList (acc ++ vs),
              (String.length before + String.length (renderItems first vs))%nat).
Proof.
  induction vs as [|x vs IH]; intros first fuel before tail acc HF Hclean Hsize;
    (destruct fuel as [|fuel]; [simpl in Hsize; lia|]).
  - rewrite listLoop_eq. cbn [renderItems].
    change ("]" +:+ tail) with (String "]" tail).
    rewrite char_at. simpl (Ascii.eqb _ _). rewrite andb_false_r, app_nil_r.
    do 2 f_equal. simpl. lia.
  - cbn [sizeItems] in Hsize.
    unfold cleanItems in Hclean. cbn [forallb] in Hclean.
    apply andb_true_iff in Hclean as [Hx Hclean].
    set (sep := if first then EmptyString else ",").
    set (str := before +:+ renderItems first (x :: vs) +:+ tail).
    assert (Hvalue : str = (before +:+ sep) +:+ render x +:+
                           (renderItems false vs +:+ tail)).
    { unfold str. cbn [renderItems]. fold sep. regroup. }
    assert (Hnext : str = ((before +:+ sep) +:+ render x) +:+
                          renderItems false vs +:+ tail).
    { rewrite Hvalue. regroup. }
    destruct (render_head x) as (c & rest & Hrender & Hc).
    assert (Hhead : str = before +:+ sep +:+
                          String c (rest +:+ renderItems false vs +:+ tail)).
    { rewrite Hvalue, Hrender. regroup. }
    assert (Hchar : Ascii.eqb c " " || Ascii.eqb c "," = false /\
                    Ascii.eqb c "]" = false /\ is_name_start c = false).
    { destruct Hc as [->|[->| ->]]; repeat split. }
    destruct Hchar as (Hsepc & Hbracket & Hstart).
    destruct (separators_at before first c
                (rest +:+ renderItems false vs +:+ tail)
                "]" Hsepc Hbracket eq_refl) as (H1 & H2 & H3 & H4 & H5).
    cbv zeta in H1, H2, H3, H4, H5. fold sep in H1, H2, H3, H4, H5.
    rewrite <- Hhead in H1, H2, H3, H4, H5.
    change (before +:+ renderItems first (x :: vs) +:+ tail) with str.
    rewrite listLoop_eq, H1, H2. cbn [negb andb]. cbv zeta.
    rewrite H3, H4, H5. cbn [orb].
    assert (Hvar : varMatch (drop (String.length (before +:+ sep)) str) = None).
    { rewrite Hhead, <- PathMapperFacts.append_assoc, PathMapperFacts.drop_append.
      unfold varMatch. rewrite Hstart. reflexivity. }
    rewrite Hvar. rewrite Hvalue at 1.
    rewrite (parsed_below fuel ltac:(lia) x _ _ Hx ltac:(lia)).
    replace (String.length (before +:+ sep) + String.length (render x) =?
             String.length (before +:+ sep))%nat with false
      by (symmetry; apply Nat.eqb_neq; rewrite Hrender; simpl; lia).
    rewrite <- PathMapperFacts.length_append.
    rewrite Hnext.
    rewrite (IH false fuel _ tail (acc ++ [x]) ltac:(lia) Hclean ltac:(lia)).
    rewrite <- app_assoc. do 2 f_equal.
    cbn [renderItems]. fold sep.
    rewrite !PathMapperFacts.length_append. simpl. lia.
Qed.

End Loops.

(** The parser reads the text of a clean value, at any place of a text,
    as that value, and stops right after it. *)
Lemma value_parsed (fuel : nat) :
  forall v before tail,
    clean v = true -> (size v <= fuel)%nat ->
    parseValue fuel (before +:+ render v +:+ tail) (String.length before)
      = Some (v, (String.length before + String.length (render v))%nat).
Proof.
  induction fuel as [fuel IH] using lt_wf_ind.
  intros v before tail Hclean Hsize.
  destruct fuel as [|fuel]; [destruct v; simpl in Hsize; lia|].
  destruct v as [text|rs|vs].
  - apply string_at. cbn [clean] in Hclean.
    apply andb_true_iff in Hclean as [Hplain _]. exact Hplain.
  - rewrite clean_tuple in Hclean. rewrite size_tuple in Hsize. rewrite render_tuple.
    rewrite PathMapperFacts.append_cons, parseValue_eq, !char_at.
    simpl (Ascii.eqb _ _). cbv iota.
    assert (Hstr : before +:+ String "{" (renderFields true rs +:+ tail) =
                   (before +:+ "{") +:+ renderFields true rs +:+ tail) by regroup.
    assert (Hat : S (String.length before) = String.length (before +:+ "{"))
      by (rewrite PathMapperFacts.length_append; simpl; lia).
    rewrite Hstr, Hat.
    rewrite (tupleLoop_fields (S fuel) IH rs true fuel _ tail [])
      by (assumption || lia).
    do 2 f_equal. rewrite PathMapperFacts.length_append. simpl. lia.
  - rewrite clean_list in Hclean. rewrite size_list in Hsize. rewrite render_list.
    rewrite PathMapperFacts.append_cons, parseValue_eq, !char_at.
    simpl (Ascii.eqb _ _). cbv iota.
    assert (Hstr : before +:+ String "[" (renderItems true vs +:+ tail) =
                   (before +:+ "[") +:+ renderItems true vs +:+ tail) by regroup.
    assert (Hat : S (String.length before) = String.length (before +:+ "["))
      by (rewrite PathMapperFacts.length_append; simpl; lia).
    rewrite Hstr, Hat.
    rewrite (listLoop_items (S fuel) IH vs true fuel _ tail [])
      by (assumption || lia).
    do 2 f_equal. rewrite PathMapperFacts.length_append. simpl. lia.
Qed.

(** The loop of [parseResults] over the text of fields, up to the end of
    the text. *)
Lemma resultsLoop_fields (rs : list MIResult) :
  forall first fuel before acc,
    cleanFields rs = true ->
    (sizeFields rs <= fuel)%nat ->
    resultsLoop fuel (before +:+ renderResults first rs) (String.length before) acc
      = Some (acc ++ rs).
Proof.
  induction rs as [|[name x] rs IH]; intros first fuel before acc Hclean Hsize;
    (destruct fuel as [|fuel]; [simpl in Hsize; lia|]).
  - cbn [renderResults]. rewrite append_empty_r, app_nil_r.
    apply resultsLoop_end. lia.
  - cbn [sizeFields] in Hsize.
    unfold cleanFields in Hclean. cbn [forallb fst snd] in Hclean.
    apply andb_true_iff in Hclean as [Hfield Hclean].
    apply andb_true_iff in Hfield as [Hname Hx].
    set (sep := if first then EmptyString else ",").
    set (str := before +:+ renderResults first ((name, x) :: rs)).
    assert (Hvalue : str = (before +:+ sep +:+ name +:+ "=") +:+ render x +:+
                           renderResults false rs).
    { unfold str. cbn [renderResults]. fold sep. regroup. }
    assert (Hnext : str = ((before +:+ sep +:+ name +:+ "=") +:+ render x) +:+
                          renderResults false rs).
    { rewrite Hvalue. regroup. }
    assert (Hvar : str = (before +:+ sep) +:+ name +:+
                         String "=" (render x +:+ renderResults false rs)).
    { rewrite Hvalue. regroup. }
    destruct (name_head name Hname) as (c & name0 & Ename & Hc).
    assert (Hhead : str = before +:+ sep +:+
                          String c (name0 +:+ "=" +:+ render x +:+
                                    renderResults false rs)).
    { rewrite Hvalue, Ename. regroup. }
    destruct (name_start_not_closer c Hc) as (Hbrace & _ & Hsepc).
    destruct (separators_at before first c
                (name0 +:+ "=" +:+ render x +:+ renderResults false rs)
                "}" Hsepc Hbrace eq_refl) as (H1 & _ & H3 & H4 & _).
    cbv zeta in H1, H3, H4. fold sep in H1, H3, H4.
    rewrite <- Hhead in H1, H3, H4.
    change (before +:+ renderResults first ((name, x) :: rs)) with str.
    rewrite resultsLoop_eq, H1. cbv zeta. rewrite H3, H4.
    rewrite Hvar at 1. rewrite (name_at (before +:+ sep) name _ Hname).
    assert (Hat : (String.length (before +:+ sep) + (String.length name + 1))%nat =
                  String.length (before +:+ sep +:+ name +:+ "=")).
    { rewrite !PathMapperFacts.length_append. simpl. lia. }
    rewrite Hat. rewrite Hvalue at 1.
    rewrite (value_parsed fuel x _ _ Hx ltac:(lia)).
    rewrite <- PathMapperFacts.length_append.
    rewrite Hnext.
    rewrite (IH false fuel _ (acc ++ [(name, x)]) Hclean ltac:(lia)).
    rewrite <- app_assoc. reflexivity.
Qed.

Lemma parseResults_fields (fuel : nat) (rs : list MIResult) :
  cleanFields rs = true ->
  (sizeFields rs <= fuel)%nat ->
  parseResults fuel (renderResults true rs) = Some rs.
Proof.
  intros Hclean Hsize. unfold parseResults.
  exact (resultsLoop_fields rs true fuel EmptyString [] Hclean Hsize).
Qed.

Lemma trim_kept (s : string) (c z : ascii) (rest front : string) :
  s = String c rest -> s = front +:+ String z EmptyString ->
  is_space c = false -> is_space z = false ->
  trim s = s.
Proof.
  intros Hhead Hlast Hc Hz. destruct front as [|c' front].
  - change (EmptyString +:+ String z EmptyString) with (String z EmptyString) in Hlast.
    rewrite Hlast. apply trim_single, Hz.
  - rewrite PathMapperFacts.append_cons in Hlast.
    assert (c = c') by congruence. subst c'.
    rewrite Hlast. apply trim_fixed; assumption.
Qed.

(** *** Whole lines with a class *)

Lemma last_char (p : ascii -> bool) (s : string) :
  s <> EmptyString -> all_chars p s = true ->
  exists front z, s = front +:+ String z EmptyString /\ p z = true.
Proof.
  induction s as [|c s IH]; intros Hne Hall; [congruence|].
  simpl in Hall. apply andb_true_iff in Hall as [Hc Hs].
  destruct s as [|d s].
  - exists EmptyString, c. split; [reflexivity|exact Hc].
  - destruct IH as (front & z & Heq & Hz); [discriminate|exact Hs|].
    exists (String c front), z. rewrite Heq. split; [reflexivity|exact Hz].
Qed.

Lemma class_char_not_space (c : ascii) :
  is_lower c || Ascii.eqb c "-" = true -> is_space c = false.
Proof. by_character c. Qed.

Lemma value_ind (P : MIValue -> Prop) :
  (forall s, P (MIString s)) ->
  (forall rs, Forall (fun r => P (snd r)) rs -> P (MITuple rs)) ->
  (forall vs, Forall P vs -> P (MIList vs)) ->
  forall v, P v.
Proof.
  intros Hs Ht Hl. fix IH 1. intros [s|rs|vs].
  - apply Hs.
  - apply Ht. induction rs as [|[name x] rs IHrs]; constructor; [apply IH|exact IHrs].
  - apply Hl. induction vs as [|x vs IHvs]; constructor; [apply IH|exact IHvs].
Qed.

Lemma name_visible (name : string) : is_name name = true -> dot_star name = true.
Proof.
  intros Hname. destruct name as [|c name]; [discriminate|].
  simpl in Hname. apply andb_true_iff in Hname as [Hc Hn].
  unfold dot_star. simpl. rewrite (name_start_visible c Hc). simpl.
  exact (all_chars_impl _ _ name name_char_visible Hn).
Qed.

Lemma dot_star_app (a b : string) : dot_star (a +:+ b) = dot_star a && dot_star b.
Proof. apply all_chars_app. Qed.

Lemma separator_visible (first : bool) :
  dot_star (if first then EmptyString else ",") = true.
Proof. destruct first; reflexivity. Qed.

(** The text of a clean value holds no line terminator. *)
Lemma render_visible (v : MIValue) : clean v = true -> dot_star (render v) = true.
Proof.
  induction v as [s|rs IH|vs IH] using value_ind; intros Hclean.
  - cbn [clean] in Hclean. apply andb_true_iff in Hclean as [_ Hdot].
    unfold render, quoted.
    change (String dquote (s +:+ String dquote EmptyString))
      with (String dquote EmptyString +:+ s +:+ String dquote EmptyString).
    rewrite !dot_star_app, Hdot. reflexivity.
  - rewrite clean_tuple in Hclean. rewrite render_tuple.
    change (String "{" (renderFields true rs)) with ("{" +:+ renderFields true rs).
    rewrite dot_star_app. change (dot_star "{") with true. cbn [andb].
    enough (H : forall first, dot_star (renderFields first rs) = true) by apply H.
    induction rs as [|[name x] rs IHrs]; intros first; [reflexivity|].
    unfold cleanFields in Hclean. cbn [forallb fst snd] in Hclean.
    apply andb_true_iff in Hclean as [Hfield Hclean].
    apply andb_true_iff in Hfield as [Hname Hx].
    apply Forall_cons in IH as [IHx IH]. cbn [snd] in IHx. cbn [renderFields].
    rewrite !dot_star_app, separator_visible, (name_visible name Hname), (IHx Hx),
      (IHrs IH Hclean). reflexivity.
  - rewrite clean_list in Hclean. rewrite render_list.
    change (String "[" (renderItems true vs)) with ("[" +:+ renderItems true vs).
    rewrite dot_star_app. change (dot_star "[") with true. cbn [andb].
    enough (H : forall first, dot_star (renderItems first vs) = true) by apply H.
    induction vs as [|x vs IHvs]; intros first; [reflexivity|].
    unfold cleanItems in Hclean. cbn [forallb] in Hclean.
    apply andb_true_iff in Hclean as [Hx Hclean].
    apply Forall_cons in IH as [IHx IH]. cbn [renderItems].
    rewrite !dot_star_app, separator_visible, (IHx Hx), (IHvs IH Hclean). reflexivity.
Qed.

Lemma results_visible (rs : list MIResult) :
  forall first, cleanFields rs = true -> dot_star (renderResults first rs) = true.
Proof.
  induction rs as [|[name x] rs IH]; intros first Hclean; [reflexivity|].
  unfold cleanFields in Hclean. cbn [forallb fst snd] in Hclean.
  apply andb_true_iff in Hclean as [Hfield Hclean].
  apply andb_true_iff in Hfield as [Hname Hx].
  cbn [renderResults].
  rewrite !dot_star_app, separator_visible, (name_visible name Hname),
    (render_visible x Hx), (IH false Hclean). reflexivity.
Qed.

(** The text of a value ends with a double quote, a brace or a bracket. *)
Lemma render_end (v : MIValue) :
  exists front z, render v = front +:+ String z EmptyString /\ is_space z = false.
Proof.
  destruct v as [s|rs|vs].
  - exists (String dquote s), dquote. split; reflexivity.
  - rewrite render_tuple.
    assert (H : forall first, exists front,
                renderFields first rs = front +:+ String "}" EmptyString).
    { induction rs as [|[name x] rs IH]; intros first.
      - exists EmptyString. reflexivity.
      - destruct (IH false) as [front Hfront]. cbn [renderFields]. rewrite Hfront.
        eexists. rewrite <- !PathMapperFacts.append_assoc. reflexivity. }
    destruct (H true) as [front ->]. exists (String "{" front), "}"%char.
    split; reflexivity.
  - rewrite render_list.
    assert (H : forall first, exists front,
                renderItems first vs = front +:+ String "]" EmptyString).
    { induction vs as [|x vs IH]; intros first.
      - exists EmptyString. reflexivity.
      - destruct (IH false) as [front Hfront]. cbn [renderItems]. rewrite Hfront.
        eexists. rewrite <- !PathMapperFacts.append_assoc. reflexivity. }
    destruct (H true) as [front ->]. exists (String "[" front), "]"%char.
    split; reflexivity.
Qed.

(** The last character of a class followed by fields is no white space. *)
Lemma class_fields_end (cls : string) (rs : list MIResult) :
  is_class cls = true ->
  exists front z,
    cls +:+ renderResults false rs = front +:+ String z EmptyString /\ is_space z = false.
Proof.
  intros Hcls. apply andb_true_iff in Hcls as [Hcls0 Hcls].
  assert (Hne : cls <> EmptyString) by (destruct cls; discriminate).
  destruct (last_char _ cls Hne Hcls) as (front & z & Heq & Hz).
  apply class_char_not_space in Hz. clear Hcls0 Hcls Hne.
  revert cls front z Heq Hz.
  induction rs as [|[name x] rs IH]; intros cls front z Heq Hz.
  - exists front, z. cbn [renderResults]. rewrite append_empty_r. split; assumption.
  - destruct (render_end x) as (front' & z' & Hx & Hz').
    destruct (IH (cls +:+ "," +:+ name +:+ "=" +:+ render x)
                 (cls +:+ "," +:+ name +:+ "=" +:+ front') z') as (f & y & Hf & Hy).
    + rewrite Hx. regroup.
    + exact Hz'.
    + exists f, y. split; [|exact Hy]. rewrite <- Hf. cbn [renderResults]. regroup.
Qed.

Lemma sigil_char (ty : MIRecordType) :
  is_stream ty = false ->
  exists s : ascii,
    sigil ty = String s EmptyString /\ is_space s = false /\ is_digit s = false /\
    negb (is_line_terminator s) = true.
Proof.
  destruct ty; try discriminate; intros _; eexists; (split; [reflexivity|]);
    repeat split.
Qed.

(** A line with a class: an optional token, the sigil of a result or
    async record, a class, and fields, each after a comma. *)
Lemma class_line_parsed (fuel : nat) (ty : MIRecordType) (digits cls : string)
                        (rs : list MIResult) :
  is_stream ty = false ->
  all_chars is_digit digits = true ->
  is_class cls = true ->
  cleanFields rs = true ->
  (sizeFields rs <= fuel)%nat ->
  parseLine fuel (digits +:+ sigil ty +:+ cls +:+ renderResults false rs) =
    Some (Some (mkRecord ty
                         (if truthy digits then Some (digits_value 0 digits) else None)
                         (Some cls) (Some rs) None)).
Proof.
  intros Hty Hdigits Hclass Hvalid Hfuel.
  destruct (sigil_char ty Hty) as (s & Hs & Hspace & Hnodigit & Hvis).
  destruct (class_fields_end cls rs Hclass) as (front & z & Hfront & Hz).
  apply andb_true_iff in Hclass as [Hcls0 Hcls].
  rewrite Hs.
  set (rest := String s (cls +:+ renderResults false rs)).
  change (String s EmptyString +:+ cls +:+ renderResults false rs) with rest.
  assert (Hfields_dot : dot_star (renderResults true rs) = true)
    by apply (results_visible rs true Hvalid).
  assert (Hrest_dot : dot_star rest = true).
  { unfold rest.
    change (String s (cls +:+ renderResults false rs))
      with (String s EmptyString +:+ cls +:+ renderResults false rs).
    rewrite !dot_star_app, (results_visible rs false Hvalid).
    unfold dot_star. rewrite (all_chars_impl _ _ cls class_char_visible Hcls).
    simpl. rewrite Hvis. reflexivity. }
  assert (Htoken : tokenMatch (digits +:+ rest) =
                   if truthy digits then Some (digits, rest) else None).
  { unfold tokenMatch.
    rewrite (span_all is_digit digits rest Hdigits) by exact Hnodigit.
    destruct digits; [reflexivity|]. rewrite Hrest_dot. reflexivity. }
  assert (Hlast : digits +:+ rest = (digits +:+ String s front) +:+ String z EmptyString).
  { unfold rest. rewrite Hfront, !PathMapperFacts.append_assoc. reflexivity. }
  assert (Htrim : trim (digits +:+ rest) = digits +:+ rest).
  { destruct digits as [|d digits].
    - apply (trim_kept _ s z (cls +:+ renderResults false rs)
                       (EmptyString +:+ String s front));
        [reflexivity|exact Hlast|exact Hspace|exact Hz].
    - simpl in Hdigits. apply andb_true_iff in Hdigits as [Hd _].
      apply (trim_kept _ d z (digits +:+ rest) (String d digits +:+ String s front));
        [reflexivity|exact Hlast|apply digit_not_space, Hd|exact Hz]. }
  assert (Hsome : negb (truthy (digits +:+ rest)) ||
                  (String.length (digits +:+ rest) =? 0)%nat = false).
  { destruct digits; reflexivity. }
  assert (Hclass : classMatch (drop 1 rest) = Some (cls, renderResults true rs)).
  { unfold rest. change (drop 1 (String s (cls +:+ renderResults false rs)))
      with (cls +:+ renderResults false rs).
    unfold classMatch.
    rewrite (span_all _ cls (renderResults false rs) Hcls)
      by (destruct rs as [|[name x] rs]; [exact I|reflexivity]).
    destruct cls; [discriminate|].
    revert Hfields_dot. destruct rs as [|[name x] rs]; intros Hfields_dot.
    - reflexivity.
    - change (renderResults false ((name, x) :: rs))
        with (String "," (renderResults true ((name, x) :: rs))).
      cbv iota zeta. change (Ascii.eqb "," ",") with true. cbv iota.
      match goal with
      | |- (if ?b then _ else _) = _ =>
          replace b with true by (symmetry; exact Hfields_dot)
      end.
      reflexivity. }
  assert (Hrecord : forall tok,
            parseClassRecord fuel ty rest tok =
              Some (mkRecord ty tok (Some cls) (Some rs) None)).
  { intros tok. unfold parseClassRecord. rewrite Hclass.
    destruct (truthy (renderResults true rs)) eqn:Ht.
    - rewrite (parseResults_fields fuel rs Hvalid Hfuel). reflexivity.
    - destruct rs as [|[name x] rs]; [reflexivity|].
      exfalso. unfold cleanFields in Hvalid. cbn [forallb fst snd] in Hvalid.
      apply andb_true_iff in Hvalid as [Hfield _].
      apply andb_true_iff in Hfield as [Hname _].
      destruct name; [discriminate Hname|discriminate Ht]. }
  assert (Hdispatch : forall tok,
            (if startsWith "^" rest then Some <$> parseResultRecord fuel rest tok
             else if startsWith "*" rest then Some <$> parseAsyncRecord fuel rest TExec tok
             else if startsWith "+" rest then Some <$> parseAsyncRecord fuel rest TStatus tok
             else if startsWith "=" rest then Some <$> parseAsyncRecord fuel rest TNotify tok
             else if startsWith "~" rest then Some (Some (parseStreamRecord rest TConsole))
             else if startsWith "@" rest then Some (Some (parseStreamRecord rest TTarget))
             else if startsWith "&" rest then Some (Some (parseStreamRecord rest TLog))
             else Some None) =
            Some (Some (mkRecord ty tok (Some cls) (Some rs) None))).
  { intros tok. unfold parseResultRecord, parseAsyncRecord.
    destruct ty; try discriminate Hty; injection Hs as <-;
      cbn [startsWith Ascii.eqb Bool.eqb andb]; rewrite Hrecord; reflexivity. }
  unfold parseLine. rewrite Htrim, Hsome, Htoken.
  destruct (truthy digits) eqn:Ht.
  - cbv zeta iota. apply Hdispatch.
  - destruct digits; [|discriminate Ht].
    change (EmptyString +:+ rest) with rest. cbv zeta iota. apply Hdispatch.
Qed.

Lemma digit_visible (c : ascii) :
  is_digit c = true -> negb (is_line_terminator c) = true.
Proof. by_character c. Qed.

Lemma record_line_visible (ty : MIRecordType) (digits cls : string)
                          (rs : list MIResult) :
  is_stream ty = false ->
  all_chars is_digit digits = true ->
  is_class cls = true ->
  cleanFields rs = true ->
  dot_star (digits +:+ sigil ty +:+ cls +:+ renderResults false rs) = true.
Proof.
  intros Hty Hdigits Hclass Hvalid.
  destruct (sigil_char ty Hty) as (s & -> & _ & _ & Hvis).
  apply andb_true_iff in Hclass as [_ Hcls].
  rewrite !dot_star_app, (results_visible rs false Hvalid).
  unfold dot_star.
  rewrite (all_chars_impl _ _ digits digit_visible Hdigits),
    (all_chars_impl _ _ cls class_char_visible Hcls).
  simpl. rewrite Hvis. reflexivity.
Qed.

(** The value that [findResult] returns for a name is that of the first
    field of the name. *)
Lemma field_found (before after : list MIResult) (name : string) (x : MIValue) :
  (forall field, field ∈ before -> fst field <> name) ->
  findResult (Some (before ++ (name, x) :: after)) name = Some x.
Proof.
  induction before as [|[n t] before IH]; intros Hfirst; simpl.
  - unfold variable. simpl. rewrite String.eqb_refl. reflexivity.
  - unfold variable. simpl.
    destruct (String.eqb_spec n name) as [->|_].
    + exfalso. apply (Hfirst (name, t)); [left|reflexivity].
    + apply IH. intros field Hin. apply Hfirst. right. exact Hin.
Qed.

(** The text of a value is read back as the value. A value is a string,
    a tuple of named values or a list of values, nested to any depth; its
    text puts a string between double quotes, a tuple between braces and a
    list between brackets, with commas between the elements. When the strings
    have no backslash, double quote or line terminator and the fields have
    names, the parser returns the value itself, wherever the text stands in
    a longer text and whatever follows it, and the index it returns is that
    of the character after the text. One unit of fuel for each value and
    for each turn of a loop is enough. *)
Theorem value_text_read_back (fuel : nat) (v : MIValue) (before tail : string) :
  clean v = true ->
  (size v <= fuel)%nat ->
  parseValue fuel (before +:+ render v +:+ tail) (String.length before)
    = Some (v, (String.length before + String.length (render v))%nat) /\
  parseValue fuel (render v) 0 = Some (v, String.length (render v)).
Proof.
  intros Hclean Hsize. split; [apply value_parsed; assumption|].
  pose proof (value_parsed fuel v EmptyString EmptyString Hclean Hsize) as H.
  rewrite append_empty_r in H. exact H.
Qed.

Lemma value_text_read_back_witness :
  parseValue 11 (lit "bkpt={number='1',thread-groups=['i1','i2']},time='0'") 5 =
    Some (MITuple [("number", MIString "1");
                   ("thread-groups", MIList [MIString "i1"; MIString "i2"])], 43%nat).
Proof.
  apply (value_text_read_back 11
           (MITuple [("number", MIString "1");
                     ("thread-groups", MIList [MIString "i1"; MIString "i2"])])
           "bkpt=" (lit ",time='0'")).
  - reflexivity.
  - vm_compute. lia.
Defined.

(** A result or async line that consists of an optional token, the sigil,
    a class and fields, each after a comma, is read as the record of that
    type and class, with the number of the token and with these fields in
    order, whatever the depth of their values, when the strings of the
    values have no backslash, double quote or line terminator. The digits of
    the token stand for a number below 2^53, which [parseInt] reads exactly.
    [findResult] then returns, for a name, the value of the first field of
    that name. *)
Theorem record_line_parsed (fuel : nat) (ty : MIRecordType) (digits cls : string)
                           (rs : list MIResult) :
  is_stream ty = false ->
  all_chars is_digit digits = true ->
  (digits_value 0 digits < 2 ^ 53)%Z ->
  is_class cls = true ->
  cleanFields rs = true ->
  (sizeFields rs <= fuel)%nat ->
  exists record,
    parseLine fuel (digits +:+ sigil ty +:+ cls +:+ renderResults false rs)
      = Some (Some record) /\
    record = mkRecord ty (if truthy digits then Some (digits_value 0 digits) else None)
                      (Some cls) (Some rs) None /\
    (forall before name x after,
       rs = before ++ (name, x) :: after ->
       (forall field, field ∈ before -> fst field <> name) ->
       findResult (results record) name = Some x).
Proof.
  intros Hty Hdigits Hexact Hclass Hvalid Hfuel.
  eexists. split; [|split; [reflexivity|]].
  - apply class_line_parsed; assumption.
  - intros before name x after -> Hfirst. cbn [results].
    apply field_found, Hfirst.
Qed.

Lemma record_line_parsed_witness :
  exists record,
    parseLine 16
      (lit "7^done,bkpt={number='1',file='main.c',line='12',thread-groups=['i1']}")
      = Some (Some record) /\
    token record = Some 7%Z /\
    getGdbBreakpointId record = Some 1%Z.
Proof.
  destruct (record_line_parsed 16 TResult "7" "done"
              [("bkpt", MITuple [("number", MIString "1"); ("file", MIString "main.c");
                                 ("line", MIString "12");
                                 ("thread-groups", MIList [MIString "i1"])])])
    as (record & Hparse & Hrecord & _); try reflexivity.
  - vm_compute. lia.
  - exists record. split; [exact Hparse|]. rewrite Hrecord. split; reflexivity.
Defined.

Lemma digits_value_app (a b : string) :
  forall acc, digits_value acc (a +:+ b) = digits_value (digits_value acc a) b.
Proof.
  induction a as [|c a IH]; intros acc; [reflexivity|].
  rewrite PathMapperFacts.append_cons. simpl. apply IH.
Qed.

Lemma pretty_N_char_digit (d : N) :
  (d < 10)%N ->
  is_digit (pretty_N_char d) = true /\ digit_value (pretty_N_char d) = Z.of_N d.
Proof.
  intros Hd.
  assert (d = 0 \/ d = 1 \/ d = 2 \/ d = 3 \/ d = 4 \/ d = 5 \/ d = 6 \/ d = 7 \/
          d = 8 \/ d = 9)%N as H by lia.
  repeat (destruct H as [->|H]; [split; reflexivity|]).
  subst. split; reflexivity.
Qed.

(** The decimal digits that [pretty] puts in front of [s], and the number
    they are read back as. *)
Lemma pretty_N_go_digits (x : N) :
  forall s,
    exists ds,
      pretty_N_go x s = ds +:+ s /\
      all_chars is_digit ds = true /\
      (forall acc, digits_value acc ds =
                   (acc * 10 ^ Z.of_nat (String.length ds) + Z.of_N x)%Z) /\
      (x <> 0%N -> ds <> EmptyString).
Proof.
  induction (N.lt_wf_0 x) as [x _ IH]; intros s.
  destruct (decide (x = 0%N)) as [->|Hpos].
  - exists EmptyString. rewrite pretty_N_go_0.
    repeat split; [intros acc; simpl; lia|congruence].
  - rewrite pretty_N_go_step by lia.
    destruct (IH (x `div` 10)%N (N.div_lt x 10 ltac:(lia) ltac:(lia))
                 (String (pretty_N_char (x `mod` 10)) s))
      as (ds & Heq & Hdigits & Hvalue & _).
    destruct (pretty_N_char_digit (x `mod` 10)%N) as [Hc Hv];
      [apply N.mod_lt; lia|].
    exists (ds +:+ String (pretty_N_char (x `mod` 10)) EmptyString).
    split; [|split; [|split]].
    + rewrite Heq, PathMapperFacts.append_assoc. reflexivity.
    + rewrite all_chars_app, Hdigits. simpl. rewrite Hc. reflexivity.
    + intros acc. rewrite digits_value_app, Hvalue. simpl.
      rewrite Hv, PathMapperFacts.length_append. simpl.
      rewrite Nat2Z.inj_add, Z.pow_add_r by lia.
      pose proof (N.div_mod x 10 ltac:(lia)) as Hdm.
      assert (Hz : Z.of_N x = (10 * Z.of_N (x `div` 10) + Z.of_N (x `mod` 10))%Z) by lia.
      rewrite Hz. change (10 ^ Z.of_nat 1)%Z with 10%Z. lia.
    + intros _ H. destruct ds; discriminate H.
Qed.

(** The token of a command, as it is written, is a run of digits that is
    read back as the same number. *)
Lemma token_read_back (tok : Z) :
  (0 <= tok)%Z ->
  all_chars is_digit (pretty tok) = true /\
  truthy (pretty tok) = true /\
  digits_value 0 (pretty tok) = tok.
Proof.
  intros Hpos. destruct tok as [|p|p]; [repeat split| |lia].
  unfold pretty, pretty_Z, pretty, pretty_positive, pretty, pretty_N.
  destruct (decide (N.pos p = 0%N)) as [H|_]; [discriminate H|].
  destruct (pretty_N_go_digits (N.pos p) EmptyString) as (ds & Heq & Hdigits & Hvalue & Hne).
  rewrite Heq, append_empty_r.
  split; [exact Hdigits|]. split.
  - destruct ds; [exfalso; apply Hne; [discriminate|reflexivity]|reflexivity].
  - rewrite Hvalue. simpl. lia.
Qed.

End LineFacts.
(** ** Handlers as asynchronous functions *)

Module AsyncFacts.
Import Js GDBMI Session Requests.

Lemma await_closed (command : string) (w : Run) :
  gdbChannel (session w) = false ->
  awaitGDBCommand command w = (Threw "GDB channel not available", w).
Proof.
  intros Hch. unfold awaitGDBCommand, sendGDBCommand. rewrite Hch. reflexivity.
Qed.

(** An awaited command on an open channel: what it yields, the session it
    leaves, and what it adds to the effects. *)
Lemma await_exact (command : string) (w : Run) :
  gdbChannel (session w) = true ->
  exists fx,
    awaitGDBCommand command w =
      (match answered (hd AnsNone (script w)) (tokenCounter (session w)) command with
       | inl record => Returned record
       | inr msg => Threw msg
       end,
       mkRun (afterCommand (session w)) (tl (script w)) (effects w ++ fx)) /\
    written fx = [fullCommand (tokenCounter (session w)) command +:+ String newline EmptyString] /\
    Correlation.sentTokens fx = [tokenCounter (session w)].
Proof.
  intros Hch. unfold awaitGDBCommand, sendGDBCommand, getNextToken.
  rewrite Hch. simpl.
  destruct (script w) as [|[cls rs|] rest]; simpl.
  - unfold commandTimeout. simpl. rewrite lookup_insert_eq.
    simpl. destruct (decide (tokenCounter (session w) = tokenCounter (session w)));
      [|congruence].
    eexists. split; [reflexivity|]. split; reflexivity.
  - erewrite SessionFacts.matching_record_retires;
      [|reflexivity|reflexivity|simpl; apply lookup_insert_eq].
    simpl.
    destruct (class_is _ "error"); simpl;
      (destruct (decide (tokenCounter (session w) = tokenCounter (session w)));
       [|congruence]);
      (eexists; split; [reflexivity|]; split; reflexivity).
  - unfold commandTimeout. simpl. rewrite lookup_insert_eq.
    simpl. destruct (decide (tokenCounter (session w) = tokenCounter (session w)));
      [|congruence].
    eexists. split; [reflexivity|]. split; reflexivity.
Qed.

(** The session after an awaited command, whether the channel is open or
    not. *)
Lemma await_session (command : string) (w : Run) :
  fst (awaitGDBCommand command w) <> Hung /\
  session (snd (awaitGDBCommand command w)) =
    if gdbChannel (session w) then afterCommand (session w) else session w.
Proof.
  destruct (gdbChannel (session w)) eqn:Hch.
  - destruct (await_exact command w Hch) as (fx & -> & _). simpl.
    split; [|reflexivity]. destruct (answered _ _ _); discriminate.
  - rewrite (await_closed command w Hch). split; [discriminate|reflexivity].
Qed.

(** *** Rules for [keeps] and [never_throws] *)

Lemma keeps_ret {A} (P : Session -> Prop) (a : A) : keeps P (ret a).
Proof. intros w HP. exact HP. Qed.

Lemma keeps_getSession (P : Session -> Prop) : keeps P getSession.
Proof. intros w HP. exact HP. Qed.

Lemma keeps_modify (P : Session -> Prop) (f : Session -> Session) :
  (forall st, P st -> P (f st)) -> keeps P (modify f).
Proof. intros Hf w HP. simpl. apply Hf, HP. Qed.

Lemma keeps_bind {A B} (P : Session -> Prop) (m : Async A) (k : A -> Async B) :
  keeps P m -> (forall a, keeps P (k a)) -> keeps P (bind m k).
Proof.
  intros Hm Hk w HP. unfold bind. specialize (Hm w HP).
  destruct (m w) as [[a|msg|] w1]; simpl in *; [|exact Hm|exact Hm].
  apply Hk, Hm.
Qed.

Lemma keeps_try_catch {A} (P : Session -> Prop) (m : Async A) (h : string -> Async A) :
  keeps P m -> (forall msg, keeps P (h msg)) -> keeps P (try_catch m h).
Proof.
  intros Hm Hh w HP. unfold try_catch. specialize (Hm w HP).
  destruct (m w) as [[a|msg|] w1]; simpl in *; [exact Hm| |exact Hm].
  apply Hh, Hm.
Qed.

Lemma keeps_await (P : Session -> Prop) (command : string) :
  (forall st, gdbChannel st = true -> P st -> P (afterCommand st)) ->
  keeps P (awaitGDBCommand command).
Proof.
  intros Hafter w HP. rewrite (proj2 (await_session command w)).
  destruct (gdbChannel (session w)) eqn:Hch; [apply Hafter; assumption|exact HP].
Qed.

Lemma never_throws_ret {A} (a : A) : never_throws (ret a).
Proof. intros w msg. discriminate. Qed.

Lemma never_throws_getSession : never_throws getSession.
Proof. intros w msg. discriminate. Qed.

Lemma never_throws_modify (f : Session -> Session) : never_throws (modify f).
Proof. intros w msg. discriminate. Qed.

Lemma never_throws_bind {A B} (m : Async A) (k : A -> Async B) :
  never_throws m -> (forall a, never_throws (k a)) -> never_throws (bind m k).
Proof.
  intros Hm Hk w msg. unfold bind. specialize (Hm w).
  destruct (m w) as [[a|msg'|] w1]; simpl in *;
    [apply Hk|exfalso; apply (Hm msg'); reflexivity|discriminate].
Qed.

(** A [try] whose [catch] block throws nothing throws nothing, whatever
    its body does. *)
Lemma never_throws_try_catch {A} (m : Async A) (h : string -> Async A) :
  (forall msg, never_throws (h msg)) -> never_throws (try_catch m h).
Proof.
  intros Hh w msg. unfold try_catch.
  destruct (m w) as [[a|msg'|] w1]; simpl; [discriminate|apply Hh|discriminate].
Qed.

Create HintDb keeps.
Create HintDb quiet.

#[export] Hint Resolve keeps_ret keeps_getSession keeps_bind keeps_try_catch : keeps.
#[export] Hint Resolve never_throws_ret never_throws_getSession never_throws_modify
  never_throws_bind never_throws_try_catch : quiet.

End AsyncFacts.
(** ** What the request handlers keep *)

Module HandlerFacts.
Import Js GDBMI Session Requests AsyncFacts.

Local Open Scope async_scope.

Section Kept.
Variable P : Session -> Prop.
Hypothesis P_after : forall st, gdbChannel st = true -> P st -> P (afterCommand st).

Lemma keeps_command (command : string) : keeps P (awaitGDBCommand command).
Proof. apply keeps_await, P_after. Qed.




Lemma keeps_deleteLoop (gdbIds : list Z) : keeps P (deleteLoop gdbIds).
Proof.
  induction gdbIds as [|g gs IH]; simpl; [apply keeps_ret|].
  apply keeps_bind; [apply keeps_command|intros _; exact IH].
Qed.





Section OneFile.
Variable path : string.
Hypothesis P_remember :
  forall l gdbId st, P st -> P (rememberGdbBreakpoint path (Some l) gdbId st).

Lemma keeps_insertLoop (remotePath : string) (sbs : list SourceBreakpoint) :
  forall acc, keeps P (insertLoop path remotePath sbs acc).
Proof.
  induction sbs as [|sb sbs IH]; intros acc; simpl; [apply keeps_ret|].
  apply keeps_bind; [|intros acc'; apply IH].
  apply keeps_try_catch; [|intros; apply keeps_ret].
  apply keeps_bind; [apply keeps_command|intros record].
  destruct (getGdbBreakpointId record) as [gdbId|]; [|apply keeps_ret].
  apply keeps_bind; [apply keeps_modify, P_remember|intros; apply keeps_ret].
Qed.

Lemma keeps_flushFile (remotePath : string) (bps : list SourceBreakpoint) :
  keeps P (flushFile path remotePath bps).
Proof.
  induction bps as [|bp bps IH]; simpl; [apply keeps_ret|].
  apply keeps_bind; [|intros _; exact IH].
  unfold flushOne. apply keeps_try_catch; [|intros; apply keeps_ret].
  apply keeps_bind; [apply keeps_command|intros record].
  destruct (getGdbBreakpointId record) as [gdbId|]; [|apply keeps_ret].
  apply keeps_modify, P_remember.
Qed.

Hypothesis P_forget :
  forall st, P st -> P (with_gdbBreakpoints (JsMap.delete path (gdbBreakpoints st)) st).
Hypothesis P_reported :
  forall bs st, P st -> P (with_breakpoints (JsMap.set path bs (breakpoints st)) st).
Hypothesis P_queued :
  forall sbs st,
    P st -> P (with_pendingBreakpoints (JsMap.set path sbs (pendingBreakpoints st)) st).

Lemma keeps_setBreakpointsRequest (args : SetBreakpointsArguments) :
  source_path args = Some path -> keeps P (setBreakpointsRequest args).
Proof.
  intros Hpath. unfold setBreakpointsRequest. rewrite Hpath.
  destruct (negb (truthy path)); [apply keeps_ret|].
  apply keeps_bind; [apply keeps_getSession|intros st].
  destruct (negb (gdbChannel st)).
  - destruct (arg_breakpoints args) as [sbs|]; [|apply keeps_ret].
    apply keeps_bind; [apply keeps_modify, P_queued|intros; apply keeps_ret].
  - apply keeps_bind; [|intros _].
    + destruct (JsMap.get path (gdbBreakpoints st)) as [existing|]; [|apply keeps_ret].
      apply keeps_bind; [apply keeps_deleteLoop|intros _].
      apply keeps_modify, P_forget.
    + apply keeps_bind; [|intros bs].
      * destruct (arg_breakpoints args) as [sbs|]; [apply keeps_insertLoop|apply keeps_ret].
      * apply keeps_bind; [apply keeps_modify, P_reported|intros; apply keeps_ret].
Qed.

End OneFile.

Hypothesis P_remember_any :
  forall path l gdbId st, P st -> P (rememberGdbBreakpoint path (Some l) gdbId st).
Hypothesis P_cleared : forall st, P st -> P (with_pendingBreakpoints [] st).

Lemma keeps_flushPending (entries : list (string * list SourceBreakpoint)) :
  keeps P (flushPending entries).
Proof.
  induction entries as [|[path bps] entries IH]; simpl; [apply keeps_ret|].
  apply keeps_bind; [apply keeps_getSession|intros st].
  apply keeps_bind; [|intros _; exact IH].
  apply keeps_flushFile. apply P_remember_any.
Qed.

Lemma keeps_configurationDoneRequest (initialized : bool)
                                     (configuration : option RemoteGDBConfiguration) :
  keeps P (configurationDoneRequest initialized configuration).
Proof.
  unfold configurationDoneRequest.
  destruct (negb initialized); [apply keeps_ret|].
  apply keeps_try_catch; [|intros; apply keeps_ret].
  apply keeps_bind; [apply keeps_getSession|intros st].
  apply keeps_bind; [|intros _].
  - destruct (pendingBreakpoints st) as [|entry entries]; [apply keeps_ret|].
    apply keeps_bind; [apply keeps_flushPending|intros _].
    apply keeps_modify, P_cleared.
  - apply keeps_bind; [|intros; apply keeps_ret].
    destruct configuration as [config|]; [|apply keeps_ret].
    destruct (_ && _); [|apply keeps_ret].
    apply keeps_bind; [apply keeps_command|intros; apply keeps_ret].
Qed.

End Kept.

Local Close Scope async_scope.

End HandlerFacts.
(** ** Properties of the request handlers *)

Module RequestFacts.
Import Js GDBMI Session Requests AsyncFacts HandlerFacts.

(** *** No command is left pending *)







(** *** No exception leaves a handler *)

Lemma never_throws_attempt (command : string) : never_throws (attempt command).
Proof. unfold attempt. auto with quiet. Qed.

Lemma never_throws_attemptAll (commands : list string) :
  never_throws (attemptAll commands).
Proof.
  induction commands as [|c cs IH]; simpl; [apply never_throws_ret|].
  apply never_throws_bind; [apply never_throws_attempt|intros _; exact IH].
Qed.

Lemma never_throws_applySetup (config : RemoteGDBConfiguration) :
  never_throws (applySetup config).
Proof.
  unfold applySetup.
  repeat (apply never_throws_bind; [|intros _]);
    repeat match goal with
           | |- never_throws (match ?x with _ => _ end) => destruct x
           end;
    auto using never_throws_ret, never_throws_attempt, never_throws_attemptAll.
Qed.

Lemma never_throws_insertLoop (path remotePath : string) (sbs : list SourceBreakpoint) :
  forall acc, never_throws (insertLoop path remotePath sbs acc).
Proof.
  induction sbs as [|sb sbs IH]; intros acc; simpl; [apply never_throws_ret|].
  apply never_throws_bind; [|intros acc'; apply IH].
  apply never_throws_try_catch. intros; apply never_throws_ret.
Qed.

(** What follows the deletions in a request for breakpoints. *)
Lemma never_throws_insertions (path remotePath : string)
                              (sbs : option (list SourceBreakpoint)) :
  never_throws
    (bind match sbs with
          | Some sbs => insertLoop path remotePath sbs []
          | None => ret []
          end
          (fun breakpoints =>
             bind (modify (fun s => with_breakpoints
                                      (JsMap.set path breakpoints (Session.breakpoints s)) s))
                  (fun _ => ret breakpoints))).
Proof.
  apply never_throws_bind; [|intros bs; auto with quiet].
  destruct sbs; [apply never_throws_insertLoop|apply never_throws_ret].
Qed.

(** No handler whose body is wrapped in [try] and [catch] passes an
    exception on to its caller: a command that is refused, that is not
    answered before its timer fires or that cannot be sent is reported in
    the response, or passed over, and this whatever the body does, as every
    [catch] block of these handlers only returns. The loop of insertions of a
    request for breakpoints has such a [try] around each insertion. The
    deletions of that request have none: the request throws only when the
    channel is open and the file has recorded bindings to delete. *)
Theorem handlers_never_throw :
  (forall initialized configuration,
     never_throws (configurationDoneRequest initialized configuration)) /\
  (forall config, never_throws (applySetup config)) /\
  never_throws continueRequest /\ never_throws nextRequest /\
  never_throws stepInRequest /\ never_throws stepOutRequest /\
  never_throws pauseRequest /\
  (forall connection, never_throws (disconnectRequest connection)) /\
  (forall path remotePath sbs acc, never_throws (insertLoop path remotePath sbs acc)) /\
  (forall args w msg,
     fst (setBreakpointsRequest args w) = Threw msg ->
     exists path bound,
       source_path args = Some path /\
       gdbChannel (session w) = true /\
       JsMap.get path (gdbBreakpoints (session w)) = Some bound /\
       bound <> []).
Proof.
  split; [|split; [|split; [|split; [|split; [|split; [|split; [|split; [|split]]]]]]]].
  - intros initialized configuration. unfold configurationDoneRequest.
    destruct (negb initialized); [apply never_throws_ret|].
    apply never_throws_try_catch. intros; apply never_throws_ret.
  - apply never_throws_applySetup.
  - apply never_throws_try_catch. intros; apply never_throws_ret.
  - apply never_throws_try_catch. intros; apply never_throws_ret.
  - apply never_throws_try_catch. intros; apply never_throws_ret.
  - apply never_throws_try_catch. intros; apply never_throws_ret.
  - apply never_throws_try_catch. intros; apply never_throws_ret.
  - intros connection. apply never_throws_try_catch. intros; apply never_throws_ret.
  - intros. apply never_throws_insertLoop.
  - intros args w msg. unfold setBreakpointsRequest.
    destruct (source_path args) as [path|]; [|discriminate].
    destruct (negb (truthy path)); [discriminate|].
    unfold bind at 1. unfold getSession. cbv beta iota.
    destruct (gdbChannel (session w)) eqn:Hch; cbn [negb]; cbv iota.
    2:{ destruct (arg_breakpoints args); discriminate. }
    destruct (JsMap.get path (gdbBreakpoints (session w))) as [bound|] eqn:Hget.
    + destruct bound as [|entry bound].
      * intros Hthrow. exfalso. revert Hthrow.
        apply (never_throws_bind _ _
                 (never_throws_bind _ _ (never_throws_ret tt)
                    (fun _ => never_throws_modify _))
                 (fun _ => never_throws_insertions path _ (arg_breakpoints args))).
      * intros _. exists path, (entry :: bound). repeat split; [exact Hget|discriminate].
    + intros Hthrow. exfalso. revert Hthrow.
      apply (never_throws_bind _ _ (never_throws_ret tt)
               (fun _ => never_throws_insertions path _ (arg_breakpoints args))).
Qed.

(** *** The bindings *)

Lemma two_bound_wf : bindings_wf Samples.two_bound.
Proof.
  split.
  - unfold JsMap.wf. simpl. apply NoDup_singleton.
  - constructor; [|constructor]. unfold JsMap.wf. simpl.
    apply NoDup_cons. split; [|apply NoDup_singleton].
    intros H. apply list_elem_of_singleton in H. discriminate H.
Qed.

(** Whatever the debugger answers, a request for breakpoints and the end
    of the configuration leave the table of bindings with at most one entry
    for a file and, in the table of a file, at most one for a line. *)
Theorem bindings_stay_well_formed (w : Run) :
  bindings_wf (session w) ->
  (forall args, bindings_wf (session (snd (setBreakpointsRequest args w)))) /\
  (forall initialized configuration,
     bindings_wf (session (snd (configurationDoneRequest initialized configuration w)))).
Proof.
  intros Hwf. split.
  - intros args. destruct (source_path args) as [path|] eqn:Hpath.
    + assert (Hk : keeps bindings_wf (setBreakpointsRequest args)).
      { apply keeps_setBreakpointsRequest with (path := path);
          try (intros; assumption).
        - intros l gdbId st. apply BreakpointFacts.table_wf_remember.
        - intros st. apply BreakpointFacts.table_wf_delete. }
      apply (Hk w Hwf).
    + unfold setBreakpointsRequest. rewrite Hpath. exact Hwf.
  - intros initialized configuration.
    assert (Hk : keeps bindings_wf (configurationDoneRequest initialized configuration)).
    { apply keeps_configurationDoneRequest; try (intros; assumption).
      intros path l gdbId st. apply BreakpointFacts.table_wf_remember. }
    apply (Hk w Hwf).
Qed.

Lemma bindings_stay_well_formed_witness :
  bindings_wf (session (snd (setBreakpointsRequest Samples.replace_request
                                                   Samples.refused_delete_run))) /\
  bindings_wf (session (snd (configurationDoneRequest true None Samples.replace_run))).
Proof.
  destruct (bindings_stay_well_formed Samples.refused_delete_run) as [Hset _].
  - exact two_bound_wf.
  - destruct (bindings_stay_well_formed Samples.replace_run) as [_ Hdone].
    + exact two_bound_wf.
    + split; [apply Hset|apply Hdone].
Defined.

(** A request for the breakpoints of a file touches the entries of that
    file only: the bindings, the reported breakpoints and the queued
    breakpoints of every other file are as before, whatever the debugger
    answers, and whether the handler returns or throws. *)
Theorem other_files_untouched (args : SetBreakpointsArguments) (w : Run)
                              (path other : string) :
  source_path args = Some path ->
  other <> path ->
  JsMap.get other (gdbBreakpoints (session (snd (setBreakpointsRequest args w))))
    = JsMap.get other (gdbBreakpoints (session w)) /\
  JsMap.get other (breakpoints (session (snd (setBreakpointsRequest args w))))
    = JsMap.get other (breakpoints (session w)) /\
  JsMap.get other (pendingBreakpoints (session (snd (setBreakpointsRequest args w))))
    = JsMap.get other (pendingBreakpoints (session w)).
Proof.
  intros Hpath Hne.
  assert (Hk : keeps
           (fun st =>
              JsMap.get other (gdbBreakpoints st) = JsMap.get other (gdbBreakpoints (session w)) /\
              JsMap.get other (Session.breakpoints st) = JsMap.get other (breakpoints (session w)) /\
              JsMap.get other (pendingBreakpoints st)
                = JsMap.get other (pendingBreakpoints (session w)))
           (setBreakpointsRequest args)).
  2:{ apply (Hk w). auto. }
  apply keeps_setBreakpointsRequest with (path := path).
  - intros st _ H. exact H.
  - intros l gdbId st (Hg & Hb & Hq). simpl. unfold remember.
    rewrite JsMapFacts.get_set_ne by congruence. auto.
  - intros st (Hg & Hb & Hq). simpl.
    rewrite JsMapFacts.get_delete_ne by congruence. auto.
  - intros bs st (Hg & Hb & Hq). simpl.
    rewrite JsMapFacts.get_set_ne by congruence. auto.
  - intros sbs st (Hg & Hb & Hq). simpl.
    rewrite JsMapFacts.get_set_ne by congruence. auto.
  - exact Hpath.
Qed.

Lemma other_files_untouched_witness :
  JsMap.get "t.c" (gdbBreakpoints (session (snd (setBreakpointsRequest
      (mkArgs (Some "u.c") (Some [mkSourceBreakpoint 7])) Samples.replace_run))))
    = Some [(10%Z, 1%Z); (20%Z, 2%Z)].
Proof.
  apply (other_files_untouched (mkArgs (Some "u.c") (Some [mkSourceBreakpoint 7]))
           Samples.replace_run "u.c" "t.c").
  - reflexivity.
  - discriminate.
Defined.

(** *** Breakpoints requested before the debugger is ready *)

(** While the channel of the debugger is not open, a request for the
    breakpoints of a file writes nothing and changes no binding: it reports
    each requested line as unverified and puts the request in the queue
    under its file, in place of an earlier request for that file. *)
Theorem breakpoints_queued_until_ready (args : SetBreakpointsArguments) (w : Run)
                                       (path : string) :
  source_path args = Some path ->
  truthy path = true ->
  gdbChannel (session w) = false ->
  exists w',
    setBreakpointsRequest args w =
      (Returned (map (fun bp => mkBreakpoint false (sb_line bp) None)
                     (default [] (arg_breakpoints args))), w') /\
    effects w' = effects w /\
    script w' = script w /\
    gdbBreakpoints (session w') = gdbBreakpoints (session w) /\
    breakpoints (session w') = breakpoints (session w) /\
    pendingCommands (session w') = pendingCommands (session w) /\
    JsMap.get path (pendingBreakpoints (session w')) =
      match arg_breakpoints args with
      | Some sbs => Some sbs
      | None => JsMap.get path (pendingBreakpoints (session w))
      end /\
    (JsMap.wf (pendingBreakpoints (session w)) ->
     JsMap.wf (pendingBreakpoints (session w'))).
Proof.
  intros Hpath Htruthy Hch. unfold setBreakpointsRequest.
  rewrite Hpath, Htruthy. simpl. unfold bind at 1, getSession. rewrite Hch. simpl.
  destruct (arg_breakpoints args) as [sbs|]; simpl.
  - eexists. split; [reflexivity|]. simpl.
    repeat split; try reflexivity.
    + apply JsMapFacts.get_set_eq.
    + apply JsMapFacts.wf_set.
  - exists w. repeat split; try reflexivity. auto.
Qed.

Lemma breakpoints_queued_until_ready_witness :
  exists w',
    setBreakpointsRequest Samples.replace_request (mkRun initial [] []) =
      (Returned [mkBreakpoint false 20 None; mkBreakpoint false 30 None], w') /\
    effects w' = [] /\
    JsMap.get "t.c" (pendingBreakpoints (session w')) =
      Some [mkSourceBreakpoint 20; mkSourceBreakpoint 30].
Proof.
  destruct (breakpoints_queued_until_ready Samples.replace_request (mkRun initial [] []) "t.c")
    as (w' & Hresponse & Hfx & _ & _ & _ & _ & Hqueue & _).
  - reflexivity.
  - reflexivity.
  - reflexivity.
  - exists w'. split; [exact Hresponse|]. split; [exact Hfx|exact Hqueue].
Defined.

(** *** The end of the configuration *)








(** *** The requests that run the program *)

Lemma exec_spec {A} (command : string) (a : A) (h : string -> A) (w : Run) :
  fst (try_catch (bind (awaitGDBCommand command) (fun _ => ret a))
                 (fun msg => ret (h msg)) w) =
    Returned match promised command w with inl _ => a | inr msg => h msg end /\
  session (snd (try_catch (bind (awaitGDBCommand command) (fun _ => ret a))
                          (fun msg => ret (h msg)) w)) =
    (if gdbChannel (session w) then afterCommand (session w) else session w) /\
  written (effects (snd (try_catch (bind (awaitGDBCommand command) (fun _ => ret a))
                                   (fun msg => ret (h msg)) w))) =
    written (effects w) ++
    (if gdbChannel (session w)
     then commandLines (tokenCounter (session w)) [command] else []).
Proof.
  unfold promised, try_catch, bind.
  destruct (gdbChannel (session w)) eqn:Hch.
  - destruct (await_exact command w Hch) as (fx & -> & Hfx & _).
    destruct (answered _ _ command); simpl;
      rewrite BreakpointFacts.written_app, Hfx; repeat split.
  - rewrite (await_closed command w Hch). simpl. rewrite app_nil_r. repeat split.
Qed.

(** Each of the requests that step or pause sends its one command. The
    response is a success when the command is accepted, and otherwise the
    failure with the number of the request and the message of the
    rejection, which is the message of the debugger, the timeout, or the
    missing channel. The session changes only by the token taken. The
    request to continue, in addition, marks the program as running when, and
    only when, its command is accepted. *)
Theorem exec_requests_report (w : Run) :
  (fst (nextRequest w) = Returned (reply 6 "Failed to step over: " (promised "exec-next" w)) /\
   fst (stepInRequest w) = Returned (reply 7 "Failed to step in: " (promised "exec-step" w)) /\
   fst (stepOutRequest w) =
     Returned (reply 8 "Failed to step out: " (promised "exec-finish" w)) /\
   fst (pauseRequest w) = Returned (reply 9 "Failed to pause: " (promised "exec-interrupt" w)) /\
   fst (continueRequest w) =
     Returned (reply 5 "Failed to continue: " (promised "exec-continue" w))) /\
  (forall m, m ∈ [nextRequest; stepInRequest; stepOutRequest; pauseRequest] ->
     session (snd (m w)) =
       (if gdbChannel (session w) then afterCommand (session w) else session w)) /\
  session (snd (continueRequest w)) =
    match promised "exec-continue" w with
    | inl _ => with_isRunning true (afterCommand (session w))
    | inr _ => if gdbChannel (session w) then afterCommand (session w) else session w
    end /\
  (written (effects (snd (nextRequest w))) =
     written (effects w) ++
     (if gdbChannel (session w) then commandLines (tokenCounter (session w)) ["exec-next"]
      else []) /\
   written (effects (snd (stepInRequest w))) =
     written (effects w) ++
     (if gdbChannel (session w) then commandLines (tokenCounter (session w)) ["exec-step"]
      else []) /\
   written (effects (snd (stepOutRequest w))) =
     written (effects w) ++
     (if gdbChannel (session w) then commandLines (tokenCounter (session w)) ["exec-finish"]
      else []) /\
   written (effects (snd (pauseRequest w))) =
     written (effects w) ++
     (if gdbChannel (session w) then commandLines (tokenCounter (session w)) ["exec-interrupt"]
      else []) /\
   written (effects (snd (continueRequest w))) =
     written (effects w) ++
     (if gdbChannel (session w) then commandLines (tokenCounter (session w)) ["exec-continue"]
      else [])).
Proof.
  pose proof (exec_spec "exec-next" Success
                (fun msg => Failure 6 ("Failed to step over: " +:+ msg)) w) as (Hn1 & Hn2 & Hn3).
  pose proof (exec_spec "exec-step" Success
                (fun msg => Failure 7 ("Failed to step in: " +:+ msg)) w) as (Hi1 & Hi2 & Hi3).
  pose proof (exec_spec "exec-finish" Success
                (fun msg => Failure 8 ("Failed to step out: " +:+ msg)) w) as (Ho1 & Ho2 & Ho3).
  pose proof (exec_spec "exec-interrupt" Success
                (fun msg => Failure 9 ("Failed to pause: " +:+ msg)) w) as (Hp1 & Hp2 & Hp3).
  assert (Hc : fst (continueRequest w) =
                 Returned (reply 5 "Failed to continue: " (promised "exec-continue" w)) /\
               session (snd (continueRequest w)) =
                 match promised "exec-continue" w with
                 | inl _ => with_isRunning true (afterCommand (session w))
                 | inr _ => if gdbChannel (session w) then afterCommand (session w)
                            else session w
                 end /\
               written (effects (snd (continueRequest w))) =
                 written (effects w) ++
                 (if gdbChannel (session w)
                  then commandLines (tokenCounter (session w)) ["exec-continue"] else [])).
  { unfold continueRequest, promised, try_catch, bind.
    destruct (gdbChannel (session w)) eqn:Hch.
    - destruct (await_exact "exec-continue" w Hch) as (fx & -> & Hfx & _).
      destruct (answered _ _ "exec-continue"); simpl;
        rewrite BreakpointFacts.written_app, Hfx; repeat split.
    - rewrite (await_closed "exec-continue" w Hch). simpl. rewrite app_nil_r.
      repeat split. }
  destruct Hc as (Hc1 & Hc2 & Hc3).
  split; [|split; [|split]].
  - repeat split; assumption.
  - intros m Hm.
    repeat (apply elem_of_cons in Hm as [->|Hm]; [assumption|]).
    in_nil.
  - exact Hc2.
  - repeat split; assumption.
Qed.

(** *** The end of the session *)

(** What the request to disconnect does for each way its command can be
    settled, by a result record or by the timer of the command. With the
    channel open it sends [gdb-exit]; it closes the channel and goes on to
    disconnect the transport only when that command is accepted. When the
    command is refused by an error record, or rejected by its timer, the
    request returns with the channel still open and without disconnecting
    the transport. With the channel closed already, it sends nothing and goes
    to the transport at once. A command that is never settled is outside
    this statement. *)
Theorem disconnect_needs_accepted_exit
        (connection : option (string + SSHManager.SSHConnectionDetails)) (w : Run) :
  let exited :=
    if gdbChannel (session w) then accepted (hd AnsNone (script w)) else true in
  fst (disconnectRequest connection w) =
    Returned (if exited then reachable connection else None) /\
  gdbChannel (session (snd (disconnectRequest connection w))) =
    gdbChannel (session w) && negb exited /\
  written (effects (snd (disconnectRequest connection w))) =
    written (effects w) ++
    (if gdbChannel (session w) then commandLines (tokenCounter (session w)) ["gdb-exit"]
     else []).
Proof.
  destruct (gdbChannel (session w)) eqn:Hch; cbv zeta.
  - destruct (await_exact "gdb-exit" w Hch) as (fx & Hawait & Hfx & _).
    destruct (accepted (hd AnsNone (script w))) eqn:Hans.
    + destruct (BreakpointFacts.accepted_answered _ (tokenCounter (session w)) "gdb-exit" Hans)
        as (record & Hrecord & _).
      rewrite Hrecord in Hawait.
      assert (Hrun : disconnectRequest connection w =
                (Returned (reachable connection),
                 mkRun (with_gdbChannel false (afterCommand (session w)))
                       (tl (script w)) (effects w ++ fx))).
      { unfold disconnectRequest, try_catch, bind, getSession. cbv beta iota.
        rewrite Hch, Hawait. destruct connection as [[msg|d]|]; reflexivity. }
      rewrite Hrun. simpl. rewrite BreakpointFacts.written_app, Hfx. repeat split.
    + destruct (BreakpointFacts.refused_answered _ (tokenCounter (session w)) "gdb-exit" Hans)
        as (msg & Hmsg).
      rewrite Hmsg in Hawait.
      assert (Hrun : disconnectRequest connection w =
                (Returned None,
                 mkRun (afterCommand (session w)) (tl (script w)) (effects w ++ fx))).
      { unfold disconnectRequest, try_catch, bind, getSession. cbv beta iota.
        rewrite Hch, Hawait. reflexivity. }
      rewrite Hrun. simpl. rewrite BreakpointFacts.written_app, Hfx, Hch. repeat split.
  - assert (Hrun : disconnectRequest connection w = (Returned (reachable connection), w)).
    { unfold disconnectRequest, try_catch, bind, getSession. cbv beta iota.
      rewrite Hch. destruct connection as [[msg|d]|]; reflexivity. }
    rewrite Hrun. simpl. rewrite Hch, app_nil_r. repeat split.
Qed.

(** *** The commands that set the debugger up *)

Lemma skipn_tl {A} (n : nat) (l : list A) : skipn n (tl l) = skipn (S n) l.
Proof. destruct l; [apply skipn_nil|reflexivity]. Qed.







End RequestFacts.

(** ** The correlation engine over whole runs *)

Module CorrelationFacts.
Import Js GDBMI Session Correlation.

Lemma sentTokens_app (fx1 fx2 : list Effect) :
  sentTokens (fx1 ++ fx2) = sentTokens fx1 ++ sentTokens fx2.
Proof. unfold sentTokens. apply omap_app. Qed.

Ltac idle := simpl; rewrite Z.sub_diag; (split; [lia|reflexivity]).

(** One event takes at most one token, the next one. *)
Lemma step_tokens (ev : Event) (st : Session) :
  (tokenCounter st <= tokenCounter (fst (step ev st)))%Z /\
  sentTokens (snd (step ev st)) =
    seqZ (tokenCounter st) (tokenCounter (fst (step ev st)) - tokenCounter st).
Proof.
  destruct ev as [command|record|tok command]; simpl.
  - unfold sendGDBCommand, getNextToken.
    destruct (gdbChannel st); simpl; [|idle].
    split; [lia|]. replace (tokenCounter st + 1 - tokenCounter st)%Z with 1%Z by lia.
    reflexivity.
  - unfold handleMIRecord.
    destruct (rtype record).
    + destruct (token record) as [t|]; [|idle].
      destruct (pendingCommands st !! t); [|idle].
      break_ifs; simpl; rewrite Z.sub_diag; (split; [lia|reflexivity]).
    + destruct (class_is record "stopped").
      * simpl. rewrite Z.sub_diag. split; [lia|].
        unfold handleStopped. destruct (_ || _); reflexivity.
      * destruct (class_is record "running"); simpl; rewrite Z.sub_diag;
          (split; [lia|reflexivity]).
    + idle.
    + idle.
    + destruct (output record) as [o|]; [destruct (truthy o)|]; idle.
    + destruct (output record) as [o|]; [destruct (truthy o)|]; idle.
    + idle.
  - unfold commandTimeout.
    destruct (pendingCommands st !! tok); [|idle].
    simpl. rewrite Z.sub_diag. split; [lia|reflexivity].
Qed.

Lemma run_tokens (evs : list Event) :
  forall st,
    (tokenCounter st <= tokenCounter (fst (run evs st)))%Z /\
    sentTokens (snd (run evs st)) =
      seqZ (tokenCounter st) (tokenCounter (fst (run evs st)) - tokenCounter st).
Proof.
  induction evs as [|ev evs IH]; intros st; simpl.
  - rewrite Z.sub_diag. split; [lia|reflexivity].
  - destruct (step_tokens ev st) as [Hle1 Htok1].
    destruct (step ev st) as [st1 fx1]. simpl in *.
    destruct (IH st1) as [Hle2 Htok2].
    destruct (run evs st1) as [st2 fx2]. simpl in *.
    split; [lia|].
    rewrite sentTokens_app, Htok1, Htok2.
    replace (tokenCounter st2 - tokenCounter st)%Z
      with ((tokenCounter st1 - tokenCounter st) + (tokenCounter st2 - tokenCounter st1))%Z
      by lia.
    rewrite seqZ_app by lia. f_equal. f_equal. lia.
Qed.

(** In every run of the engine the tokens of the commands sent are the
    successive integers from the counter of the session on: no token is
    given to two commands, and none is below the counter the run started
    with. *)
Theorem tokens_never_reused (evs : list Event) (st : Session) :
  sentTokens (snd (run evs st)) =
    seqZ (tokenCounter st) (tokenCounter (fst (run evs st)) - tokenCounter st) /\
  NoDup (sentTokens (snd (run evs st))) /\
  (forall tok, tok ∈ sentTokens (snd (run evs st)) ->
     (tokenCounter st <= tok < tokenCounter (fst (run evs st)))%Z).
Proof.
  destruct (run_tokens evs st) as [Hle Htok].
  split; [exact Htok|]. rewrite Htok. split; [apply NoDup_seqZ|].
  intros tok Hin. apply elem_of_seqZ in Hin. lia.
Qed.

(** What one event settles: a result record resolves or rejects the
    promise of its own token, a timer rejects the promise of its own
    token. *)
Lemma step_settles_own (ev : Event) (st : Session) (e : Effect) (p : Z) :
  pending_ok st ->
  e ∈ snd (step ev st) ->
  settles e = Some p ->
  (exists record,
     ev = EvRecord record /\ rtype record = TResult /\ token record = Some p /\
     e = if class_is record "error"
         then FxReject p (or_default (getStringValue (findResult (results record) "msg"))
                                     "GDB command failed")
         else FxResolve p record) \/
  (exists command,
     ev = EvTimerFired p command /\ e = FxReject p ("Command timeout: " +:+ command)).
Proof.
  intros Hok Hin Hsettles. destruct ev as [command|record|tok command]; simpl in Hin.
  - exfalso. unfold sendGDBCommand, getNextToken in Hin.
    destruct (gdbChannel st); simpl in Hin; [|in_nil].
    apply elem_of_cons in Hin as [->|Hin]; [discriminate|].
    apply list_elem_of_singleton in Hin as ->. discriminate.
  - left. exists record.
    destruct (rtype record) eqn:Hty.
    + destruct (token record) as [t|] eqn:Htok.
      2:{ unfold handleMIRecord in Hin. rewrite Hty, Htok in Hin. in_nil. }
      destruct (pendingCommands st !! t) as [c|] eqn:Hc.
      2:{ unfold handleMIRecord in Hin. rewrite Hty, Htok, Hc in Hin. in_nil. }
      rewrite (SessionFacts.matching_record_retires record st t c Hty Htok Hc) in Hin.
      destruct (Hok t c Hc) as [Hp _]. rewrite Hp in Hin.
      apply list_elem_of_singleton in Hin. subst e.
      assert (t = p) as -> by (destruct (class_is record "error"); simpl in Hsettles; congruence).
      repeat split; reflexivity.
    + exfalso. unfold handleMIRecord in Hin. rewrite Hty in Hin.
      destruct (class_is record "stopped").
      * unfold handleStopped in Hin. destruct (_ || _);
          apply list_elem_of_singleton in Hin; subst e; discriminate.
      * destruct (class_is record "running"); in_nil.
    + exfalso. unfold handleMIRecord in Hin. rewrite Hty in Hin. in_nil.
    + exfalso. unfold handleMIRecord in Hin. rewrite Hty in Hin. in_nil.
    + exfalso. unfold handleMIRecord in Hin. rewrite Hty in Hin.
      destruct (output record) as [o|]; [destruct (truthy o)|]; try in_nil.
      apply list_elem_of_singleton in Hin; subst e; discriminate.
    + exfalso. unfold handleMIRecord in Hin. rewrite Hty in Hin.
      destruct (output record) as [o|]; [destruct (truthy o)|]; try in_nil.
      apply list_elem_of_singleton in Hin; subst e; discriminate.
    + exfalso. unfold handleMIRecord in Hin. rewrite Hty in Hin. in_nil.
  - right. exists command. unfold commandTimeout in Hin.
    destruct (pendingCommands st !! tok); simpl in Hin; [|in_nil].
    apply list_elem_of_singleton in Hin. subst e. simpl in Hsettles.
    injection Hsettles as ->. split; reflexivity.
Qed.

(** The answer a command gets is the answer to that command: in every run
    from a state that has the invariant, a promise is resolved only with a
    result record that carries the token of its command and is not of class
    [error], and it is rejected only by a result record of class [error] with
    its token, or by a timer of its token. *)
Theorem answers_reach_their_command (evs : list Event) :
  forall st p,
    pending_ok st ->
    (forall record,
       FxResolve p record ∈ snd (run evs st) ->
       EvRecord record ∈ evs /\ rtype record = TResult /\
       token record = Some p /\ class_is record "error" = false) /\
    (forall msg,
       FxReject p msg ∈ snd (run evs st) ->
       (exists record,
          EvRecord record ∈ evs /\ rtype record = TResult /\
          token record = Some p /\ class_is record "error" = true /\
          msg = or_default (getStringValue (findResult (results record) "msg"))
                           "GDB command failed") \/
       (exists command,
          EvTimerFired p command ∈ evs /\ msg = "Command timeout: " +:+ command)).
Proof.
  induction evs as [|ev evs IH]; intros st p Hok.
  - split; intros ? Hin; simpl in Hin; in_nil.
  - simpl. pose proof (step_settles_own ev st) as Hown.
    destruct (step ev st) as [st1 fx1] eqn:Hstep.
    destruct (SessionFacts.step_settles ev st st1 fx1 p Hok Hstep) as (Hok1 & _).
    destruct (IH st1 p Hok1) as [IHres IHrej].
    destruct (run evs st1) as [st2 fx2]. simpl in *.
    split.
    + intros record Hin. apply elem_of_app in Hin as [Hin|Hin].
      * destruct (Hown _ p Hok Hin eq_refl) as [(r & -> & Hty & Htok & He)|(c & _ & He)];
          [|discriminate He].
        destruct (class_is r "error") eqn:Herr; [discriminate He|].
        injection He as ->. split; [left|]. auto.
      * destruct (IHres record Hin) as (Hev & Hrest). split; [right; exact Hev|exact Hrest].
    + intros msg Hin. apply elem_of_app in Hin as [Hin|Hin].
      * destruct (Hown _ p Hok Hin eq_refl) as [(r & -> & Hty & Htok & He)|(c & -> & He)].
        -- destruct (class_is r "error") eqn:Herr; [|discriminate He].
           injection He as ->. left. exists r. split; [left|]. auto.
        -- injection He as ->. right. exists c. split; [left|reflexivity].
      * destruct (IHrej msg Hin) as [(r & Hev & Hrest)|(c & Hev & Hrest)].
        -- left. exists r. split; [right; exact Hev|exact Hrest].
        -- right. exists c. split; [right; exact Hev|exact Hrest].
Qed.

Lemma answers_reach_their_command_witness :
  EvRecord Samples.exit_record ∈
    [EvSend "exec-run"; EvRecord Samples.console_record; EvRecord Samples.exit_record] /\
  rtype Samples.exit_record = TResult /\
  token Samples.exit_record = Some 1000%Z /\
  class_is Samples.exit_record "error" = false.
Proof.
  destruct (answers_reach_their_command
              [EvSend "exec-run"; EvRecord Samples.console_record;
               EvRecord Samples.exit_record] Samples.started 1000) as [Hres _].
  - intros tok c. simpl. rewrite lookup_empty. discriminate.
  - apply (Hres Samples.exit_record).
    vm_compute. do 3 right. left.
Defined.

End CorrelationFacts.
(** ** Reading the output of the debugger *)

Module ReaderFacts.
Import Js GDBMI Session Lines Reader Requests StringFacts.

Lemma splitLines_app (a b : string) :
  forall current,
    splitLines (a +:+ b) current =
      let '(l1, r1) := splitLines a current in
      let '(l2, r2) := splitLines b r1 in
      (l1 ++ l2, r2).
Proof.
  induction a as [|c a IH]; intros current.
  - change (EmptyString +:+ b) with b. simpl.
    destruct (splitLines b current). reflexivity.
  - rewrite PathMapperFacts.append_cons. simpl.
    destruct (Ascii.eqb c newline).
    + rewrite IH. destruct (splitLines a EmptyString) as [l1 r1].
      destruct (splitLines b r1) as [l2 r2]. reflexivity.
    + apply IH.
Qed.

(** What is kept of the buffer holds no newline: split again, it gives no
    line and is kept whole. *)
Lemma splitLines_rest (s : string) :
  forall current,
    (forall pre, splitLines current pre = ([], pre +:+ current)) ->
    forall pre,
      splitLines (snd (splitLines s current)) pre =
        ([], pre +:+ snd (splitLines s current)).
Proof.
  induction s as [|c s IH]; intros current Hcur pre; simpl; [apply Hcur|].
  destruct (Ascii.eqb c newline) eqn:Hc.
  - specialize (IH EmptyString).
    destruct (splitLines s EmptyString) as [ls final]. simpl in *.
    apply IH. intros pre'. simpl. rewrite append_empty_r. reflexivity.
  - apply IH. intros pre'. unfold snoc. rewrite splitLines_app, Hcur. simpl.
    rewrite Hc. unfold snoc. rewrite PathMapperFacts.append_assoc. reflexivity.
Qed.

Lemma dispatchLines_app (fuel : nat) (l1 l2 : list string) :
  forall st,
    dispatchLines fuel (l1 ++ l2) st =
      match dispatchLines fuel l1 st with
      | Some (st1, fx1) =>
          match dispatchLines fuel l2 st1 with
          | Some (st2, fx2) => Some (st2, fx1 ++ fx2)
          | None => None
          end
      | None => None
      end.
Proof.
  induction l1 as [|line l1 IH]; intros st; simpl.
  - destruct (dispatchLines fuel l2 st) as [[st2 fx2]|]; reflexivity.
  - destruct (parseLine fuel line) as [[record|]|]; [|apply IH|reflexivity].
    destruct (handleMIRecord record st) as [st1 fx1].
    rewrite IH.
    destruct (dispatchLines fuel l1 st1) as [[st2 fx2]|]; [|reflexivity].
    destruct (dispatchLines fuel l2 st2) as [[st3 fx3]|]; [|reflexivity].
    rewrite app_assoc. reflexivity.
Qed.

Lemma includes_app_r (p a b : string) :
  includes p b = true -> includes p (a +:+ b) = true.
Proof.
  intros H. induction a as [|c a IH]; [exact H|].
  rewrite PathMapperFacts.append_cons. simpl. rewrite IH. apply orb_true_r.
Qed.

Lemma includes_app_l (p a b : string) :
  includes p a = true -> includes p (a +:+ b) = true.
Proof.
  induction a as [|c a IH]; intros H.
  - simpl in H. rewrite orb_false_r in H.
    apply PathMapperFacts.startsWith_spec in H as [rest Hrest].
    destruct p; [|discriminate Hrest].
    destruct b; reflexivity.
  - rewrite PathMapperFacts.append_cons.
    simpl in H. apply orb_true_iff in H as [H|H].
    + apply PathMapperFacts.startsWith_spec in H as [rest Hrest].
      assert (Hs : startsWith p (String c (a +:+ b)) = true).
      { apply PathMapperFacts.startsWith_spec. exists (rest +:+ b).
        rewrite <- PathMapperFacts.append_assoc, <- Hrest. reflexivity. }
      simpl. simpl in Hs. rewrite Hs. reflexivity.
    + simpl. rewrite (IH H). apply orb_true_r.
Qed.

(** The records handled, and the incomplete line kept, do not depend on
    how the output of the debugger is cut into chunks: two chunks handled
    one after the other do what the whole does at once. The prompt is
    looked for in each chunk by itself: one that the handler sees in a chunk
    it also sees in the whole, but not the other way round. *)
Theorem output_chunking (fuel : nat) (data1 data2 : string)
                        (rd rd1 rd2 : Reader) (fx1 fx2 : list Effect) :
  handleGDBOutput fuel data1 rd = Some (rd1, fx1) ->
  handleGDBOutput fuel data2 rd1 = Some (rd2, fx2) ->
  exists rd',
    handleGDBOutput fuel (data1 +:+ data2) rd = Some (rd', fx1 ++ fx2) /\
    core rd' = core rd2 /\
    outputBuffer rd' = outputBuffer rd2 /\
    gdbReady rd2 = gdbReady rd || includes "(gdb)" data1 || includes "(gdb)" data2 /\
    gdbReady rd' = gdbReady rd || includes "(gdb)" (data1 +:+ data2) /\
    (gdbReady rd2 = true -> gdbReady rd' = true).
Proof.
  unfold handleGDBOutput. intros H1 H2.
  rewrite <- PathMapperFacts.append_assoc, splitLines_app.
  pose proof (splitLines_rest (outputBuffer rd +:+ data1) EmptyString
                (fun pre => f_equal (pair []) (eq_sym (append_empty_r pre)))) as Hrest.
  destruct (splitLines (outputBuffer rd +:+ data1) EmptyString) as [l1 r1].
  simpl in Hrest.
  destruct (dispatchLines fuel l1 (core rd)) as [[st1 fx1']|] eqn:Hd1; [|discriminate].
  injection H1 as <- <-. simpl in H2.
  rewrite splitLines_app, (Hrest EmptyString) in H2.
  change (EmptyString +:+ r1) with r1 in H2.
  destruct (splitLines data2 r1) as [l2 r2]. simpl in H2.
  destruct (dispatchLines fuel l2 st1) as [[st2 fx2']|] eqn:Hd2; [|discriminate].
  injection H2 as <- <-.
  rewrite dispatchLines_app, Hd1, Hd2.
  eexists. split; [reflexivity|]. simpl.
  split; [reflexivity|]. split; [reflexivity|]. split; [reflexivity|].
  split; [reflexivity|].
  intros Hready.
  destruct (gdbReady rd); [reflexivity|]. simpl in *.
  apply orb_true_iff in Hready as [Hready|Hready].
  - apply includes_app_l, Hready.
  - apply includes_app_r, Hready.
Qed.

Lemma output_chunking_witness :
  exists rd',
    handleGDBOutput 20 (lit "~'hi'" +:+ String newline "(gd" +:+ "b) ")
                    (mkReader Samples.started EmptyString false)
      = Some (rd', [FxSendEvent (OutputEvent "hi" "stdout")] ++ []) /\
    outputBuffer rd' = "(gdb) " /\
    gdbReady (mkReader Samples.started "(gdb) " false) = false /\
    gdbReady rd' = true.
Proof.
  destruct (output_chunking 20 (lit "~'hi'" +:+ String newline "(gd") "b) "
              (mkReader Samples.started EmptyString false)
              (mkReader Samples.started "(gd" false)
              (mkReader Samples.started "(gdb) " false)
              [FxSendEvent (OutputEvent "hi" "stdout")] [])
    as (rd' & Hrun & _ & Hbuffer & Hparts & Hwhole & _).
  - vm_compute. reflexivity.
  - vm_compute. reflexivity.
  - exists rd'. split; [exact Hrun|]. split; [exact Hbuffer|].
    split; [exact Hparts|exact Hwhole].
Defined.

(** *** From the text of an answer to the promise of its command *)

Lemma splitLines_line (s : string) :
  all_chars (fun c => negb (Ascii.eqb c newline)) s = true ->
  forall current,
    splitLines (s +:+ String newline EmptyString) current = ([current +:+ s], EmptyString).
Proof.
  induction s as [|c s IH]; intros Hs current.
  - change (EmptyString +:+ String newline EmptyString) with (String newline EmptyString).
    simpl. rewrite append_empty_r. reflexivity.
  - rewrite PathMapperFacts.append_cons. simpl in Hs |- *.
    apply andb_true_iff in Hs as [Hc Hs]. apply negb_true_iff in Hc. rewrite Hc.
    rewrite (IH Hs). unfold snoc. rewrite PathMapperFacts.append_assoc. reflexivity.
Qed.

Lemma visible_not_newline (s : string) :
  dot_star s = true -> all_chars (fun c => negb (Ascii.eqb c newline)) s = true.
Proof.
  apply all_chars_impl. intros c H. unfold is_line_terminator in H.
  apply negb_true_iff in H. apply orb_false_iff in H as [H _].
  rewrite H. reflexivity.
Qed.

(** A line with a class, complete with its newline, that arrives when the
    buffer is empty: the record of the line is handled, and nothing stays in
    the buffer. *)
Lemma record_line_dispatched (fuel : nat) (ty : MIRecordType) (digits cls : string)
                             (rs : list MIResult) (st : Session) (ready : bool) :
  is_stream ty = false ->
  all_chars is_digit digits = true ->
  is_class cls = true ->
  cleanFields rs = true ->
  (sizeFields rs <= fuel)%nat ->
  let line := digits +:+ sigil ty +:+ cls +:+ renderResults false rs in
  let record := mkRecord ty (if truthy digits then Some (digits_value 0 digits) else None)
                         (Some cls) (Some rs) None in
  handleGDBOutput fuel (line +:+ String newline EmptyString)
                  (mkReader st EmptyString ready) =
    Some (mkReader (fst (handleMIRecord record st)) EmptyString
                   (ready || includes "(gdb)" (line +:+ String newline EmptyString)),
          snd (handleMIRecord record st)).
Proof.
  intros Hty Hdigits Hcls Hvalid Hfuel line record.
  assert (Hnl : all_chars (fun c => negb (Ascii.eqb c newline)) line = true).
  { apply visible_not_newline. apply LineFacts.record_line_visible; assumption. }
  assert (Hparse : parseLine fuel line = Some (Some record))
    by (apply LineFacts.class_line_parsed; assumption).
  unfold handleGDBOutput. cbn [outputBuffer gdbReady core].
  change (EmptyString +:+ (line +:+ String newline EmptyString))
    with (line +:+ String newline EmptyString).
  rewrite (splitLines_line line Hnl EmptyString).
  change (EmptyString +:+ line) with line.
  cbn [dispatchLines]. rewrite Hparse.
  destruct (handleMIRecord record st) as [st1 fx1]. cbn [fst snd].
  rewrite app_nil_r. reflexivity.
Qed.

(** The text of an answer reaches the command it answers. A command is
    sent with the next token, written in decimal; when the debugger answers
    with a line that starts with these digits and gives a class and fields,
    whatever the depth of their values, the handler of the output splits the
    line off, reads the same token back, finds the entry of the command,
    removes it and settles the promise of the command: for the class [error]
    it rejects it with the text of the field [msg], or with the generic
    message when there is no such field or its text is empty, and for every
    other class it resolves it with the record of the line. Nothing stays in
    the buffer. *)
Theorem answer_line_settles_command (fuel : nat) (command cls : string)
                                    (rs : list MIResult)
                                    (st : Session) (ready : bool) :
  gdbChannel st = true ->
  (0 <= tokenCounter st)%Z ->
  is_class cls = true ->
  cleanFields rs = true ->
  (sizeFields rs <= fuel)%nat ->
  exists st1 fx1,
    sendGDBCommand command st = Some (tokenCounter st, st1, fx1) /\
    handleGDBOutput fuel
      (pretty (tokenCounter st) +:+ "^" +:+ cls +:+ renderResults false rs
       +:+ String newline EmptyString)
      (mkReader st1 EmptyString ready) =
      Some (mkReader (afterCommand st) EmptyString
              (ready || includes "(gdb)"
                          (pretty (tokenCounter st) +:+ "^" +:+ cls +:+
                           renderResults false rs +:+ String newline EmptyString)),
            [if String.eqb cls "error"
             then FxReject (tokenCounter st)
                    (or_default (getStringValue (findResult (Some rs) "msg"))
                                "GDB command failed")
             else FxResolve (tokenCounter st)
                    (mkRecord TResult (Some (tokenCounter st)) (Some cls)
                              (Some rs) None)]).
Proof.
  intros Hch Hpos Hcls Hvalid Hfuel.
  destruct (LineFacts.token_read_back (tokenCounter st) Hpos) as (Hdigits & Htruthy & Hvalue).
  unfold sendGDBCommand, getNextToken. rewrite Hch. simpl negb. cbv iota zeta.
  eexists. eexists. split; [reflexivity|].
  set (tok := tokenCounter st) in *.
  set (st1 := with_pendingCommands _ _).
  assert (Hdata : pretty tok +:+ "^" +:+ cls +:+ renderResults false rs
                  +:+ String newline EmptyString
                  = (pretty tok +:+ sigil TResult +:+ cls +:+ renderResults false rs)
                    +:+ String newline EmptyString).
  { simpl sigil. rewrite !PathMapperFacts.append_assoc. reflexivity. }
  assert (Hhandle : handleMIRecord (mkRecord TResult (Some tok) (Some cls)
                                             (Some rs) None) st1 =
            (afterCommand st,
             [if String.eqb cls "error"
              then FxReject tok
                     (or_default (getStringValue (findResult (Some rs) "msg"))
                                 "GDB command failed")
              else FxResolve tok (mkRecord TResult (Some tok) (Some cls)
                                           (Some rs) None)])).
  { rewrite (SessionFacts.matching_record_retires _ st1 tok (mkCompletion tok));
      [|reflexivity|reflexivity|unfold st1; simpl; apply lookup_insert_eq].
    unfold class_is. cbn [class results promiseOf].
    destruct (String.eqb cls "error"); reflexivity. }
  rewrite Hdata.
  rewrite (record_line_dispatched fuel TResult (pretty tok) cls rs st1 ready
             eq_refl Hdigits Hcls Hvalid Hfuel).
  rewrite Htruthy, Hvalue, Hhandle. reflexivity.
Qed.

Lemma answer_line_settles_command_witness :
  exists st1 fx1,
    sendGDBCommand "break-insert nowhere.c:1" Samples.started = Some (1000%Z, st1, fx1) /\
    handleGDBOutput 3 (lit "1000^error,msg='No source file named nowhere.c.'"
                       +:+ String newline EmptyString)
                    (mkReader st1 EmptyString true) =
      Some (mkReader (afterCommand Samples.started) EmptyString true,
            [FxReject 1000 "No source file named nowhere.c."]).
Proof.
  apply (answer_line_settles_command 3 "break-insert nowhere.c:1" "error"
           [("msg", MIString "No source file named nowhere.c.")] Samples.started true).
  - reflexivity.
  - discriminate.
  - reflexivity.
  - reflexivity.
  - vm_compute. lia.
Defined.

(** A line of the program's state reaches the editor. For a line [*],
    a class and fields, whatever the depth of their values: the class
    [stopped] marks the program as not running and sends exactly one event,
    the end of the session when the text of the field [reason] is
    [exited-normally] or [exited], and otherwise a stop whose kind follows
    the reason, a missing or empty reason counting as [signal-received]; the
    thread of the stop is the current thread of the session, whatever
    [thread-id] the line gives. The class [running] marks the program as
    running and sends nothing; any other class changes and sends nothing. *)
Theorem exec_line_handled (fuel : nat) (cls : string) (rs : list MIResult)
                          (st : Session) (ready : bool) :
  is_class cls = true ->
  cleanFields rs = true ->
  (sizeFields rs <= fuel)%nat ->
  let data := "*" +:+ cls +:+ renderResults false rs +:+ String newline EmptyString in
  let why :=
    or_default (getStringValue (findResult (Some rs) "reason")) "signal-received" in
  handleGDBOutput fuel data (mkReader st EmptyString ready) =
    Some (mkReader (if String.eqb cls "stopped" then with_isRunning false st
                    else if String.eqb cls "running" then with_isRunning true st
                    else st)
                   EmptyString (ready || includes "(gdb)" data),
          if String.eqb cls "stopped" then
            [FxSendEvent
               (if String.eqb why "exited-normally" || String.eqb why "exited"
                then TerminatedEvent
                else StoppedEvent
                       (if String.eqb why "breakpoint-hit" then SBreakpoint
                        else if String.eqb why "end-stepping-range" then SStep
                        else if String.eqb why "signal-received" then SException
                        else SPause)
                       (currentThreadId st))]
          else []).
Proof.
  intros Hcls Hvalid Hfuel data why.
  assert (Hdata : data = (EmptyString +:+ sigil TExec +:+ cls +:+ renderResults false rs)
                         +:+ String newline EmptyString).
  { unfold data. simpl sigil. rewrite !PathMapperFacts.append_assoc. reflexivity. }
  rewrite Hdata.
  rewrite (record_line_dispatched fuel TExec EmptyString cls rs st ready
             eq_refl eq_refl Hcls Hvalid Hfuel).
  unfold handleMIRecord, class_is. cbn [rtype class results truthy].
  destruct (String.eqb cls "stopped").
  - cbn [fst snd]. unfold handleStopped.
    change (GDBMI.reason (parseStoppedEvent (default [] (Some rs)))) with why.
    destruct (String.eqb why "exited-normally" || String.eqb why "exited");
      reflexivity.
  - destruct (String.eqb cls "running"); reflexivity.
Qed.

Lemma exec_line_handled_witness :
  handleGDBOutput 12
    (lit "*stopped,reason='breakpoint-hit',thread-id='3',frame={func='main',line='12'}"
     +:+ String newline EmptyString)
    (mkReader (with_isRunning true Samples.started) EmptyString true) =
    Some (mkReader Samples.started EmptyString true,
          [FxSendEvent (StoppedEvent SBreakpoint 1)]).
Proof.
  apply (exec_line_handled 12 "stopped"
           [("reason", MIString "breakpoint-hit"); ("thread-id", MIString "3");
            ("frame", MITuple [("func", MIString "main"); ("line", MIString "12")])]
           (with_isRunning true Samples.started) true).
  - reflexivity.
  - reflexivity.
  - vm_compute. lia.
Defined.

End ReaderFacts.
(** ** The transport over whole runs *)

Module TransportFacts.
Import SSHManager Transport.

Lemma delay_count_app (key : string) (fx1 fx2 : list Effect) :
  delay_count key (fx1 ++ fx2) = (delay_count key fx1 + delay_count key fx2)%nat.
Proof. unfold delay_count. rewrite List.filter_app, length_app. reflexivity. Qed.

Lemma updateSessionState_other (key k : string) (st : SSHSessionState) (m : Manager) :
  k <> key -> sessions (updateSessionState key st m) !! k = sessions m !! k.
Proof.
  intros Hne. unfold updateSessionState.
  destruct (sessions m !! key); [|reflexivity].
  simpl. apply lookup_insert_ne. congruence.
Qed.

(** What [connect] does to the counter and to the session of another
    key. *)
Lemma connect_other (d : SSHConnectionDetails) (o : ConnectOutcome) (m : Manager)
                    (key : string) :
  getSessionKey d <> key ->
  reconnectAttempts (fst (connect d o m)) !! key = reconnectAttempts m !! key /\
  sessions (fst (connect d o m)) !! key = sessions m !! key.
Proof.
  intros Hne. unfold connect.
  destruct (match sessions m !! getSessionKey d with
            | Some s => bool_decide (state s = Connected)
            | None => false
            end); [split; reflexivity|].
  destruct o; simpl; try (split; reflexivity).
  - split; apply lookup_insert_ne; exact Hne.
  - rewrite SSHManagerFacts.updateSessionState_attempts.
    split; [reflexivity|]. apply updateSessionState_other. congruence.
Qed.

(** A connection that does not become ready leaves every counter. *)
Lemma connect_not_ready (d : SSHConnectionDetails) (o : ConnectOutcome) (m : Manager)
                        (key : string) :
  not_ready_for key (EvDelayElapsed d o) ->
  attemptsOf key (fst (connect d o m)) = attemptsOf key m.
Proof.
  intros Hquiet. unfold attemptsOf, connect.
  destruct (match sessions m !! getSessionKey d with
            | Some s => bool_decide (state s = Connected)
            | None => false
            end); [reflexivity|].
  destruct o; simpl; try reflexivity.
  - simpl in Hquiet. rewrite lookup_insert_ne by exact Hquiet. reflexivity.
  - rewrite SSHManagerFacts.updateSessionState_attempts. reflexivity.
Qed.

(** One event uses up as much of the budget of a session as it starts
    delays for it. *)
Lemma step_budget (key : string) (ev : Event) (w : World) :
  not_ready_for key ev ->
  (Z.of_nat (delay_count key (snd (step ev w))) +
   Z.max 0 (3 - attemptsOf key (manager (fst (step ev w))))
   <= Z.max 0 (3 - attemptsOf key (manager w)))%Z.
Proof.
  intros Hquiet. destruct ev as [d|d o]; simpl.
  - destruct (sessions (manager w) !! getSessionKey d) as [s|] eqn:Hs.
    2:{ unfold handleDisconnect. rewrite Hs. cbn [fst snd manager].
        change (delay_count key []) with 0%nat. lia. }
    destruct (Z.lt_ge_cases (default 0%Z (reconnectAttempts (manager w) !! getSessionKey d)) 3)
      as [Hlt|Hlim].
    + destruct (SSHManagerFacts.handleDisconnect_below _ d _ _ Hs Hlt)
        as (m' & -> & Hkey & Hother).
      cbn [fst snd manager]. unfold attemptsOf.
      destruct (decide (getSessionKey d = key)) as [<-|Hne].
      * assert (Hcount : delay_count (getSessionKey d)
                           [FxEmit "disconnected" (host d); FxDelay 2000 d] = 1%nat).
        { unfold delay_count. simpl. rewrite bool_decide_eq_true_2 by reflexivity.
          reflexivity. }
        rewrite Hcount, Hkey. cbn [from_option id]. lia.
      * assert (Hcount : delay_count key
                           [FxEmit "disconnected" (host d); FxDelay 2000 d] = 0%nat).
        { unfold delay_count. simpl. rewrite bool_decide_eq_false_2 by exact Hne.
          reflexivity. }
        rewrite Hcount, Hother by congruence. lia.
    + rewrite (SSHManagerFacts.handleDisconnect_at_limit _ d _ _ Hs Hlim).
      cbn [fst snd manager].
      unfold attemptsOf. rewrite SSHManagerFacts.updateSessionState_attempts.
      change (delay_count key [FxEmit "disconnected" (host d);
                               FxEmit "reconnectFailed" (host d)]) with 0%nat.
      lia.
  - destruct (bool_decide (d ∈ delays w)); cbn [fst snd manager];
      [|change (delay_count key []) with 0%nat; lia].
    unfold afterDelay.
    pose proof (connect_not_ready d o (manager w) key Hquiet) as Hsame.
    destruct (connect d o (manager w)) as [m1 ok]. cbn [fst snd manager] in *.
    rewrite Hsame.
    assert (Hcount : delay_count key
                       (FxConnect d :: if ok then [FxEmit "reconnected" (host d)] else [])
                     = 0%nat) by (destruct ok; reflexivity).
    rewrite Hcount. lia.
Qed.

(** Between two connections of a session that become ready, the manager
    starts at most as many reconnection delays for it as its counter is
    below 3: never more than three, whatever closes and failed connections
    arrive, and for whatever other sessions. *)
Theorem reconnect_delays_bounded (key : string) (evs : list Event) :
  forall w,
    Forall (not_ready_for key) evs ->
    (Z.of_nat (delay_count key (snd (run evs w)))
     <= Z.max 0 (3 - attemptsOf key (manager w)))%Z.
Proof.
  induction evs as [|ev evs IH]; intros w Hevs.
  { change (delay_count key (snd (run [] w))) with 0%nat. lia. }
  inversion Hevs as [|? ? Hev Hevs']; subst.
  pose proof (step_budget key ev w Hev) as Hstep.
  cbn [run]. destruct (step ev w) as [w1 fx1]. cbn [fst snd] in Hstep.
  specialize (IH w1 Hevs'). destruct (run evs w1) as [w2 fx2]. cbn [fst snd] in *.
  rewrite delay_count_app. lia.
Qed.

Lemma reconnect_delays_bounded_witness :
  (Z.of_nat (delay_count (getSessionKey Samples.box)
               (snd (run [EvClose Samples.box; EvDelayElapsed Samples.box ConnError;
                          EvClose Samples.box; EvDelayElapsed Samples.box ConnTimedOut;
                          EvClose Samples.box; EvClose Samples.box; EvClose Samples.box]
                         (mkWorld Samples.connected []))))
   <= Z.max 0 (3 - attemptsOf (getSessionKey Samples.box) Samples.connected))%Z.
Proof.
  apply (reconnect_delays_bounded (getSessionKey Samples.box)
           [EvClose Samples.box; EvDelayElapsed Samples.box ConnError;
            EvClose Samples.box; EvDelayElapsed Samples.box ConnTimedOut;
            EvClose Samples.box; EvClose Samples.box; EvClose Samples.box]
           (mkWorld Samples.connected [])).
  repeat constructor.
Defined.

(** *** After a disconnect *)

Lemma step_absent (key : string) (ev : Event) (w : World) :
  sessions (manager w) !! key = None ->
  (forall d, d ∈ delays w -> getSessionKey d <> key) ->
  sessions (manager (fst (step ev w))) !! key = None /\
  (forall d, d ∈ delays (fst (step ev w)) -> getSessionKey d <> key) /\
  (forall ms d, FxDelay ms d ∈ snd (step ev w) -> getSessionKey d <> key) /\
  (forall d, FxConnect d ∈ snd (step ev w) -> getSessionKey d <> key).
Proof.
  intros Habsent Hdelays. destruct ev as [d|d o]; simpl.
  - destruct (sessions (manager w) !! getSessionKey d) as [s|] eqn:Hs.
    2:{ unfold handleDisconnect. rewrite Hs. simpl. rewrite app_nil_r.
        repeat split; try assumption; intros; in_nil. }
    assert (Hne : getSessionKey d <> key) by congruence.
    unfold handleDisconnect. rewrite Hs.
    destruct (_ <? _)%Z; simpl.
    + rewrite !updateSessionState_other by congruence.
      split; [exact Habsent|]. split; [|split].
      * intros d' Hd'. apply elem_of_app in Hd' as [Hd'|Hd']; [apply Hdelays; exact Hd'|].
        apply list_elem_of_singleton in Hd' as ->. exact Hne.
      * intros ms d' Hd'. apply elem_of_cons in Hd' as [[=]|Hd'].
        apply list_elem_of_singleton in Hd'. injection Hd' as _ ->. exact Hne.
      * intros d' Hd'. apply elem_of_cons in Hd' as [[=]|Hd'].
        apply list_elem_of_singleton in Hd'. discriminate Hd'.
    + rewrite updateSessionState_other by congruence. rewrite app_nil_r.
      split; [exact Habsent|]. split; [exact Hdelays|]. split.
      * intros ms d' Hd'. apply elem_of_cons in Hd' as [[=]|Hd'].
        apply list_elem_of_singleton in Hd'. discriminate Hd'.
      * intros d' Hd'. apply elem_of_cons in Hd' as [[=]|Hd'].
        apply list_elem_of_singleton in Hd'. discriminate Hd'.
  - destruct (bool_decide (d ∈ delays w)) eqn:Hin; simpl.
    2:{ repeat split; try assumption; intros; in_nil. }
    apply bool_decide_eq_true in Hin.
    assert (Hne : getSessionKey d <> key) by (apply Hdelays; exact Hin).
    unfold afterDelay.
    destruct (connect_other d o (manager w) key Hne) as [_ Hsess].
    destruct (connect d o (manager w)) as [m1 ok]. simpl in *.
    rewrite Hsess. split; [exact Habsent|]. split; [|split].
    + intros d' Hd'. apply Hdelays. eapply SSHManagerFacts.remove_first_subset. exact Hd'.
    + intros ms d' Hd'. apply elem_of_cons in Hd' as [[=]|Hd'].
      destruct ok; [apply list_elem_of_singleton in Hd'; discriminate Hd'|].
      in_nil.
    + intros d' Hd'. apply elem_of_cons in Hd' as [[= ->]|Hd']; [exact Hne|].
      destruct ok; [apply list_elem_of_singleton in Hd'; discriminate Hd'|].
      in_nil.
Qed.

Lemma run_absent (key : string) (evs : list Event) :
  forall w,
    sessions (manager w) !! key = None ->
    (forall d, d ∈ delays w -> getSessionKey d <> key) ->
    sessions (manager (fst (run evs w))) !! key = None /\
    (forall ms d, FxDelay ms d ∈ snd (run evs w) -> getSessionKey d <> key) /\
    (forall d, FxConnect d ∈ snd (run evs w) -> getSessionKey d <> key).
Proof.
  induction evs as [|ev evs IH]; intros w Habsent Hdelays.
  - split; [exact Habsent|]. split; simpl; intros; in_nil.
  - simpl. destruct (step_absent key ev w Habsent Hdelays) as (Ha1 & Hd1 & Hfx1 & Hc1).
    destruct (step ev w) as [w1 fx1]. simpl in *.
    destruct (IH w1 Ha1 Hd1) as (Ha2 & Hfx2 & Hc2).
    destruct (run evs w1) as [w2 fx2]. simpl in *.
    split; [exact Ha2|]. split.
    + intros ms d Hd. apply elem_of_app in Hd as [Hd|Hd]; eauto.
    + intros d Hd. apply elem_of_app in Hd as [Hd|Hd]; eauto.
Qed.

(** After [disconnect], with no reconnection delay of the session under
    way, the session is gone for good: its state reads as disconnected, and
    no later close or elapsed delay starts a delay or opens a connection for
    it. *)
Theorem disconnected_session_stays_away (d : SSHConnectionDetails) (m : Manager)
        (running : list SSHConnectionDetails) (evs : list Event) :
  (forall d', d' ∈ running -> getSessionKey d' <> getSessionKey d) ->
  getSessionState d (manager (fst (run evs (mkWorld (disconnect d m) running))))
    = Disconnected /\
  (forall ms d', FxDelay ms d' ∈ snd (run evs (mkWorld (disconnect d m) running)) ->
                 getSessionKey d' <> getSessionKey d) /\
  (forall d', FxConnect d' ∈ snd (run evs (mkWorld (disconnect d m) running)) ->
              getSessionKey d' <> getSessionKey d).
Proof.
  intros Hrunning.
  assert (Habsent : sessions (disconnect d m) !! getSessionKey d = None).
  { unfold disconnect. destruct (sessions m !! getSessionKey d) eqn:Hs; simpl.
    - apply lookup_delete_eq.
    - exact Hs. }
  destruct (run_absent (getSessionKey d) evs (mkWorld (disconnect d m) running)
              Habsent Hrunning) as (Ha & Hfx & Hc).
  split; [|split; assumption].
  unfold getSessionState. rewrite Ha. reflexivity.
Qed.

Lemma disconnected_session_stays_away_witness :
  getSessionState Samples.box
    (manager (fst (run [EvClose Samples.box; EvDelayElapsed Samples.box (ConnReady 1 0)]
                       (mkWorld (disconnect Samples.box Samples.connected) []))))
    = Disconnected.
Proof.
  apply (disconnected_session_stays_away Samples.box Samples.connected []
           [EvClose Samples.box; EvDelayElapsed Samples.box (ConnReady 1 0)]).
  intros d' Hd'. in_nil.
Defined.

(** [disconnect] does not stop a reconnection that is under way: when the
    delay elapses and the connection becomes ready, the session is
    registered again, as connected and with a fresh counter. *)
Theorem disconnect_keeps_reconnection (d : SSHConnectionDetails) (w : World)
                                      (newClient : nat) (now : Z) :
  d ∈ delays w ->
  exists w',
    step (EvDelayElapsed d (ConnReady newClient now))
         (mkWorld (disconnect d (manager w)) (delays w)) =
      (w', [FxConnect d; FxEmit "reconnected" (host d)]) /\
    sessions (manager w') !! getSessionKey d =
      Some (mkSession newClient Connected (host d) now) /\
    getSessionState d (manager w') = Connected /\
    attemptsOf (getSessionKey d) (manager w') = 0%Z.
Proof.
  intros Hin. simpl. rewrite bool_decide_eq_true_2 by exact Hin.
  assert (Habsent : sessions (disconnect d (manager w)) !! getSessionKey d = None).
  { unfold disconnect. destruct (sessions (manager w) !! getSessionKey d) eqn:Hs; simpl.
    - apply lookup_delete_eq.
    - exact Hs. }
  unfold afterDelay, connect. rewrite Habsent. simpl.
  eexists. split; [reflexivity|]. simpl.
  unfold getSessionState, attemptsOf. simpl. rewrite !lookup_insert_eq.
  repeat split.
Qed.

Lemma disconnect_keeps_reconnection_witness :
  exists w',
    step (EvDelayElapsed Samples.box (ConnReady 7 0))
         (mkWorld (disconnect Samples.box Samples.connected) [Samples.box]) =
      (w', [FxConnect Samples.box; FxEmit "reconnected" "box"]) /\
    getSessionState Samples.box (manager w') = Connected.
Proof.
  destruct (disconnect_keeps_reconnection Samples.box
              (mkWorld Samples.connected [Samples.box]) 7 0)
    as (w' & Hstep & _ & Hstate & _).
  - left.
  - exists w'. split; [exact Hstep|exact Hstate].
Defined.

(** A reconnection that succeeds gives the session its three attempts
    back: the counter is 0 again and the session reads as connected, so the
    next close starts a delay. *)
Theorem reconnection_restores_budget (d : SSHConnectionDetails) (w : World)
        (s : SSHSession) (newClient : nat) (now : Z) :
  d ∈ delays w ->
  sessions (manager w) !! getSessionKey d = Some s ->
  state s <> Connected ->
  exists w',
    step (EvDelayElapsed d (ConnReady newClient now)) w =
      (w', [FxConnect d; FxEmit "reconnected" (host d)]) /\
    getSessionState d (manager w') = Connected /\
    attemptsOf (getSessionKey d) (manager w') = 0%Z /\
    snd (step (EvClose d) w') = [FxEmit "disconnected" (host d); FxDelay 2000 d].
Proof.
  intros Hin Hs Hstate. simpl. rewrite bool_decide_eq_true_2 by exact Hin.
  unfold afterDelay, connect. rewrite Hs.
  rewrite bool_decide_eq_false_2 by exact Hstate. simpl.
  eexists. split; [reflexivity|]. simpl.
  unfold getSessionState, attemptsOf. simpl. rewrite !lookup_insert_eq.
  split; [reflexivity|]. split; [reflexivity|].
  unfold handleDisconnect. simpl. rewrite lookup_insert_eq.
  rewrite SSHManagerFacts.updateSessionState_attempts. simpl.
  rewrite lookup_insert_eq. reflexivity.
Qed.

Lemma reconnection_restores_budget_witness :
  exists w',
    step (EvDelayElapsed Samples.box (ConnReady 7 0))
         (fst (step (EvClose Samples.box) (mkWorld Samples.connected []))) =
      (w', [FxConnect Samples.box; FxEmit "reconnected" "box"]) /\
    attemptsOf (getSessionKey Samples.box) (manager w') = 0%Z /\
    snd (step (EvClose Samples.box) w') =
      [FxEmit "disconnected" "box"; FxDelay 2000 Samples.box].
Proof.
  destruct (reconnection_restores_budget Samples.box
              (fst (step (EvClose Samples.box) (mkWorld Samples.connected [])))
              (mkSession 0 Reconnecting "box" 0) 7 0)
    as (w' & Hstep & _ & Hcount & Hclose).
  - vm_compute. left.
  - vm_compute. reflexivity.
  - discriminate.
  - exists w'. split; [exact Hstep|]. split; [exact Hcount|exact Hclose].
Defined.

(** After [disconnectAll] with no delay under way, nothing happens any
    more: every close and every elapsed delay is ignored. *)
Theorem nothing_after_disconnectAll (m : Manager) (evs : list Event) :
  run evs (mkWorld (disconnectAll m) []) = (mkWorld (disconnectAll m) [], []).
Proof.
  induction evs as [|ev evs IH]; [reflexivity|].
  simpl.
  assert (Hstep : step ev (mkWorld (disconnectAll m) [])
                  = (mkWorld (disconnectAll m) [], [])).
  { destruct ev as [d|d o]; simpl.
    - unfold handleDisconnect, disconnectAll. simpl. rewrite lookup_empty. reflexivity.
    - reflexivity. }
  rewrite Hstep, IH. reflexivity.
Qed.

End TransportFacts.

(** ** Reconnection as the manager drives it *)

Module ReconnectionFacts.
Import SSHManager Reconnection.

Lemma elem_of_filter (f : SSHConnectionDetails -> bool) (x : SSHConnectionDetails)
                     (l : list SSHConnectionDetails) :
  x ∈ List.filter f l <-> x ∈ l /\ f x = true.
Proof. rewrite !list_elem_of_In. apply filter_In. Qed.

Lemma count_none (f : SSHConnectionDetails -> bool) (x : SSHConnectionDetails)
                 (l : list SSHConnectionDetails) :
  length (List.filter f l) = 0%nat -> f x = true -> x ∉ l.
Proof.
  intros Hlen Hf Hin.
  assert (H : x ∈ List.filter f l) by (apply elem_of_filter; split; assumption).
  destruct (List.filter f l); [inversion H|discriminate Hlen].
Qed.

Lemma count_remove_first (f : SSHConnectionDetails -> bool) (x : SSHConnectionDetails)
                         (l : list SSHConnectionDetails) :
  x ∈ l ->
  length (List.filter f l) =
    (length (List.filter f (remove_first x l)) + (if f x then 1 else 0))%nat.
Proof.
  induction l as [|y l IH]; intros Hin; [inversion Hin|].
  simpl. destruct (decide (y = x)) as [->|Hne].
  - destruct (f x); simpl; lia.
  - apply elem_of_cons in Hin as [->|Hin]; [congruence|].
    simpl. destruct (f y); simpl; rewrite (IH Hin); lia.
Qed.

Lemma filter_remove_first_other (f : SSHConnectionDetails -> bool)
                                (x : SSHConnectionDetails)
                                (l : list SSHConnectionDetails) :
  f x = false -> List.filter f (remove_first x l) = List.filter f l.
Proof.
  intros Hf. induction l as [|y l IH]; [reflexivity|].
  simpl. destruct (decide (y = x)) as [->|Hne].
  - rewrite Hf. reflexivity.
  - simpl. rewrite IH. reflexivity.
Qed.

Lemma has_key_other (key : string) (x : SSHConnectionDetails) :
  getSessionKey x <> key -> has_key key x = false.
Proof. intros H. unfold has_key. apply bool_decide_eq_false. exact H. Qed.

Lemma has_key_same (key : string) (x : SSHConnectionDetails) :
  getSessionKey x = key -> has_key key x = true.
Proof. intros H. unfold has_key. apply bool_decide_eq_true. exact H. Qed.

(** The three ways [handleDisconnect] can go. *)
Lemma handleDisconnect_cases (key : string) (d : SSHConnectionDetails) (m : Manager) :
  (sessions m !! key = None /\ handleDisconnect key d m = (m, [])) \/
  (exists m',
     is_Some (sessions m !! key) /\
     (default 0 (reconnectAttempts m !! key) < 3)%Z /\
     handleDisconnect key d m =
       (m', [FxEmit "disconnected" (host d); FxDelay 2000 d]) /\
     reconnectAttempts m' !! key = Some (default 0 (reconnectAttempts m !! key) + 1)%Z /\
     (exists s', sessions m' !! key = Some s' /\ state s' = Reconnecting) /\
     (forall k, k <> key ->
        sessions m' !! k = sessions m !! k /\
        reconnectAttempts m' !! k = reconnectAttempts m !! k)) \/
  (is_Some (sessions m !! key) /\
   (3 <= default 0 (reconnectAttempts m !! key))%Z /\
   handleDisconnect key d m =
     (updateSessionState key Disconnected m,
      [FxEmit "disconnected" (host d); FxEmit "reconnectFailed" (host d)])).
Proof.
  destruct (sessions m !! key) as [s|] eqn:Hs.
  2:{ left. split; [reflexivity|]. unfold handleDisconnect. rewrite Hs. reflexivity. }
  right.
  destruct (Z.lt_ge_cases (default 0%Z (reconnectAttempts m !! key)) 3) as [Hlt|Hge].
  - left. unfold handleDisconnect. rewrite Hs.
    rewrite SSHManagerFacts.updateSessionState_attempts.
    unfold maxReconnectAttempts.
    replace (default 0%Z (reconnectAttempts m !! key) <? 3)%Z with true
      by (symmetry; apply Z.ltb_lt; exact Hlt).
    unfold attemptReconnect. eexists. split; [eauto|]. split; [exact Hlt|].
    split; [reflexivity|]. cbn [reconnectAttempts sessions].
    rewrite !SSHManagerFacts.updateSessionState_attempts.
    split; [apply lookup_insert_eq|]. split.
    + unfold updateSessionState. rewrite Hs. cbn [sessions].
      rewrite lookup_insert_eq. cbn [sessions]. rewrite lookup_insert_eq.
      eexists. split; reflexivity.
    + intros k Hk. split.
      * rewrite !TransportFacts.updateSessionState_other by exact Hk. reflexivity.
      * apply lookup_insert_ne. congruence.
  - right. split; [eauto|]. split; [exact Hge|].
    apply (SSHManagerFacts.handleDisconnect_at_limit key d m s Hs Hge).
Qed.

Lemma opened_cases (d : SSHConnectionDetails) (o : ConnectOutcome) (m : Manager) :
  opened d o m = [] \/ opened d o m = [d].
Proof.
  unfold opened.
  destruct (match sessions m !! getSessionKey d with
            | Some s => bool_decide (state s = Connected)
            | None => false
            end); [left; reflexivity|].
  destruct o; (left; reflexivity) || (right; reflexivity).
Qed.

(** An event of a client or of a delay that does not exist. *)
Lemma step_ineffective (ev : Event) (l : Link) :
  match ev with
  | EvClose x => x ∉ clients l
  | EvDelayElapsed x _ => x ∉ delays (world l)
  end ->
  step ev l = (l, []).
Proof.
  destruct ev as [x|x o]; intros Hout; unfold step;
    rewrite bool_decide_eq_false_2 by exact Hout; reflexivity.
Qed.

Lemma untouched_refl (key : string) (l : Link) : untouched key l l.
Proof. repeat split. Qed.

Lemma untouched_trans (key : string) (l1 l2 l3 : Link) :
  untouched key l1 l2 -> untouched key l2 l3 -> untouched key l1 l3.
Proof.
  intros (H1 & H2 & H3 & H4) (K1 & K2 & K3 & K4).
  repeat split; congruence.
Qed.

(** An event of another session leaves the session [key] as it is, and
    starts or opens nothing for it. *)
Lemma step_untouched (key : string) (ev : Event) (l : Link) :
  getSessionKey (subject ev) <> key ->
  untouched key l (fst (step ev l)) /\
  Forall (fun e => ~ reconnects key e) (snd (step ev l)).
Proof.
  intros Hne. pose proof (has_key_other key _ Hne) as Hf.
  destruct ev as [x|x o]; cbn [subject] in Hne, Hf; unfold step.
  - destruct (bool_decide (x ∈ clients l));
      [|split; [apply untouched_refl|constructor]].
    unfold SSHManager.step.
    destruct (handleDisconnect_cases (getSessionKey x) x (manager (world l)))
      as [[_ ->]|[(m' & _ & _ & -> & _ & _ & Hother)|(_ & _ & ->)]];
      cbn [fst snd]; unfold untouched; cbn [world manager delays clients].
    + change (started []) with (@nil SSHConnectionDetails).
      rewrite app_nil_r, (filter_remove_first_other _ x _ Hf).
      repeat split. constructor.
    + destruct (Hother key ltac:(congruence)) as [-> ->].
      rewrite List.filter_app.
      change (started [FxEmit "disconnected" (host x); FxDelay 2000 x]) with [x].
      cbn [List.filter]. rewrite Hf, app_nil_r.
      rewrite (filter_remove_first_other _ x _ Hf).
      repeat split. repeat constructor; cbn; tauto.
    + change (started [FxEmit "disconnected" (host x); FxEmit "reconnectFailed" (host x)])
        with (@nil SSHConnectionDetails).
      rewrite app_nil_r, (filter_remove_first_other _ x _ Hf).
      rewrite SSHManagerFacts.updateSessionState_attempts.
      rewrite TransportFacts.updateSessionState_other by congruence.
      repeat split. repeat constructor; cbn; tauto.
  - destruct (bool_decide (x ∈ delays (world l))) eqn:Hin;
      [|split; [apply untouched_refl|constructor]].
    unfold SSHManager.step. rewrite Hin. unfold afterDelay.
    destruct (TransportFacts.connect_other x o (manager (world l)) key Hne) as [Hatt Hses].
    destruct (connect x o (manager (world l))) as [m1 ok].
    cbn [fst snd] in *. unfold untouched. cbn [world manager delays clients].
    rewrite Hatt, Hses, (filter_remove_first_other _ x _ Hf), List.filter_app.
    assert (Hopened : List.filter (has_key key) (opened x o (manager (world l))) = []).
    { destruct (opened_cases x o (manager (world l))) as [-> | ->];
        [reflexivity|]. cbn [List.filter]. rewrite Hf. reflexivity. }
    rewrite Hopened, app_nil_r. repeat split.
    constructor; [cbn; exact Hne|].
    destruct ok; repeat constructor; cbn; tauto.
Qed.

(** While every event of the session [key] is one of a client or of a
    delay that does not exist, nothing happens to the session. *)
Lemma run_untouched (key : string) (evs : list Event) :
  forall l,
    (forall x, getSessionKey x = key -> EvClose x ∈ evs -> x ∉ clients l) ->
    (forall x o, getSessionKey x = key -> EvDelayElapsed x o ∈ evs ->
                 x ∉ delays (world l)) ->
    untouched key l (fst (run evs l)) /\
    Forall (fun e => ~ reconnects key e) (snd (run evs l)).
Proof.
  induction evs as [|ev evs IH]; intros l Hc Hd.
  - split; [apply untouched_refl|constructor].
  - cbn [run].
    assert (Hrest : forall l1,
              untouched key l l1 ->
              untouched key l (fst (run evs l1)) /\
              Forall (fun e => ~ reconnects key e) (snd (run evs l1))).
    { intros l1 Hl1. destruct Hl1 as (H1 & H2 & H3 & H4).
      destruct (IH l1) as [Hu Hfx].
      - intros x Hx Hin Hmem. apply (Hc x Hx); [right; exact Hin|].
        assert (H : x ∈ List.filter (has_key key) (clients l1))
          by (apply elem_of_filter; split; [exact Hmem|apply has_key_same, Hx]).
        rewrite H4 in H. apply elem_of_filter in H as [H _]. exact H.
      - intros x o Hx Hin Hmem. apply (Hd x o Hx); [right; exact Hin|].
        assert (H : x ∈ List.filter (has_key key) (delays (world l1)))
          by (apply elem_of_filter; split; [exact Hmem|apply has_key_same, Hx]).
        rewrite H3 in H. apply elem_of_filter in H as [H _]. exact H.
      - split; [|exact Hfx].
        apply (untouched_trans key l l1 _); [repeat split; assumption|exact Hu]. }
    destruct (decide (getSessionKey (subject ev) = key)) as [Hkey|Hne].
    + rewrite (step_ineffective ev l).
      * destruct (Hrest l (untouched_refl key l)) as [Hu Hfx].
        destruct (run evs l) as [l2 fx2]. cbn [fst snd] in *.
        split; [exact Hu|exact Hfx].
      * destruct ev as [x|x o]; cbn [subject] in Hkey.
        -- apply (Hc x Hkey). left.
        -- apply (Hd x o Hkey). left.
    + destruct (step_untouched key ev l Hne) as [Hu1 Hfx1].
      destruct (step ev l) as [l1 fx1]. cbn [fst snd] in *.
      destruct (Hrest l1 Hu1) as [Hu Hfx].
      destruct (run evs l1) as [l2 fx2]. cbn [fst snd] in *.
      split; [exact Hu|]. apply Forall_app. split; assumption.
Qed.

(** No event adds to what can call the manager back for a session: a
    close uses up its client and starts one delay at most, and a delay that
    elapses leaves one client at most. A registered session stays
    registered. *)
Lemma step_outstanding (key : string) (ev : Event) (l : Link) :
  (outstanding key (fst (step ev l)) <= outstanding key l)%nat /\
  (is_Some (sessions (manager (world l)) !! key) ->
   is_Some (sessions (manager (world (fst (step ev l)))) !! key)).
Proof.
  destruct (decide (getSessionKey (subject ev) = key)) as [Hkey|Hne].
  2:{ destruct (step_untouched key ev l Hne) as [(H1 & _ & H3 & H4) _].
      unfold outstanding. rewrite H1, H3, H4. split; [lia|trivial]. }
  pose proof (has_key_same key _ Hkey) as Hf.
  destruct ev as [x|x o]; cbn [subject] in Hkey, Hf; unfold step.
  - destruct (bool_decide (x ∈ clients l)) eqn:Hin; [|cbn [fst]; split; [lia|trivial]].
    apply bool_decide_eq_true in Hin.
    pose proof (count_remove_first (has_key key) x (clients l) Hin) as Hcount.
    rewrite Hf in Hcount.
    unfold SSHManager.step.
    destruct (handleDisconnect_cases (getSessionKey x) x (manager (world l)))
      as [[_ ->]|[(m' & _ & _ & -> & _ & Hreg & _)|(_ & _ & ->)]];
      cbn [fst snd]; unfold outstanding; cbn [world manager delays clients].
    + change (started []) with (@nil SSHConnectionDetails). rewrite app_nil_r.
      split; [lia|trivial].
    + change (started [FxEmit "disconnected" (host x); FxDelay 2000 x]) with [x].
      rewrite List.filter_app, length_app. cbn [List.filter]. rewrite Hf.
      cbn [length]. split; [lia|]. intros _. rewrite <- Hkey.
      destruct Hreg as (s' & Hs' & _). eauto.
    + change (started [FxEmit "disconnected" (host x); FxEmit "reconnectFailed" (host x)])
        with (@nil SSHConnectionDetails).
      rewrite app_nil_r. split; [lia|].
      intros [s Hs]. unfold updateSessionState. rewrite Hkey, Hs. cbn [sessions].
      rewrite lookup_insert_eq. eauto.
  - destruct (bool_decide (x ∈ delays (world l))) eqn:Hin;
      [|cbn [fst]; split; [lia|trivial]].
    pose proof Hin as Hmem. apply bool_decide_eq_true in Hmem.
    pose proof (count_remove_first (has_key key) x (delays (world l)) Hmem) as Hcount.
    rewrite Hf in Hcount.
    unfold SSHManager.step. rewrite Hin. unfold afterDelay.
    assert (Hreg : is_Some (sessions (manager (world l)) !! key) ->
                   is_Some (sessions (fst (connect x o (manager (world l)))) !! key)).
    { intros [s Hs]. unfold connect. rewrite Hkey, Hs.
      destruct (bool_decide (state s = Connected)); [cbn [fst]; eauto|].
      destruct o; cbn [fst sessions]; eauto.
      - rewrite lookup_insert_eq. eauto.
      - unfold updateSessionState. rewrite Hs. cbn [sessions].
        rewrite lookup_insert_eq. eauto. }
    destruct (connect x o (manager (world l))) as [m1 ok].
    cbn [fst snd] in *. unfold outstanding. cbn [world manager delays clients].
    rewrite List.filter_app, length_app.
    split; [|exact Hreg].
    destruct (opened_cases x o (manager (world l))) as [-> | ->];
      cbn [List.filter]; [|rewrite Hf]; cbn [length]; lia.
Qed.

Lemma run_outstanding (key : string) (evs : list Event) :
  forall l,
    (outstanding key (fst (run evs l)) <= outstanding key l)%nat /\
    (is_Some (sessions (manager (world l)) !! key) ->
     is_Some (sessions (manager (world (fst (run evs l)))) !! key)).
Proof.
  induction evs as [|ev evs IH]; intros l; [cbn [run fst]; split; [lia|trivial]|].
  cbn [run]. destruct (step_outstanding key ev l) as [Hle1 Hreg1].
  destruct (step ev l) as [l1 fx1]. cbn [fst snd] in *.
  destruct (IH l1) as [Hle Hreg].
  destruct (run evs l1) as [l2 fx2]. cbn [fst snd] in *.
  split; [lia|auto].
Qed.

(** A client of a session with one callback outstanding at most is the
    only thing that can call the manager back for it: no delay of the
    session is running. *)
Lemma only_client (key : string) (x : SSHConnectionDetails) (l : Link) :
  (outstanding key l <= 1)%nat ->
  getSessionKey x = key ->
  x ∈ clients l ->
  length (List.filter (has_key key) (delays (world l))) = 0%nat /\
  length (List.filter (has_key key) (remove_first x (clients l))) = 0%nat.
Proof.
  intros Hle Hkey Hin. unfold outstanding in Hle.
  pose proof (count_remove_first (has_key key) x (clients l) Hin) as Hcount.
  rewrite (has_key_same key x Hkey) in Hcount. lia.
Qed.

(** A connection for a session that is not connected is a new one: its
    promise is fulfilled when, and only when, it becomes ready. *)
Lemma connect_anew (x : SSHConnectionDetails) (o : ConnectOutcome) (m : Manager)
                   (s : SSHSession) :
  sessions m !! getSessionKey x = Some s ->
  state s <> Connected ->
  snd (connect x o m) = match o with ConnReady _ _ => true | _ => false end.
Proof.
  intros Hs Hstate. unfold connect. rewrite Hs.
  rewrite bool_decide_eq_false_2 by exact Hstate.
  destruct o; reflexivity.
Qed.

(** C8. A session is established, and events of any sessions follow. When
    then the client of the session reports [close] with fewer than 3
    attempts counted, one delay of 2000 ms is started and the counter goes
    up by one; until that delay elapses nothing else is started or opened for
    the session, whatever happens meanwhile, and when it elapses [connect]
    is run for the session once more, [reconnected] being emitted when, and
    only when, the connection becomes ready. When the client reports [close]
    with 3 attempts counted, [reconnectFailed] is emitted, and from then on
    no sequence of events starts a delay or opens a connection for the
    session again. *)
Theorem bounded_reconnection (d : SSHConnectionDetails) (l0 : Link) (evs : list Event)
                             (d' : SSHConnectionDetails) :
  established d l0 ->
  getSessionKey d' = getSessionKey d ->
  d' ∈ clients (fst (run evs l0)) ->
  let key := getSessionKey d in
  let l := fst (run evs l0) in
  let attempts := default 0%Z (reconnectAttempts (manager (world l)) !! key) in
  let l1 := fst (step (EvClose d') l) in
  ((attempts < 3)%Z ->
     snd (step (EvClose d') l) = [FxEmit "disconnected" (host d'); FxDelay 2000 d'] /\
     reconnectAttempts (manager (world l1)) !! key = Some (attempts + 1)%Z /\
     forall evs',
       (forall o, EvDelayElapsed d' o ∉ evs') ->
       let l2 := fst (run evs' l1) in
       Forall (fun e => ~ reconnects key e) (snd (run evs' l1)) /\
       forall o,
         snd (step (EvDelayElapsed d' o) l2) =
           FxConnect d' ::
           match o with
           | ConnReady _ _ => [FxEmit "reconnected" (host d')]
           | _ => []
           end /\
         manager (world (fst (step (EvDelayElapsed d' o) l2))) =
           fst (connect d' o (manager (world l2)))) /\
  ((3 <= attempts)%Z ->
     snd (step (EvClose d') l) =
       [FxEmit "disconnected" (host d'); FxEmit "reconnectFailed" (host d')] /\
     forall evs', Forall (fun e => ~ reconnects key e) (snd (run evs' l1))).
Proof.
  intros Hest Hkey Hin. cbv zeta.
  destruct Hest as ((s0 & Hs0 & _) & _ & Hout0).
  set (key := getSessionKey d) in *. set (l := fst (run evs l0)) in *.
  destruct (run_outstanding key evs l0) as [Hle Hreg]. fold l in Hle, Hreg.
  assert (Hone : (outstanding key l <= 1)%nat) by lia.
  destruct (only_client key d' l Hone Hkey Hin) as [Hnodelay Hnoclient].
  pose proof (has_key_same key d' Hkey) as Hf.
  assert (Hclose : step (EvClose d') l =
            (mkLink (mkWorld (fst (handleDisconnect key d' (manager (world l))))
                             (delays (world l) ++
                              started (snd (handleDisconnect key d' (manager (world l))))))
                    (remove_first d' (clients l)),
             snd (handleDisconnect key d' (manager (world l))))).
  { unfold step. rewrite bool_decide_eq_true_2 by exact Hin.
    unfold SSHManager.step. rewrite Hkey. fold key.
    destruct (handleDisconnect key d' (manager (world l))) as [m fx]. reflexivity. }
  rewrite Hclose. cbn [fst snd].
  assert (Hc : forall x, getSessionKey x = key -> x ∉ remove_first d' (clients l)).
  { intros x Hx. apply (count_none (has_key key)); [exact Hnoclient|].
    apply has_key_same, Hx. }
  destruct (handleDisconnect_cases key d' (manager (world l)))
    as [[Hnone _]|[(m' & _ & Hlt & Heq & Hatt & (s' & Hs' & Hstate) & _)|(_ & Hge & Heq)]].
  - exfalso. destruct (Hreg (ex_intro _ s0 Hs0)) as [s Hs]. congruence.
  - rewrite Heq. cbn [fst snd world manager].
    change (started [FxEmit "disconnected" (host d'); FxDelay 2000 d']) with [d'].
    split; [|intros Hge; lia].
    intros _. split; [reflexivity|]. split; [exact Hatt|].
    intros evs' Hno.
    set (l1 := mkLink (mkWorld m' (delays (world l) ++ [d'])) (remove_first d' (clients l))).
    destruct (run_untouched key evs' l1) as [(H1 & _ & H3 & _) Hfx].
    { intros x Hx _. apply Hc, Hx. }
    { intros x o Hx Hev Hmem. cbn [l1 world delays] in Hmem.
      apply elem_of_app in Hmem as [Hmem|Hmem].
      - revert Hmem. apply (count_none (has_key key)); [exact Hnodelay|].
        apply has_key_same, Hx.
      - apply list_elem_of_singleton in Hmem as ->. exact (Hno o Hev). }
    split; [exact Hfx|]. intros o.
    set (l2 := fst (run evs' l1)) in *.
    assert (Hrunning : d' ∈ delays (world l2)).
    { assert (H : d' ∈ List.filter (has_key key) (delays (world l2))).
      { rewrite H3. apply elem_of_filter. split; [|exact Hf].
        cbn [l1 world delays]. apply elem_of_app. right. left. }
      apply elem_of_filter in H as [H _]. exact H. }
    assert (Hok : snd (connect d' o (manager (world l2))) =
                  match o with ConnReady _ _ => true | _ => false end).
    { apply (connect_anew d' o _ s'); [rewrite Hkey; fold key; rewrite H1; exact Hs'|].
      rewrite Hstate. discriminate. }
    unfold step. rewrite bool_decide_eq_true_2 by exact Hrunning.
    unfold SSHManager.step. rewrite bool_decide_eq_true_2 by exact Hrunning.
    unfold afterDelay.
    destruct (connect d' o (manager (world l2))) as [m1 ok]. cbn [fst snd] in *.
    subst ok. split; [destruct o; reflexivity|reflexivity].
  - rewrite Heq. cbn [fst snd world manager].
    change (started [FxEmit "disconnected" (host d'); FxEmit "reconnectFailed" (host d')])
      with (@nil SSHConnectionDetails).
    split; [intros Hlt; lia|].
    intros _. split; [reflexivity|]. intros evs'.
    apply run_untouched.
    + intros x Hx _. apply Hc, Hx.
    + intros x o Hx _. cbn [world delays]. rewrite app_nil_r.
      apply (count_none (has_key key)); [exact Hnodelay|]. apply has_key_same, Hx.
Qed.

Lemma bounded_reconnection_witness :
  (snd (step (EvClose Samples.box) box_link) =
     [FxEmit "disconnected" "box"; FxDelay 2000 Samples.box] /\
   snd (step (EvDelayElapsed Samples.box (ConnReady 1 0))
             (fst (run [EvClose Samples.box] (fst (step (EvClose Samples.box) box_link))))) =
     [FxConnect Samples.box; FxEmit "reconnected" "box"]) /\
  snd (step (EvClose Samples.box) (fst (run three_failures box_link))) =
    [FxEmit "disconnected" "box"; FxEmit "reconnectFailed" "box"] /\
  Forall (fun e => ~ reconnects (getSessionKey Samples.box) e)
    (snd (run [EvClose Samples.box; EvDelayElapsed Samples.box (ConnReady 1 0);
               EvClose Samples.box]
              (fst (step (EvClose Samples.box) (fst (run three_failures box_link)))))).
Proof.
  assert (Hest : established Samples.box box_link).
  { split; [|split].
    - exists Samples.box_session. split; [vm_compute; reflexivity|reflexivity].
    - left.
    - vm_compute. reflexivity. }
  split.
  - destruct (bounded_reconnection Samples.box box_link [] Samples.box Hest eq_refl)
      as [Hbelow _]; [left|].
    destruct Hbelow as (Hfx & _ & Hnext); [vm_compute; reflexivity|].
    split; [exact Hfx|].
    destruct (Hnext [EvClose Samples.box]) as [_ Hconnect].
    + intros o Hev. apply list_elem_of_singleton in Hev. discriminate Hev.
    + apply (Hconnect (ConnReady 1 0)).
  - destruct (bounded_reconnection Samples.box box_link three_failures Samples.box
                Hest eq_refl) as [_ Hlimit]; [vm_compute; left|].
    destruct Hlimit as [Hfx Hnever]; [vm_compute; discriminate|].
    split; [exact Hfx|apply Hnever].
Defined.

End ReconnectionFacts.
(** ** More on path mapping *)

Module MappingFacts.
Import Js PathMapper.

Lemma toRemoteLoop_normal_form (entries : list (string * string))
                               (normalized p p' : string) :
  toRemoteLoop entries normalized p = toRemoteLoop entries normalized p' \/
  (toRemoteLoop entries normalized p = p /\ toRemoteLoop entries normalized p' = p').
Proof.
  induction entries as [|[l r] entries IH]; simpl; [right; split; reflexivity|].
  destruct (String.eqb normalized l); [left; reflexivity|].
  destruct (startsWith (l +:+ "/") normalized); [left; reflexivity|exact IH].
Qed.

Lemma toLocalLoop_normal_form (path_join : string -> string -> string)
                              (entries : list (string * string))
                              (normalized p p' : string) :
  toLocalLoop path_join entries normalized p = toLocalLoop path_join entries normalized p' \/
  (toLocalLoop path_join entries normalized p = p /\
   toLocalLoop path_join entries normalized p' = p').
Proof.
  induction entries as [|[r l] entries IH]; simpl; [right; split; reflexivity|].
  destruct (String.eqb normalized r); [left; reflexivity|].
  destruct (startsWith (r +:+ "/") normalized); [left; reflexivity|exact IH].
Qed.

(** Two spellings of a path that have one normal form, by their slashes or
    by a trailing slash, are mapped to the same path; unless no mapping
    applies, and then each is returned as it was spelled. *)
Theorem lookup_by_normal_form (path_join : string -> string -> string)
                              (pm : PathMapper) (p p' : string) :
  normalizePath p = normalizePath p' ->
  (toRemotePath pm p = toRemotePath pm p' \/
   (toRemotePath pm p = p /\ toRemotePath pm p' = p')) /\
  (toLocalPath path_join pm p = toLocalPath path_join pm p' \/
   (toLocalPath path_join pm p = p /\ toLocalPath path_join pm p' = p')).
Proof.
  intros Hsame. unfold toRemotePath, toLocalPath. rewrite Hsame.
  split; [apply toRemoteLoop_normal_form|apply toLocalLoop_normal_form].
Qed.

Lemma lookup_by_normal_form_witness :
  toRemotePath Samples.nested "/a/b/" = toRemotePath Samples.nested "\a\b" \/
  (toRemotePath Samples.nested "/a/b/" = "/a/b/" /\
   toRemotePath Samples.nested "\a\b" = "\a\b").
Proof.
  apply (lookup_by_normal_form (fun a b => a +:+ "/" +:+ b) Samples.nested "/a/b/" "\a\b").
  reflexivity.
Defined.

Lemma toRemoteLoop_set (entries : list (string * string)) (l r p : string) :
  (forall k v, (k, v) ∈ entries -> k <> l -> startsWith (k +:+ "/") l = false) ->
  toRemoteLoop (JsMap.set l r entries) l p = r.
Proof.
  induction entries as [|[k v] entries IH]; intros Hfree; simpl.
  - rewrite String.eqb_refl. reflexivity.
  - destruct (decide (l = k)) as [->|Hne]; simpl.
    + rewrite String.eqb_refl. reflexivity.
    + destruct (String.eqb_spec l k) as [Heq|_]; [congruence|].
      rewrite (Hfree k v) by (left || congruence).
      apply IH. intros k' v' Hin. apply (Hfree k' v'). right. exact Hin.
Qed.

Lemma toLocalLoop_set (path_join : string -> string -> string)
                      (entries : list (string * string)) (r l p : string) :
  (forall k v, (k, v) ∈ entries -> k <> r -> startsWith (k +:+ "/") r = false) ->
  toLocalLoop path_join (JsMap.set r l entries) r p = l.
Proof.
  induction entries as [|[k v] entries IH]; intros Hfree; simpl.
  - rewrite String.eqb_refl. reflexivity.
  - destruct (decide (r = k)) as [->|Hne]; simpl.
    + rewrite String.eqb_refl. reflexivity.
    + destruct (String.eqb_spec r k) as [Heq|_]; [congruence|].
      rewrite (Hfree k v) by (left || congruence).
      apply IH. intros k' v' Hin. apply (Hfree k' v'). right. exact Hin.
Qed.

(** A mapping that has been added is the one used for its own two paths,
    in both directions and whether it is new or replaces an older mapping of
    the same path, unless an entry of the table for a directory above that
    path comes before it. *)
Theorem added_mapping_is_used (path_join : string -> string -> string)
                              (resolveLocalPath : string -> string)
                              (pm : PathMapper) (localPath remotePath : string) :
  let l := normalizePath (resolveLocalPath localPath) in
  let r := normalizePath remotePath in
  ((forall k v, (k, v) ∈ localToRemote pm -> k <> l -> startsWith (k +:+ "/") l = false) ->
   forall p, normalizePath p = l ->
     toRemotePath (addMapping resolveLocalPath localPath remotePath pm) p = r) /\
  ((forall k v, (k, v) ∈ remoteToLocal pm -> k <> r -> startsWith (k +:+ "/") r = false) ->
   forall p, normalizePath p = r ->
     toLocalPath path_join (addMapping resolveLocalPath localPath remotePath pm) p = l).
Proof.
  intros l r. split; intros Hfree p Hp.
  - unfold toRemotePath, addMapping. simpl. rewrite Hp. fold l. fold r.
    apply toRemoteLoop_set. exact Hfree.
  - unfold toLocalPath, addMapping. simpl. rewrite Hp. fold l. fold r.
    apply toLocalLoop_set. exact Hfree.
Qed.

Lemma added_mapping_is_used_witness :
  toRemotePath (addMapping (fun p => p) "/a/b/" "/z/" Samples.nested) "/a/b" = "/x/b" \/
  toRemotePath (addMapping (fun p => p) "/c/" "/z/" Samples.nested) "/c" = "/z".
Proof.
  right.
  apply (proj1 (added_mapping_is_used (fun a b => a +:+ "/" +:+ b) (fun p => p)
                  Samples.nested "/c/" "/z/")).
  - intros k v Hin Hne.
    apply elem_of_cons in Hin as [[= -> ->]|Hin]; [reflexivity|].
    apply list_elem_of_singleton in Hin. injection Hin as -> ->. reflexivity.
  - reflexivity.
Defined.

End MappingFacts.

(** ** The line of a command *)

Module CommandFacts.
Import Js GDBMI Session.

Lemma splitCommand_spec (command : string) :
  (command = fst (splitCommand command) /\ snd (splitCommand command) = EmptyString) \/
  command = fst (splitCommand command) +:+ " " +:+ snd (splitCommand command).
Proof.
  induction command as [|c rest IH]; simpl; [left; split; reflexivity|].
  destruct (Ascii.eqb_spec c " ") as [->|Hc]; simpl; [right; reflexivity|].
  destruct (splitCommand rest) as [cmd args]. simpl in *.
  destruct IH as [[-> ->] | ->]; [left; split; reflexivity|right; reflexivity].
Qed.

(** The line written for a command is its token, a hyphen and the text of
    the command as it was given; only a command that ends with its first
    space loses that space. *)
Theorem command_line_verbatim (tok : Z) (command : string) :
  fullCommand tok command = pretty tok +:+ "-" +:+ command \/
  exists cmd,
    command = cmd +:+ " " /\ fullCommand tok command = pretty tok +:+ "-" +:+ cmd.
Proof.
  unfold fullCommand, formatCommand.
  destruct (splitCommand_spec command) as [[Hcmd Hargs]|Hcmd];
    destruct (splitCommand command) as [cmd args]; simpl in *.
  - subst. left. reflexivity.
  - destruct args as [|a args]; simpl.
    + right. exists cmd. split; [exact Hcmd|reflexivity].
    + left. rewrite Hcmd. reflexivity.
Qed.

End CommandFacts.
